(** * EggTimer: the timer lifecycle engine

    A shallow embedding of the TypeScript sources

    - [src/core/timer.ts]          the Timer record and its status enum,
    - [src/core/interfaces.ts]     the event types,
    - [src/infra/memory-store.ts]  [InMemoryTimerStore],
    - [src/infra/scheduler.ts]     [NodeScheduler],
    - [src/infra/event-bus.ts]     [InMemoryEventBus]: the emissions of
                                   the service, and the listeners of the
                                   bus on their own,
    - [src/core/timer-service.ts]  [TimerService],
    - [src/api/schemas.ts]         the request schemas,
    - [src/api/timer-routes.ts]    the handlers of the router,
    - [src/index.ts]               the error-handling middleware and the
                                   shutdown sequence,
    - [TimerController]            the handlers of the controller,

    followed by the properties of the engine and of the layers around it.

    Modelling decisions.

    - A JavaScript [number] holding a millisecond count or a clock reading
      is an integer of [Z].  The code computes in doubles, which are
      exact on the integers up to [MAX_SAFE_INTEGER] (2^53 - 1); a
      property that rests on the value of a sum is stated for totals in
      that range.
    - A string is the UTF-8 text of the JavaScript string; where the
      code counts UTF-16 code units, so does the model
      ([utf16_length]).
    - Timer records are JavaScript objects: they live in a heap and are
      handled through references, so that a field assignment is visible
      through every alias of the object and through no copy of it.
    - A JavaScript [Map] keeps its entries in insertion order; it is an
      association list with unique keys ([JSMap]).
    - Every method is a computation in a state and error monad [M] over
      the [World]: heap, store, scheduler table, pending sleeps, emitted
      events and the two clocks.  One call of a public method runs to its
      end without interleaving with another one (the in-memory store
      resolves every awaited promise at once); promise reactions queued
      by an aborted sleep run when the call has returned ([run_task]).
    - Time passes between two calls only ([Advance]); a timeout that is
      due expires when the event loop gets to it ([Fire]), not before its
      due time.
    - [Math.random()] is an input: [create] takes the base-36 text of the
      number drawn.
    - A handler of the HTTP layer is modelled on the requests whose body
      and parameters have the types the handler declares; its result is
      what it tells [res], or the error it passes to [next].
    - A handler subscribed to the bus is known by a number and does not
      call the bus itself. *)

From Stdlib Require Import ZArith Lia Bool List Ascii String.
From stdpp Require Import base option list.

Import ListNotations.
Local Open Scope string_scope.
Local Open Scope list_scope.
Local Open Scope Z_scope.

(** ** JavaScript [Map] with string keys *)

Module JSMap.
Section Ops.
Context {V : Type}.

Definition t : Type := list (string * V).

Definition empty : t := [].

Fixpoint get (k : string) (m : t) : option V :=
  match m with
  | [] => None
  | (k', v) :: m' => if String.eqb k k' then Some v else get k m'
  end.

Definition has (k : string) (m : t) : bool :=
  match get k m with Some _ => true | None => false end.

(** [set] keeps the position of a key that is already present and
    appends a new key at the end. *)
Fixpoint set (k : string) (v : V) (m : t) : t :=
  match m with
  | [] => [(k, v)]
  | (k', v') :: m' =>
      if String.eqb k k' then (k, v) :: m' else (k', v') :: set k v m'
  end.

Fixpoint delete (k : string) (m : t) : t :=
  match m with
  | [] => []
  | (k', v') :: m' =>
      if String.eqb k k' then m' else (k', v') :: delete k m'
  end.

Definition keys (m : t) : list string := map fst m.
Definition values (m : t) : list V := map snd m.

End Ops.
Arguments t : clear implicits.
End JSMap.

(** ** Data model ([src/core/timer.ts], [src/core/interfaces.ts]) *)

Inductive TimerStatus : Type :=
  | CREATED | RUNNING | PAUSED | COMPLETED | CANCELED.

Definition status_eqb (a b : TimerStatus) : bool :=
  match a, b with
  | CREATED, CREATED | RUNNING, RUNNING | PAUSED, PAUSED
  | COMPLETED, COMPLETED | CANCELED, CANCELED => true
  | _, _ => false
  end.

Lemma status_eqb_spec (a b : TimerStatus) : reflect (a = b) (status_eqb a b).
Proof. destruct a, b; constructor; congruence. Qed.

Record Timer : Type := mkTimer {
  id : string;
  name : option string;
  durationMs : Z;
  startMonotonicMs : Z;
  paused : bool;
  remainingMs : Z;
  createdAt : Z;
  status : TimerStatus
}.

(** Field assignments [timer.f = v]. *)
Definition set_durationMs (v : Z) (t : Timer) : Timer :=
  mkTimer (id t) (name t) v (startMonotonicMs t) (paused t)
          (remainingMs t) (createdAt t) (status t).
Definition set_startMonotonicMs (v : Z) (t : Timer) : Timer :=
  mkTimer (id t) (name t) (durationMs t) v (paused t)
          (remainingMs t) (createdAt t) (status t).
Definition set_paused (v : bool) (t : Timer) : Timer :=
  mkTimer (id t) (name t) (durationMs t) (startMonotonicMs t) v
          (remainingMs t) (createdAt t) (status t).
Definition set_remainingMs (v : Z) (t : Timer) : Timer :=
  mkTimer (id t) (name t) (durationMs t) (startMonotonicMs t) (paused t)
          v (createdAt t) (status t).
Definition set_status (v : TimerStatus) (t : Timer) : Timer :=
  mkTimer (id t) (name t) (durationMs t) (startMonotonicMs t) (paused t)
          (remainingMs t) (createdAt t) v.

(** [duration: string | number | { ms: number }] *)
Inductive Duration : Type :=
  | DString (s : string)
  | DNumber (n : Z)
  | DObject (ms : Z).

Record TimerCreateRequest : Type := mkRequest {
  req_name : option string;
  duration : Duration
}.

Inductive TimerEventType : Type :=
  | TIMER_CREATED | TIMER_COMPLETED | TIMER_PAUSED
  | TIMER_RESUMED | TIMER_CANCELED.

Record TimerEvent : Type := mkEvent {
  ev_type : TimerEventType;
  ev_id : string;
  ev_name : option string;
  timestamp : Z
}.

(** ** Duration strings ([TimerService.parseDuration])

    The string branch lower-cases the input and runs the global regular
    expression [/(\d+)([smhd])/g] over it, adding up one term per match. *)

Definition is_digit (c : ascii) : bool :=
  let n := nat_of_ascii c in (48 <=? n)%nat && (n <=? 57)%nat.

Definition toLowerCase_char (c : ascii) : ascii :=
  let n := nat_of_ascii c in
  if (65 <=? n)%nat && (n <=? 90)%nat then ascii_of_nat (n + 32) else c.

Fixpoint toLowerCase (s : string) : string :=
  match s with
  | EmptyString => EmptyString
  | String c s' => String (toLowerCase_char c) (toLowerCase s')
  end.

(** The milliseconds of one unit: the [switch (unit)] of the loop body;
    [None] for a character outside the class [[smhd]]. *)
Definition unit_ms (u : ascii) : option Z :=
  if Ascii.eqb u "s" then Some 1000
  else if Ascii.eqb u "m" then Some (60 * 1000)
  else if Ascii.eqb u "h" then Some (60 * 60 * 1000)
  else if Ascii.eqb u "d" then Some (24 * 60 * 60 * 1000)
  else None.

(** [Number.MAX_SAFE_INTEGER]: up to it every integer is a double, and
    the sum or product of two non-negative integers that does not exceed
    it is computed by the code without rounding. *)
Definition MAX_SAFE_INTEGER : Z := 2 ^ 53 - 1.

(** [parseInt] on a string of decimal digits: the integer that the
    digits denote.  The code has the double nearest to it, which is the
    same number up to [MAX_SAFE_INTEGER]. *)
Definition parseInt (ds : list ascii) : Z :=
  fold_left (fun acc c => 10 * acc + Z.of_nat (nat_of_ascii c - 48)) ds 0.

(** The greedy [\d+]: the longest run of digits at the head of [s]. *)
Fixpoint span_digits (s : string) : list ascii * string :=
  match s with
  | String c s' =>
      if is_digit c
      then let (ds, rest) := span_digits s' in (c :: ds, rest)
      else ([], s)
  | EmptyString => ([], s)
  end.

(** A match of [(\d+)([smhd])] that starts at the head of [s]: the two
    groups as (value, milliseconds per unit) and the text after the
    match.  Giving back digits cannot help the unit class to match, since
    the character after a shorter run is a digit. *)
Definition match_at (s : string) : option (Z * Z * string) :=
  match span_digits s with
  | ((_ :: _) as ds, String u rest) =>
      match unit_ms u with
      | Some ms => Some (parseInt ds, ms, rest)
      | None => None
      end
  | _ => None
  end.

(** [regex.exec]: the leftmost match at or after the current position;
    [s] is the text from [lastIndex] on, the result carries the text from
    the new [lastIndex] on. *)
Fixpoint regex_exec (s : string) : option (Z * Z * string) :=
  match match_at s with
  | Some m => Some m
  | None =>
      match s with
      | String _ s' => regex_exec s'
      | EmptyString => None
      end
  end.

(** [while ((match = regex.exec(timeStr)) !== null) totalMs += ...],
    in integers.  Every value, product and partial sum of the loop is
    non-negative and at most the total, so that the code computes the
    same total whenever this one does not exceed [MAX_SAFE_INTEGER]. *)
Fixpoint sum_matches (fuel : nat) (s : string) (totalMs : Z) : Z :=
  match fuel with
  | O => totalMs
  | S fuel' =>
      match regex_exec s with
      | Some (value, ms, rest) => sum_matches fuel' rest (totalMs + value * ms)
      | None => totalMs
      end
  end.

Inductive Exn : Type :=
  | Error (message : string)   (* [throw new Error(message)] *)
  | TypeError.                 (* a field access through a dangling reference *)

Inductive Outcome (A : Type) : Type :=
  | Ok (a : A)
  | Throw (e : Exn).
Arguments Ok {A} a.
Arguments Throw {A} e.

Definition parseDuration (d : Duration) : Outcome Z :=
  match d with
  | DNumber n => Ok n
  | DObject ms => Ok ms
  | DString s =>
      let timeStr := toLowerCase s in
      let totalMs := sum_matches (String.length timeStr) timeStr 0 in
      if totalMs =? 0
      then Throw (Error ("Invalid duration format: " ++ s)%string)
      else Ok totalMs
  end.

(** [Math.random().toString(36).substring(2, 15)]; the argument is the
    text [Math.random().toString(36)], for instance ["0.i"] for [0.5]. *)
Definition generateId (random36 : string) : string :=
  String.substring 2 13 random36.

(** ** The world *)

Definition loc : Type := nat.

(** The completion callbacks handed to the scheduler are all of the shape
    [() => this.completeTimer(id)]. *)
Inductive Callback : Type :=
  | CompleteTimer (id : string).

(** A call of [NodeScheduler.schedule] suspended in [await sleep(...)]. *)
Record Sleep : Type := mkSleep {
  sl_id : string;
  sl_due : Z;
  sl_signal : nat;
  sl_callback : Callback
}.

Record World : Type := mkWorld {
  heap : list Timer;                (* timer objects, by reference *)
  controllers : list bool;          (* AbortControllers: [signal.aborted] *)
  store_timers : JSMap.t loc;       (* [InMemoryTimerStore.timers] *)
  scheduledTimers : JSMap.t nat;    (* [NodeScheduler.scheduledTimers] *)
  sleeping : list Sleep;            (* sleeps neither resolved nor rejected *)
  microtasks : list string;         (* rejected sleeps: ids of their calls *)
  emitted : list TimerEvent;        (* calls of [EventBus.emit], oldest first *)
  mono : Z;                         (* [performance.now()] *)
  wall : Z                          (* [new Date()] *)
}.

Definition init : World := mkWorld [] [] [] [] [] [] [] 0 0.

Definition upd_heap (f : list Timer -> list Timer) (w : World) : World :=
  mkWorld (f (heap w)) (controllers w) (store_timers w) (scheduledTimers w)
          (sleeping w) (microtasks w) (emitted w) (mono w) (wall w).
Definition upd_controllers (f : list bool -> list bool) (w : World) : World :=
  mkWorld (heap w) (f (controllers w)) (store_timers w) (scheduledTimers w)
          (sleeping w) (microtasks w) (emitted w) (mono w) (wall w).
Definition upd_store_timers (f : JSMap.t loc -> JSMap.t loc) (w : World)
  : World :=
  mkWorld (heap w) (controllers w) (f (store_timers w)) (scheduledTimers w)
          (sleeping w) (microtasks w) (emitted w) (mono w) (wall w).
Definition upd_scheduledTimers (f : JSMap.t nat -> JSMap.t nat) (w : World)
  : World :=
  mkWorld (heap w) (controllers w) (store_timers w) (f (scheduledTimers w))
          (sleeping w) (microtasks w) (emitted w) (mono w) (wall w).
Definition upd_sleeping (f : list Sleep -> list Sleep) (w : World) : World :=
  mkWorld (heap w) (controllers w) (store_timers w) (scheduledTimers w)
          (f (sleeping w)) (microtasks w) (emitted w) (mono w) (wall w).
Definition upd_microtasks (f : list string -> list string) (w : World)
  : World :=
  mkWorld (heap w) (controllers w) (store_timers w) (scheduledTimers w)
          (sleeping w) (f (microtasks w)) (emitted w) (mono w) (wall w).
Definition upd_emitted (f : list TimerEvent -> list TimerEvent) (w : World)
  : World :=
  mkWorld (heap w) (controllers w) (store_timers w) (scheduledTimers w)
          (sleeping w) (microtasks w) (f (emitted w)) (mono w) (wall w).
Definition upd_clocks (fm fw : Z -> Z) (w : World) : World :=
  mkWorld (heap w) (controllers w) (store_timers w) (scheduledTimers w)
          (sleeping w) (microtasks w) (emitted w) (fm (mono w)) (fw (wall w)).

(** ** The monad of methods *)

Definition M (A : Type) : Type := World -> Outcome A * World.

Definition ret {A : Type} (a : A) : M A := fun w => (Ok a, w).

#[export] Instance M_ret : MRet M := @ret.

#[export] Instance M_bind : MBind M := fun A B f m w =>
  match m w with
  | (Ok a, w') => f a w'
  | (Throw e, w') => (Throw e, w')
  end.

Definition gets {A : Type} (f : World -> A) : M A := fun w => (Ok (f w), w).
Definition modify (f : World -> World) : M unit := fun w => (Ok tt, f w).
Definition lift {A : Type} (o : Outcome A) : M A := fun w => (o, w).

(** The world after a computation, and its outcome. *)
Definition exec {A : Type} (m : M A) (w : World) : World := snd (m w).
Definition eval {A : Type} (m : M A) (w : World) : Outcome A := fst (m w).

(** [try { m } catch (error) { console.error(...) }] *)
Definition try_catch (m : M unit) : M unit := fun w =>
  match m w with
  | (Ok _, w') => (Ok tt, w')
  | (Throw _, w') => (Ok tt, w')
  end.

(** *** Objects *)

(** An object literal: a new object. *)
Definition alloc (t : Timer) : M loc := fun w =>
  (Ok (length (heap w)), upd_heap (fun h => h ++ [t]) w).

(** Reading the fields of an object. *)
Definition load (l : loc) : M Timer := fun w =>
  match heap w !! l with
  | Some t => (Ok t, w)
  | None => (Throw TypeError, w)
  end.

(** A field assignment [timer.f = v], [f] being one of the setters. *)
Definition assign (l : loc) (f : Timer -> Timer) : M unit := fun w =>
  match heap w !! l with
  | Some t => (Ok tt, upd_heap (fun h => <[l := f t]> h) w)
  | None => (Throw TypeError, w)
  end.

Definition performance_now : M Z := gets mono.
Definition new_Date : M Z := gets wall.

(** ** [InMemoryTimerStore] ([src/infra/memory-store.ts]) *)

(** [{ ...timer }]: a new object with the fields of [timer]. *)
Definition copy (timer : loc) : M loc :=
  t ← load timer; alloc t.

Fixpoint copy_all (timers : list loc) : M (list loc) :=
  match timers with
  | [] => ret []
  | timer :: rest => c ← copy timer; cs ← copy_all rest; ret (c :: cs)
  end.

Module InMemoryTimerStore.

(** [get(id)]: [timer ? { ...timer } : null]. *)
Definition get (id : string) : M (option loc) :=
  timers ← gets store_timers;
  match JSMap.get id timers with
  | Some timer => c ← copy timer; ret (Some c)
  | None => ret None
  end.

(** [put(timer)]: [this.timers.set(timer.id, { ...timer })]. *)
Definition put (timer : loc) : M unit :=
  t ← load timer;
  c ← copy timer;
  modify (upd_store_timers (JSMap.set (id t) c)).

(** [delete(id)] *)
Definition delete (id : string) : M unit :=
  modify (upd_store_timers (JSMap.delete id)).

(** [close()]: [this.timers.clear()]. *)
Definition close : M unit :=
  modify (upd_store_timers (fun _ => JSMap.empty)).

(** [list()]:
    [Array.from(this.timers.values()).map(timer => ({ ...timer }))]. *)
Definition list : M (list loc) :=
  timers ← gets store_timers;
  copy_all (JSMap.values timers).

End InMemoryTimerStore.

(** ** [InMemoryEventBus] ([src/infra/event-bus.ts])

    [emit] defers the delivery to the handlers with [setImmediate]; the
    model records the emissions. *)

Module InMemoryEventBus.

Definition emit (event : TimerEvent) : M unit :=
  modify (upd_emitted (fun es => es ++ [event])).

End InMemoryEventBus.

(** *** The listeners of the bus

    [listeners = new Map<TimerEventType, Set<handler>>()].  The [Set]
    objects live in [sets] and are held by reference, as the callback
    that [emit] queues captures the [Set] and not its members.  A
    handler is known by its number; it is taken not to call the bus
    itself. *)

Definition type_eqb (a b : TimerEventType) : bool :=
  match a, b with
  | TIMER_CREATED, TIMER_CREATED | TIMER_COMPLETED, TIMER_COMPLETED
  | TIMER_PAUSED, TIMER_PAUSED | TIMER_RESUMED, TIMER_RESUMED
  | TIMER_CANCELED, TIMER_CANCELED => true
  | _, _ => false
  end.

Record Bus : Type := mkBus {
  sets : list (list nat);                     (* the [Set] objects *)
  listeners : list (TimerEventType * nat);    (* type, reference to its [Set] *)
  immediates : list (nat * TimerEvent);       (* queued by [setImmediate] *)
  delivered : list (nat * TimerEvent);        (* the calls [handler(event)] *)
  console_errors : list (nat * TimerEvent)    (* the handlers that threw *)
}.

Module EventBusListeners.

Definition new_bus : Bus := mkBus [] [] [] [] [].

(** [listeners.get(type)] *)
Fixpoint listeners_get (type : TimerEventType)
    (m : list (TimerEventType * nat)) : option nat :=
  match m with
  | [] => None
  | (type', r) :: m' =>
      if type_eqb type type' then Some r else listeners_get type m'
  end.

(** [Set.add] and [Set.delete]: a [Set] keeps the order of insertion. *)
Definition set_add (handler : nat) (hs : list nat) : list nat :=
  if existsb (Nat.eqb handler) hs then hs else hs ++ [handler].

Definition set_delete (handler : nat) (hs : list nat) : list nat :=
  filter (fun h => Nat.eqb h handler = false) hs.

Definition upd_set (r : nat) (f : list nat -> list nat) (b : Bus) : Bus :=
  match sets b !! r with
  | Some hs =>
      mkBus (<[r := f hs]> (sets b)) (listeners b) (immediates b)
            (delivered b) (console_errors b)
  | None => b          (* a reference of the map is never dangling *)
  end.

(** [subscribe(type, handler)] *)
Definition subscribe (type : TimerEventType) (handler : nat) (b : Bus) : Bus :=
  let b1 :=
    match listeners_get type (listeners b) with
    | Some _ => b
    | None =>
        mkBus (sets b ++ [[]]) (listeners b ++ [(type, length (sets b))])
              (immediates b) (delivered b) (console_errors b)
    end in
  match listeners_get type (listeners b1) with
  | Some r => upd_set r (set_add handler) b1
  | None => b1
  end.

(** [unsubscribe(type, handler)] *)
Definition unsubscribe (type : TimerEventType) (handler : nat) (b : Bus)
  : Bus :=
  match listeners_get type (listeners b) with
  | Some r => upd_set r (set_delete handler) b
  | None => b
  end.

(** [emit(event)]: with a [Set] for the type of the event, a callback is
    queued that holds the [Set] and the event. *)
Definition emit (event : TimerEvent) (b : Bus) : Bus :=
  match listeners_get (ev_type event) (listeners b) with
  | Some r =>
      mkBus (sets b) (listeners b) (immediates b ++ [(r, event)])
            (delivered b) (console_errors b)
  | None => b
  end.

Section Handlers.

(** Whether a handler throws on an event. *)
Variable throws : nat -> TimerEvent -> bool.

(** The oldest queued callback runs:
    [handlers.forEach(handler => { try { handler(event) } catch ... })]. *)
Definition run_immediate (b : Bus) : Bus :=
  match immediates b with
  | [] => b
  | (r, event) :: rest =>
      let handlers := default [] (sets b !! r) in
      mkBus (sets b) (listeners b) rest
            (delivered b ++ map (fun h => (h, event)) handlers)
            (console_errors b
               ++ map (fun h => (h, event))
                      (filter (fun h => throws h event = true) handlers))
  end.

(** What can happen to a bus. *)
Inductive BusAction : Type :=
  | Subscribe (type : TimerEventType) (handler : nat)
  | Unsubscribe (type : TimerEventType) (handler : nat)
  | Emit (event : TimerEvent)
  | Immediate.

Definition bus_step (a : BusAction) (b : Bus) : Bus :=
  match a with
  | Subscribe type handler => subscribe type handler b
  | Unsubscribe type handler => unsubscribe type handler b
  | Emit event => emit event b
  | Immediate => run_immediate b
  end.

Definition bus_run (actions : list BusAction) (b : Bus) : Bus :=
  fold_left (fun b a => bus_step a b) actions b.

Definition bus_reachable (b : Bus) : Prop :=
  exists actions : list BusAction, b = bus_run actions new_bus.

(** The handlers subscribed to a type. *)
Definition subscribers (type : TimerEventType) (b : Bus) : list nat :=
  match listeners_get type (listeners b) with
  | Some r => default [] (sets b !! r)
  | None => []
  end.

(** Every [Set] is free of duplicates, every reference of the map is
    live, and a queued callback holds the [Set] of its event's type. *)
Definition bus_ok (b : Bus) : Prop :=
  (forall r hs, sets b !! r = Some hs -> List.NoDup hs) /\
  (forall type r, listeners_get type (listeners b) = Some r ->
                  (r < length (sets b))%nat) /\
  (forall r event, In (r, event) (immediates b) ->
                   listeners_get (ev_type event) (listeners b) = Some r).

End Handlers.

End EventBusListeners.

(** ** [AbortController] *)

Definition new_AbortController : M nat := fun w =>
  (Ok (length (controllers w)), upd_controllers (fun cs => cs ++ [false]) w).

(** [controller.signal.aborted] *)
Definition signal_aborted (c : nat) : M bool := fun w =>
  match controllers w !! c with
  | Some b => (Ok b, w)
  | None => (Throw TypeError, w)
  end.

Definition waits_on (c : nat) (s : Sleep) : bool := Nat.eqb (sl_signal s) c.

(** [controller.abort()].  The first call sets the flag and dispatches the
    abort event: every sleep that waits on this signal is rejected with an
    AbortError, and the rest of its [schedule] call (the [catch] and the
    [finally]) is queued as a promise reaction. *)
Definition abort (c : nat) : M unit :=
  flag ← signal_aborted c;
  if (flag : bool) then ret tt
  else
    modify (upd_controllers (fun cs => <[c := true]> cs));;
    rejected ← gets (fun w =>
                  filter (fun s => waits_on c s = true) (sleeping w));
    modify (upd_sleeping (filter (fun s => waits_on c s = false)));;
    modify (upd_microtasks (fun q => q ++ map sl_id rejected)).

(** ** [NodeScheduler] ([src/infra/scheduler.ts]) *)

(** The delay of a Node timeout: a delay below 1 or above 2^31 - 1 is
    replaced by 1. *)
Definition timeout_delay (ms : Z) : Z :=
  if (ms <? 1) || (2147483647 <? ms) then 1 else ms.

(** [await sleep(dueInMs, undefined, { signal })]: the call is suspended
    until the timeout resolves or the signal rejects it. *)
Definition sleep (id : string) (dueInMs : Z) (signal : nat)
    (callback : Callback) : M unit :=
  now ← performance_now;
  modify (upd_sleeping (fun ss =>
    ss ++ [mkSleep id (now + timeout_delay dueInMs) signal callback])).

Fixpoint abort_all (cs : list nat) : M unit :=
  match cs with
  | [] => ret tt
  | controller :: rest => abort controller;; abort_all rest
  end.

Module NodeScheduler.

(** [cancel(id)] *)
Definition cancel (id : string) : M unit :=
  table ← gets scheduledTimers;
  match JSMap.get id table with
  | Some controller =>
      abort controller;;
      modify (upd_scheduledTimers (JSMap.delete id))
  | None => ret tt
  end.

(** [schedule(id, dueInMs, callback, signal)], up to its [await].  The
    parameter [signal] occurs nowhere in the body. *)
Definition schedule (id : string) (dueInMs : Z) (callback : Callback)
    (signal : nat) : M unit :=
  cancel id;;
  abortController ← new_AbortController;
  modify (upd_scheduledTimers (JSMap.set id abortController));;
  sleep id dueInMs abortController callback.

(** [shutdown()]: every controller of the table is aborted, then the
    table is cleared. *)
Definition shutdown : M unit :=
  table ← gets scheduledTimers;
  abort_all (JSMap.values table);;
  modify (upd_scheduledTimers (fun _ => JSMap.empty)).

End NodeScheduler.

(** ** [TimerService] ([src/core/timer-service.ts]) *)

Definition createTimer (random36 : string) (request : TimerCreateRequest)
  : M string :=
  let id := generateId random36 in
  durationMs ← lift (parseDuration (duration request));
  now ← performance_now;
  created ← new_Date;
  timer ← alloc (mkTimer id (req_name request) durationMs now false
                         durationMs created RUNNING);
  InMemoryTimerStore.put timer;;
  abortController ← new_AbortController;
  NodeScheduler.schedule id durationMs (CompleteTimer id) abortController;;
  ts ← new_Date;
  InMemoryEventBus.emit (mkEvent TIMER_CREATED id (req_name request) ts);;
  ret id.

Definition getTimer (id : string) : M (option loc) :=
  timer ← InMemoryTimerStore.get id;
  match timer with
  | None => ret None
  | Some timer =>
      t ← load timer;
      (if status_eqb (status t) RUNNING && negb (paused t) then
         now ← performance_now;
         let elapsed := now - startMonotonicMs t in
         assign timer (set_remainingMs (Z.max 0 (durationMs t - elapsed)))
       else ret tt);;
      ret (Some timer)
  end.

Definition pauseTimer (id : string) : M unit :=
  timer ← InMemoryTimerStore.get id;
  match timer with
  | None => ret tt
  | Some timer =>
      t ← load timer;
      if negb (status_eqb (status t) RUNNING) || paused t then ret tt
      else
        now ← performance_now;
        let elapsed := now - startMonotonicMs t in
        assign timer (set_remainingMs (Z.max 0 (durationMs t - elapsed)));;
        assign timer (set_paused true);;
        assign timer (set_status PAUSED);;
        InMemoryTimerStore.put timer;;
        NodeScheduler.cancel id;;
        ts ← new_Date;
        InMemoryEventBus.emit (mkEvent TIMER_PAUSED id (name t) ts)
  end.

Definition resumeTimer (id : string) : M unit :=
  timer ← InMemoryTimerStore.get id;
  match timer with
  | None => ret tt
  | Some timer =>
      t ← load timer;
      if negb (status_eqb (status t) PAUSED) then ret tt
      else
        now ← performance_now;
        assign timer (set_startMonotonicMs now);;
        assign timer (set_durationMs (remainingMs t));;
        assign timer (set_paused false);;
        assign timer (set_status RUNNING);;
        InMemoryTimerStore.put timer;;
        abortController ← new_AbortController;
        NodeScheduler.schedule id (remainingMs t) (CompleteTimer id)
                               abortController;;
        ts ← new_Date;
        InMemoryEventBus.emit (mkEvent TIMER_RESUMED id (name t) ts)
  end.

Definition cancelTimer (id : string) : M unit :=
  timer ← InMemoryTimerStore.get id;
  match timer with
  | None => ret tt
  | Some timer =>
      t ← load timer;
      if status_eqb (status t) COMPLETED || status_eqb (status t) CANCELED
      then ret tt
      else
        assign timer (set_status CANCELED);;
        InMemoryTimerStore.put timer;;
        NodeScheduler.cancel id;;
        ts ← new_Date;
        InMemoryEventBus.emit (mkEvent TIMER_CANCELED id (name t) ts)
  end.

Definition listTimers : M (list loc) := InMemoryTimerStore.list.

Definition completeTimer (id : string) : M unit :=
  timer ← InMemoryTimerStore.get id;
  match timer with
  | None => ret tt
  | Some timer =>
      t ← load timer;
      if status_eqb (status t) COMPLETED then ret tt
      else
        assign timer (set_status COMPLETED);;
        assign timer (set_remainingMs 0);;
        InMemoryTimerStore.put timer;;
        ts ← new_Date;
        InMemoryEventBus.emit (mkEvent TIMER_COMPLETED id (name t) ts)
  end.

(** ** The HTTP layer

    A handler is modelled on the requests whose body or parameters have
    the TypeScript types the handler declares for them; what it tells
    [res] is its result.  A status code that the handler does not set is
    200. *)

(** [Omit<Timer, 'startMonotonicMs'>]: the object that
    [const { startMonotonicMs, ...timerResponse } = timer] builds. *)
Record TimerResponse : Type := mkTimerResponse {
  tr_id : string;
  tr_name : option string;
  tr_durationMs : Z;
  tr_paused : bool;
  tr_remainingMs : Z;
  tr_createdAt : Z;
  tr_status : TimerStatus
}.

Definition omit_startMonotonicMs (t : Timer) : TimerResponse :=
  mkTimerResponse (id t) (name t) (durationMs t) (paused t) (remainingMs t)
                  (createdAt t) (status t).

(** The bodies that the handlers send. *)
Inductive Json : Type :=
  | JId (id : string)                          (* [{ id }] *)
  | JTimerResponse (timer : TimerResponse)
  | JTimerResponses (timers : list TimerResponse)
  | JTimer (timer : option Timer)              (* a timer object, or [null] *)
  | JTimers (timers : list Timer)
  | JMessage (message : string)                (* [{ message }] *)
  | JError (error : string)                    (* [{ error }] *)
  | JIssues (error : string)                   (* [{ error, details: error.issues }] *)
  | JEmpty.                                    (* [send()] *)

Record Response : Type := mkResponse {
  statusCode : nat;
  body : Json
}.

(** [try { m } catch (error) { handler }] *)
Definition try_ {A : Type} (m : M A) (handler : Exn -> M A) : M A := fun w =>
  match m w with
  | (Ok a, w') => (Ok a, w')
  | (Throw error, w') => handler error w'
  end.

Fixpoint load_all (timers : list loc) : M (list Timer) :=
  match timers with
  | [] => ret []
  | timer :: rest => t ← load timer; ts ← load_all rest; ret (t :: ts)
  end.

(** The length of a JavaScript string, in UTF-16 code units, from its
    UTF-8 text: a character of one, two or three bytes is one unit, a
    character of four bytes (outside the Basic Multilingual Plane) is a
    surrogate pair. *)
Definition utf16_units (byte : ascii) : nat :=
  let n := nat_of_ascii byte in
  if (n <? 128)%nat then 1%nat          (* an ASCII character *)
  else if (n <? 192)%nat then 0%nat     (* a continuation byte *)
  else if (n <? 240)%nat then 1%nat     (* first of two or three bytes *)
  else 2%nat.                           (* first of four bytes *)

Fixpoint utf16_length (s : string) : nat :=
  match s with
  | EmptyString => 0%nat
  | String byte s' => (utf16_units byte + utf16_length s')%nat
  end.

(** *** The schemas ([src/api/schemas.ts]), on values of the declared
    types: whether [parse] returns its argument ([true]) or throws a
    [ZodError] ([false]). *)
Module Schemas.

(** [z.union([z.string().min(1), z.number().positive(),
              z.object({ ms: z.number().positive() })])] *)
Definition DurationSchema (d : Duration) : bool :=
  match d with
  | DString s => (1 <=? String.length s)%nat
  | DNumber n => 0 <? n
  | DObject ms => 0 <? ms
  end.

(** [z.object({ name: z.string().max(64).optional(), duration: DurationSchema })];
    [max] counts the UTF-16 code units of the name. *)
Definition CreateTimerSchema (request : TimerCreateRequest) : bool :=
  match req_name request with
  | Some n => (utf16_length n <=? 64)%nat
  | None => true
  end && DurationSchema (duration request).

(** [z.object({ id: z.string().min(1) })] *)
Definition TimerParamsSchema (id : string) : bool :=
  (1 <=? String.length id)%nat.

End Schemas.

(** *** The router ([src/api/timer-routes.ts])

    A handler either sends a response or passes an error on with
    [next(error)].  A [ZodError] comes from [parse] only, the errors of
    the service are never one. *)
Inductive Handled : Type :=
  | Responded (response : Response)
  | Next (error : Exn).

Module TimerRouter.

(** [router.post('/', ...)] *)
Definition POST_timers (random36 : string) (body : TimerCreateRequest)
  : M Handled :=
  if Schemas.CreateTimerSchema body then
    try_ (id ← createTimer random36 body;
          ret (Responded (mkResponse 201 (JId id))))
         (fun error => ret (Next error))
  else ret (Responded (mkResponse 400 (JIssues "Validation error"))).

(** [router.get('/:id', ...)] *)
Definition GET_timer (id : string) : M Handled :=
  if Schemas.TimerParamsSchema id then
    try_ (timer ← getTimer id;
          match timer with
          | None => ret (Responded (mkResponse 404 (JError "Timer not found")))
          | Some timer =>
              t ← load timer;
              ret (Responded
                     (mkResponse 200 (JTimerResponse (omit_startMonotonicMs t))))
          end)
         (fun error => ret (Next error))
  else ret (Responded (mkResponse 400 (JIssues "Invalid timer ID"))).

(** [router.post('/:id/pause', ...)] *)
Definition POST_pause (id : string) : M Handled :=
  if Schemas.TimerParamsSchema id then
    try_ (pauseTimer id;;
          ret (Responded (mkResponse 200 (JMessage "Timer paused"))))
         (fun error => ret (Next error))
  else ret (Responded (mkResponse 400 (JIssues "Invalid timer ID"))).

(** [router.post('/:id/resume', ...)] *)
Definition POST_resume (id : string) : M Handled :=
  if Schemas.TimerParamsSchema id then
    try_ (resumeTimer id;;
          ret (Responded (mkResponse 200 (JMessage "Timer resumed"))))
         (fun error => ret (Next error))
  else ret (Responded (mkResponse 400 (JIssues "Invalid timer ID"))).

(** [router.delete('/:id', ...)] *)
Definition DELETE_timer (id : string) : M Handled :=
  if Schemas.TimerParamsSchema id then
    try_ (cancelTimer id;;
          ret (Responded (mkResponse 204 JEmpty)))
         (fun error => ret (Next error))
  else ret (Responded (mkResponse 400 (JIssues "Invalid timer ID"))).

(** [router.get('/', ...)] *)
Definition GET_timers : M Handled :=
  try_ (timers ← listTimers;
        ts ← load_all timers;
        ret (Responded
               (mkResponse 200 (JTimerResponses (map omit_startMonotonicMs ts)))))
       (fun error => ret (Next error)).

End TimerRouter.

(** *** The application ([src/index.ts]): the error-handling middleware
    answers an error that a handler has passed on. *)
Module Application.

Definition errorHandler (err : Exn) : Response :=
  mkResponse 500 (JError "Internal server error").

Definition respond (h : Handled) : Response :=
  match h with
  | Responded response => response
  | Next error => errorHandler error
  end.

End Application.

(** *** [TimerController]

    Its handlers catch every error themselves and log it with
    [console.error]; the second component of a result is what has been
    logged. *)
Definition is_Timer_not_found (error : Exn) : bool :=
  match error with
  | Error message => String.eqb message "Timer not found"
  | TypeError => false
  end.

Module TimerController.

Definition Logged : Type := option (string * Exn).

Definition createTimer (random36 : string) (request : TimerCreateRequest)
  : M (Response * Logged) :=
  try_ (timerId ← createTimer random36 request;
        timer ← getTimer timerId;
        match timer with
        | None => ret (mkResponse 200 (JTimer None), None)
        | Some timer =>
            t ← load timer; ret (mkResponse 200 (JTimer (Some t)), None)
        end)
       (fun error =>
          ret (mkResponse 500 (JError "Failed to create timer"),
               Some ("Error creating timer:", error))).

Definition getTimers : M (Response * Logged) :=
  try_ (timers ← listTimers;
        ts ← load_all timers;
        ret (mkResponse 200 (JTimers ts), None))
       (fun error =>
          ret (mkResponse 500 (JError "Failed to get timers"),
               Some ("Error getting timers:", error))).

Definition getTimer (id : string) : M (Response * Logged) :=
  try_ (timer ← getTimer id;
        match timer with
        | None => ret (mkResponse 404 (JError "Timer not found"), None)
        | Some timer =>
            t ← load timer; ret (mkResponse 200 (JTimer (Some t)), None)
        end)
       (fun error =>
          ret (mkResponse 500 (JError "Failed to get timer"),
               Some ("Error getting timer:", error))).

Definition pauseTimer (id : string) : M (Response * Logged) :=
  try_ (pauseTimer id;;
        ret (mkResponse 200 (JMessage "Timer paused"), None))
       (fun error =>
          ret (if is_Timer_not_found error
               then mkResponse 404 (JError "Timer not found")
               else mkResponse 500 (JError "Failed to pause timer"),
               Some ("Error pausing timer:", error))).

Definition resumeTimer (id : string) : M (Response * Logged) :=
  try_ (resumeTimer id;;
        ret (mkResponse 200 (JMessage "Timer resumed"), None))
       (fun error =>
          ret (if is_Timer_not_found error
               then mkResponse 404 (JError "Timer not found")
               else mkResponse 500 (JError "Failed to resume timer"),
               Some ("Error resuming timer:", error))).

Definition cancelTimer (id : string) : M (Response * Logged) :=
  try_ (cancelTimer id;;
        ret (mkResponse 200 (JMessage "Timer cancelled"), None))
       (fun error =>
          ret (if is_Timer_not_found error
               then mkResponse 404 (JError "Timer not found")
               else mkResponse 500 (JError "Failed to cancel timer"),
               Some ("Error cancelling timer:", error))).

End TimerController.

(** ** The event loop *)

Definition run_callback (cb : Callback) : M unit :=
  match cb with
  | CompleteTimer id => completeTimer id
  end.

(** The rest of a [schedule] call whose sleep has resolved:
    [if (!abortController.signal.aborted) await callback()], an error of
    the callback being logged, and [finally] the table entry of the id
    removed. *)
Definition wake (s : Sleep) : M unit :=
  try_catch (
    flag ← signal_aborted (sl_signal s);
    if (flag : bool) then ret tt else run_callback (sl_callback s));;
  modify (upd_scheduledTimers (JSMap.delete (sl_id s))).

(** The timeout of the sleep that waits on signal [c] expires: nothing
    happens unless that sleep is pending and due. *)
Definition fire (c : nat) : M unit :=
  ss ← gets sleeping;
  now ← performance_now;
  match filter (fun s => waits_on c s = true) ss with
  | s :: _ =>
      if sl_due s <=? now then
        modify (upd_sleeping (filter (fun s => waits_on c s = false)));;
        wake s
      else ret tt
  | [] => ret tt
  end.

(** The rest of a [schedule] call whose sleep was rejected: the AbortError
    is caught and ignored, and [finally] the table entry of the id is
    removed. *)
Fixpoint run_rejected (ids : list string) (table : JSMap.t nat) : JSMap.t nat :=
  match ids with
  | [] => table
  | id :: rest => run_rejected rest (JSMap.delete id table)
  end.

Definition drain_microtasks (w : World) : World :=
  upd_microtasks (fun _ => [])
    (upd_scheduledTimers (run_rejected (microtasks w)) w).

(** One macrotask: a method call, then the promise reactions it queued. *)
Definition run_task {A : Type} (m : M A) : M A := fun w =>
  let (r, w') := m w in (r, drain_microtasks w').

(** What can happen to a running service. *)
Inductive Action : Type :=
  | Create (random36 : string) (request : TimerCreateRequest)
  | Get (id : string)
  | Pause (id : string)
  | Resume (id : string)
  | Cancel (id : string)
  | ListAll
  | Fire (c : nat)
  | Advance (ms : N)
  | SetWall (date : Z)
  | Shutdown.

Definition step (a : Action) (w : World) : World :=
  match a with
  | Create random36 request => exec (run_task (createTimer random36 request)) w
  | Get id => exec (run_task (getTimer id)) w
  | Pause id => exec (run_task (pauseTimer id)) w
  | Resume id => exec (run_task (resumeTimer id)) w
  | Cancel id => exec (run_task (cancelTimer id)) w
  | ListAll => exec (run_task listTimers) w
  | Fire c => exec (run_task (fire c)) w
  | Advance ms => upd_clocks (fun t => t + Z.of_N ms) (fun d => d + Z.of_N ms) w
  | SetWall date => upd_clocks (fun t => t) (fun _ => date) w
  | Shutdown =>
      exec (run_task (NodeScheduler.shutdown;; InMemoryTimerStore.close)) w
  end.

Definition run (actions : list Action) (w : World) : World :=
  fold_left (fun w a => step a w) actions w.

Definition reachable (w : World) : Prop :=
  exists actions : list Action, w = run actions init.

(** ** Observations *)

(** The record stored under [id]. *)
Definition stored (w : World) (id : string) : option Timer :=
  match JSMap.get id (store_timers w) with
  | Some l => heap w !! l
  | None => None
  end.

(** The records of the store, oldest key first. *)
Definition stored_all (w : World) : list (option Timer) :=
  map (fun l => heap w !! l) (JSMap.values (store_timers w)).

(** What [get] recomputes for a running timer at monotonic time [now]. *)
Definition live_remainingMs (now : Z) (t : Timer) : Z :=
  Z.max 0 (durationMs t - (now - startMonotonicMs t)).

(** The fields of the object that [get] returns for the stored record
    [t] at monotonic time [now]. *)
Definition seen_at (now : Z) (t : Timer) : Timer :=
  if status_eqb (status t) RUNNING && negb (paused t)
  then set_remainingMs (live_remainingMs now t) t
  else t.

(** The record that [create] builds. *)
Definition new_timer (w : World) (k : string) (nm : option string) (d : Z)
  : Timer :=
  mkTimer k nm d (mono w) false d (wall w) RUNNING.

(** The records that the four transitions write, as functions of the
    record read from the store. *)
Definition paused_at (now : Z) (t : Timer) : Timer :=
  set_status PAUSED
    (set_paused true (set_remainingMs (live_remainingMs now t) t)).

Definition resumed_at (now : Z) (t : Timer) : Timer :=
  set_status RUNNING
    (set_paused false
       (set_durationMs (remainingMs t) (set_startMonotonicMs now t))).

Definition canceled (t : Timer) : Timer := set_status CANCELED t.

Definition completed (t : Timer) : Timer :=
  set_remainingMs 0 (set_status COMPLETED t).

(** The world [w] with one more object [x] at the end of its heap: the
    local timer of a method that has fetched it from the store. *)
Definition with_local (w : World) (x : Timer) : World :=
  upd_heap (fun h => h ++ [x]) w.

(** The world in which the object [x], held by a method as its local
    timer at the end of the heap, has just been handed to [store.put]. *)
Definition put_world (w : World) (x : Timer) : World :=
  upd_store_timers (JSMap.set (id x) (length (heap w ++ [x])))
    (upd_heap (fun h => (h ++ [x]) ++ [x]) w).

(** ** Invariants of the service between two method calls *)

(** A record under key [k] carries the id [k], and it is not flagged
    [paused] while its status is [RUNNING]. *)
Definition timer_ok (k : string) (t : Timer) : bool :=
  String.eqb (id t) k
  && implb (status_eqb (status t) RUNNING) (negb (paused t)).

(** Every value of the store is a live object holding such a record. *)
Definition store_ok (w : World) : bool :=
  forallb (fun e : string * loc =>
             match heap w !! snd e with
             | Some t => timer_ok (fst e) t
             | None => false
             end) (store_timers w).

(** Every controller of the scheduler table exists. *)
Definition table_ok (w : World) : bool :=
  forallb (fun e : string * nat => Nat.ltb (snd e) (length (controllers w)))
          (scheduledTimers w).

(** Every pending sleep waits on an existing signal that is not aborted. *)
Definition sleeping_ok (w : World) : bool :=
  forallb (fun s : Sleep =>
             match controllers w !! sl_signal s with
             | Some false => true
             | _ => false
             end) (sleeping w).

Definition sched_ok (w : World) : bool := table_ok w && sleeping_ok w.

Definition world_ok (w : World) : bool := store_ok w && sched_ok w.

(** Two worlds that differ in the scheduler's own state at most. *)
Definition sched_frame (w w' : World) : Prop :=
  heap w' = heap w /\ store_timers w' = store_timers w /\
  emitted w' = emitted w /\ mono w' = mono w /\ wall w' = wall w.

(** Two worlds that no observer of the service can tell apart: the same
    store with the same records, the same emitted events, the same
    scheduler state and clocks, and every object of [w] unchanged in
    [w'] (the heap of [w'] may hold further objects). *)
Definition unobservable (w w' : World) : Prop :=
  store_timers w' = store_timers w /\
  (forall (l : loc) (t : Timer),
      heap w !! l = Some t -> heap w' !! l = Some t) /\
  (forall k : string, stored w' k = stored w k) /\
  emitted w' = emitted w /\
  controllers w' = controllers w /\
  scheduledTimers w' = scheduledTimers w /\
  sleeping w' = sleeping w /\
  microtasks w' = microtasks w /\
  mono w' = mono w /\ wall w' = wall w.

(** The sum that the string branch of [parseDuration] computes. *)
Definition token_total (s : string) : Z :=
  sum_matches (String.length (toLowerCase s)) (toLowerCase s) 0.

(** The durations that [create] turns down: the strings whose matches
    add up to zero.  A number and a [{ ms }] object are never turned
    down. *)
Definition rejected (d : Duration) : bool :=
  match d with
  | DString s => token_total s =? 0
  | DNumber _ | DObject _ => false
  end.

(** A token of positive value, read off the input without the parser:
    a digit other than [0], then any digits, then one of the unit
    letters [s], [m], [h], [d] in either case.  [nonzero] tells whether
    the run of digits that ends at the head of [s] holds a digit other
    than [0]. *)
Definition is_unit (c : ascii) : bool :=
  Ascii.eqb c "s" || Ascii.eqb c "m" || Ascii.eqb c "h" || Ascii.eqb c "d" ||
  Ascii.eqb c "S" || Ascii.eqb c "M" || Ascii.eqb c "H" || Ascii.eqb c "D".

Fixpoint scan_positive (nonzero : bool) (s : string) : bool :=
  match s with
  | EmptyString => false
  | String c s' =>
      if is_digit c then scan_positive (nonzero || negb (Ascii.eqb c "0")) s'
      else if nonzero && is_unit c then true
      else scan_positive false s'
  end.

(** Whether [s] holds such a token. *)
Definition positive_token (s : string) : bool := scan_positive false s.

Fixpoint has_digit (s : string) : bool :=
  match s with
  | EmptyString => false
  | String c s' => is_digit c || has_digit s'
  end.

(** Whether the last character of [s] is a digit. *)
Fixpoint ends_in_digit (s : string) : bool :=
  match s with
  | EmptyString => false
  | String c s' =>
      match s' with
      | EmptyString => is_digit c
      | String _ _ => ends_in_digit s'
      end
  end.

(** The three guarded methods, and whether the guard of one lets it act
    on what the store holds under the id. *)
Inductive GuardedMethod : Type := PAUSE | RESUME | CANCEL.

Definition method (g : GuardedMethod) : string -> M unit :=
  match g with
  | PAUSE => pauseTimer
  | RESUME => resumeTimer
  | CANCEL => cancelTimer
  end.

Definition applies (g : GuardedMethod) (record : option Timer) : bool :=
  match record with
  | None => false
  | Some t =>
      match g with
      | PAUSE => status_eqb (status t) RUNNING
      | RESUME => status_eqb (status t) PAUSED
      | CANCEL =>
          negb (status_eqb (status t) COMPLETED
                || status_eqb (status t) CANCELED)
      end
  end.

Definition terminal (t : Timer) : bool :=
  status_eqb (status t) COMPLETED || status_eqb (status t) CANCELED.

(** One pause and resume of timer [k]: the pause after [fst c]
    milliseconds, the resume [snd c] milliseconds later. *)
Definition cycle (k : string) (c : N * N) : list Action :=
  [Advance (fst c); Pause k; Advance (snd c); Resume k].

(** The wake-ups that wait on signal [c] are suppressed: the controller
    is aborted and no pending sleep waits on it. *)
Definition suppressed (c : nat) (w : World) : Prop :=
  controllers w !! c = Some true /\
  forall s, In s (sleeping w) -> sl_signal s <> c.

(** ** The lifecycle at the level of records *)

(** The record a guarded method writes, and the event it emits. *)
Definition record_after (g : GuardedMethod) (now : Z) (t : Timer) : Timer :=
  match g with
  | PAUSE => paused_at now t
  | RESUME => resumed_at now t
  | CANCEL => canceled t
  end.

Definition event_of (g : GuardedMethod) : TimerEventType :=
  match g with
  | PAUSE => TIMER_PAUSED
  | RESUME => TIMER_RESUMED
  | CANCEL => TIMER_CANCELED
  end.

(** The ways in which the record under an id changes: [before] is what
    the store held under the id, [after] the record written. *)
Inductive transition (now date : Z) (k : string)
  : option Timer -> Timer -> Prop :=
  | T_create (before : option Timer) (nm : option string) (d : Z) :
      transition now date k before (mkTimer k nm d now false d date RUNNING)
  | T_pause (t : Timer) :
      status t = RUNNING -> transition now date k (Some t) (paused_at now t)
  | T_resume (t : Timer) :
      status t = PAUSED -> transition now date k (Some t) (resumed_at now t)
  | T_cancel (t : Timer) :
      status t <> COMPLETED -> status t <> CANCELED ->
      transition now date k (Some t) (canceled t)
  | T_complete (t : Timer) :
      status t <> COMPLETED -> transition now date k (Some t) (completed t).

(** What holds of every record the service stores under key [k]. *)
Definition record_inv (k : string) (t : Timer) : Prop :=
  id t = k /\
  status t <> CREATED /\
  (status t = RUNNING -> paused t = false /\ remainingMs t = durationMs t) /\
  (status t = PAUSED -> paused t = true /\ 0 <= remainingMs t) /\
  (status t = COMPLETED -> remainingMs t = 0).

(** The status that an event reports. *)
Definition status_of_event (e : TimerEventType) : TimerStatus :=
  match e with
  | TIMER_CREATED | TIMER_RESUMED => RUNNING
  | TIMER_PAUSED => PAUSED
  | TIMER_COMPLETED => COMPLETED
  | TIMER_CANCELED => CANCELED
  end.

(** ** Invariants of the scheduler between two method calls *)

(** Pending sleeps wait on distinct signals and carry the completion
    callback of their own id; the table has one entry per id at most, and
    behind every entry there is a pending sleep of that id that waits on
    the controller of the entry. *)
Definition registrations_ok (w : World) : Prop :=
  List.NoDup (map sl_signal (sleeping w)) /\
  (forall s, In s (sleeping w) -> sl_callback s = CompleteTimer (sl_id s)) /\
  List.NoDup (JSMap.keys (scheduledTimers w)) /\
  (forall k c, In (k, c) (scheduledTimers w) ->
               exists s, In s (sleeping w) /\ sl_signal s = c /\ sl_id s = k).

(** ** Scenarios *)

Definition tea : TimerCreateRequest := mkRequest (Some "tea") (DNumber 10000).

(** A timer of ten seconds, four seconds into its run. *)
Definition w_running : World := run [Create "0.abc" tea; Advance 4000] init.

(** The same timer, canceled. *)
Definition w_canceled : World := run [Cancel "abc"] w_running.

(** The same timer, paused after four seconds. *)
Definition w_paused : World := run [Pause "abc"] w_running.

(** The same timer, completed at its due time. *)
Definition w_completed : World := run [Advance 6000; Fire 1%nat] w_running.

(** A name of 33 characters of two bytes each (U+00E9), and one of 33
    characters of four bytes each (U+1F95A). *)
Definition name_33_accents : string :=
  String.concat ""
    (repeat (String (ascii_of_nat 195) (String (ascii_of_nat 169) "")) 33).

Definition name_33_eggs : string :=
  String.concat ""
    (repeat (String (ascii_of_nat 240) (String (ascii_of_nat 159)
               (String (ascii_of_nat 165) (String (ascii_of_nat 154) ""))))
            33).

(** Two calls of [create] that draw the same random number, the timer
    canceled afterwards, and the timeout of the second call expiring. *)
Definition w_collided : World :=
  run [Create "0.i" (mkRequest None (DNumber 10));
       Create "0.i" (mkRequest None (DNumber 20));
       Cancel "i"; Advance 20] init.

(** * Properties *)

(** ** Facts about [JSMap] *)

Module JSMapFacts.
Section Facts.
Context {V : Type}.
Implicit Types (k : string) (v : V) (m : JSMap.t V).

Lemma get_set k k' v m :
  JSMap.get k' (JSMap.set k v m)
  = if String.eqb k' k then Some v else JSMap.get k' m.
Proof.
  induction m as [|[k0 v0] m IH]; simpl.
  - destruct (String.eqb_spec k' k); reflexivity.
  - destruct (String.eqb_spec k k0) as [->|Hne]; simpl.
    + destruct (String.eqb_spec k' k0); reflexivity.
    + rewrite IH. destruct (String.eqb_spec k' k0) as [->|Hne'].
      * destruct (String.eqb_spec k0 k); [congruence | reflexivity].
      * reflexivity.
Qed.

Lemma get_set_eq k v m : JSMap.get k (JSMap.set k v m) = Some v.
Proof. rewrite get_set, String.eqb_refl. reflexivity. Qed.

Lemma get_set_ne k k' v m :
  k' <> k -> JSMap.get k' (JSMap.set k v m) = JSMap.get k' m.
Proof.
  intros Hne. rewrite get_set.
  destruct (String.eqb_spec k' k); [contradiction | reflexivity].
Qed.

Lemma get_In k v m : JSMap.get k m = Some v -> In (k, v) m.
Proof.
  induction m as [|[k0 v0] m IH]; simpl; [discriminate|].
  destruct (String.eqb_spec k k0) as [->|Hk].
  - intros [= ->]. left. reflexivity.
  - intros H. right. apply IH, H.
Qed.

Lemma In_set k v m (e : string * V) :
  In e (JSMap.set k v m) -> e = (k, v) \/ In e m.
Proof.
  induction m as [|[k0 v0] m IH]; simpl.
  - intros [<-|[]]. left. reflexivity.
  - destruct (String.eqb k k0); simpl; intros [<-|Hin]; auto.
    destruct (IH Hin); auto.
Qed.

Lemma In_delete k m (e : string * V) : In e (JSMap.delete k m) -> In e m.
Proof.
  induction m as [|[k0 v0] m IH]; simpl; [tauto|].
  destruct (String.eqb k k0); simpl; [auto|].
  intros [<-|Hin]; auto.
Qed.

Lemma get_delete_eq_None k m :
  JSMap.get k m = None -> JSMap.delete k m = m.
Proof.
  induction m as [|[k0 v0] m IH]; simpl; [reflexivity|].
  destruct (String.eqb k k0); [discriminate|].
  intros H. rewrite IH by exact H. reflexivity.
Qed.

Lemma In_values k v m : JSMap.get k m = Some v -> In v (JSMap.values m).
Proof.
  intros H. apply get_In in H. unfold JSMap.values.
  change v with (snd (k, v)). apply in_map, H.
Qed.

Lemma set_fresh k v m :
  JSMap.get k m = None -> JSMap.set k v m = m ++ [(k, v)].
Proof.
  induction m as [|[k0 v0] m IH]; simpl; [reflexivity|].
  destruct (String.eqb k k0); [discriminate|].
  intros H. rewrite IH by exact H. reflexivity.
Qed.

End Facts.
End JSMapFacts.

(** ** Lists used as heaps *)

Lemma lookup_snoc {A : Type} (l : list A) (x : A) :
  (l ++ [x]) !! length l = Some x.
Proof. apply list_lookup_middle. reflexivity. Qed.

Lemma insert_snoc {A : Type} (l : list A) (x y : A) :
  <[length l := y]> (l ++ [x]) = l ++ [y].
Proof.
  rewrite insert_app_r_alt by lia. rewrite Nat.sub_diag. reflexivity.
Qed.

Lemma lookup_grown {A : Type} (l xs : list A) (i : nat) (x : A) :
  l !! i = Some x -> (l ++ xs) !! i = Some x.
Proof. intros H. apply lookup_app_l_Some, H. Qed.

Lemma lookup_Some_lt {A : Type} (l : list A) (i : nat) (x : A) :
  l !! i = Some x -> (i < length l)%nat.
Proof. intros H. eapply lookup_lt_Some, H. Qed.

(** ** Running computations *)

Lemma run_eq {A : Type} (m : M A) (w : World) (a : A) :
  eval m w = Ok a -> m w = (Ok a, exec m w).
Proof.
  unfold eval, exec. destruct (m w) as [o w']. simpl. intros ->. reflexivity.
Qed.

Lemma bind_eq {A B : Type} (m : M A) (f : A -> M B) (w : World) :
  (m ≫= f) w
  = match m w with
    | (Ok a, w') => f a w'
    | (Throw e, w') => (Throw e, w')
    end.
Proof. reflexivity. Qed.

#[local] Arguments NodeScheduler.cancel : simpl never.
#[local] Arguments NodeScheduler.schedule : simpl never.
#[local] Arguments abort : simpl never.

(** Symbolic execution of straight-line code on a world given by its
    fields. *)
Ltac mstep :=
  unfold mbind, M_bind, ret, gets, modify, lift, performance_now, new_Date,
    alloc, load, assign, InMemoryEventBus.emit, new_AbortController,
    signal_aborted,
    upd_heap, upd_controllers, upd_store_timers, upd_scheduledTimers,
    upd_sleeping, upd_microtasks, upd_emitted, upd_clocks, exec, eval;
  cbn -[Z.add Z.sub Z.max Z.mul Z.leb Z.ltb Z.eqb Nat.ltb Nat.eqb
        timeout_delay filter];
  rewrite ?lookup_snoc, ?insert_snoc.

Ltac msimpl := repeat (progress mstep).

(** ** The scheduler leaves the store, the bus and the clocks alone *)

Lemma sched_frame_refl (w : World) : sched_frame w w.
Proof. repeat split. Qed.

Lemma sched_frame_trans (w1 w2 w3 : World) :
  sched_frame w1 w2 -> sched_frame w2 w3 -> sched_frame w1 w3.
Proof.
  unfold sched_frame. intros (?&?&?&?&?) (?&?&?&?&?).
  repeat split; congruence.
Qed.

Lemma abort_eq (w : World) (c : nat) (b : bool) :
  controllers w !! c = Some b ->
  abort c w
  = (Ok tt,
     if b then w
     else upd_microtasks
            (fun q =>
               q ++ map sl_id
                        (filter (fun s => waits_on c s = true) (sleeping w)))
            (upd_sleeping (filter (fun s => waits_on c s = false))
               (upd_controllers (fun cs => <[c := true]> cs) w))).
Proof.
  intros Hc. destruct w as [h cs st tb sl mt em mo wa]. cbn in Hc.
  unfold abort. msimpl. rewrite Hc. destruct b; reflexivity.
Qed.

Lemma abort_None (w : World) (c : nat) :
  controllers w !! c = None -> abort c w = (Throw TypeError, w).
Proof.
  intros Hc. destruct w as [h cs st tb sl mt em mo wa]. cbn in Hc.
  unfold abort. msimpl. rewrite Hc. reflexivity.
Qed.

Lemma abort_frame (w : World) (c : nat) : sched_frame w (exec (abort c) w).
Proof.
  unfold exec. destruct (controllers w !! c) as [b|] eqn:Hc.
  - rewrite (abort_eq w c b Hc). destruct b; repeat split.
  - rewrite (abort_None w c Hc). repeat split.
Qed.

Lemma scheduler_cancel_eq (w : World) (k : string) :
  NodeScheduler.cancel k w
  = match JSMap.get k (scheduledTimers w) with
    | Some c =>
        match abort c w with
        | (Ok _, w') => (Ok tt, upd_scheduledTimers (JSMap.delete k) w')
        | (Throw e, w') => (Throw e, w')
        end
    | None => (Ok tt, w)
    end.
Proof.
  unfold NodeScheduler.cancel. rewrite bind_eq. unfold gets.
  destruct (JSMap.get k (scheduledTimers w)) as [c|]; [|reflexivity].
  rewrite bind_eq. destruct (abort c w) as [[[]|e] w']; reflexivity.
Qed.

Lemma scheduler_cancel_frame (w : World) (k : string) :
  sched_frame w (exec (NodeScheduler.cancel k) w).
Proof.
  unfold exec. rewrite scheduler_cancel_eq.
  destruct (JSMap.get k (scheduledTimers w)) as [c|]; [|apply sched_frame_refl].
  pose proof (abort_frame w c) as Hf. unfold exec in Hf.
  destruct (abort c w) as [[[]|e] w']; simpl in *; [|exact Hf].
  destruct Hf as (?&?&?&?&?). repeat split; assumption.
Qed.

Lemma schedule_eq (w : World) (k : string) (due : Z) (cb : Callback)
    (signal : nat) :
  NodeScheduler.schedule k due cb signal w
  = match NodeScheduler.cancel k w with
    | (Ok _, w') =>
        (Ok tt,
         upd_sleeping
           (fun ss => ss ++ [mkSleep k (mono w' + timeout_delay due)
                                     (length (controllers w')) cb])
           (upd_scheduledTimers (JSMap.set k (length (controllers w')))
              (upd_controllers (fun cs => cs ++ [false]) w')))
    | (Throw e, w') => (Throw e, w')
    end.
Proof.
  unfold NodeScheduler.schedule. rewrite bind_eq.
  destruct (NodeScheduler.cancel k w) as [[[]|e] w']; [|reflexivity].
  destruct w' as [h cs st tb sl mt em mo wa]. unfold sleep. msimpl.
  reflexivity.
Qed.

Lemma schedule_frame (w : World) (k : string) (due : Z) (cb : Callback)
    (signal : nat) :
  sched_frame w (exec (NodeScheduler.schedule k due cb signal) w).
Proof.
  unfold exec. rewrite schedule_eq.
  pose proof (scheduler_cancel_frame w k) as Hf. unfold exec in Hf.
  destruct (NodeScheduler.cancel k w) as [[[]|e] w']; simpl in *; [|exact Hf].
  destruct Hf as (?&?&?&?&?). repeat split; assumption.
Qed.

(** ** The scheduler keeps its invariant and does not fail *)

Lemma table_ok_In (w : World) :
  table_ok w = true <->
  forall k c, In (k, c) (scheduledTimers w) -> (c < length (controllers w))%nat.
Proof.
  unfold table_ok. rewrite forallb_forall. split.
  - intros H k c Hin. apply Nat.ltb_lt. exact (H (k, c) Hin).
  - intros H [k c] Hin. apply Nat.ltb_lt. exact (H k c Hin).
Qed.

Lemma sleeping_ok_In (w : World) :
  sleeping_ok w = true <->
  forall s, In s (sleeping w) -> controllers w !! sl_signal s = Some false.
Proof.
  unfold sleeping_ok. rewrite forallb_forall. split.
  - intros H s Hin. specialize (H s Hin).
    destruct (controllers w !! sl_signal s) as [[]|]; congruence.
  - intros H s Hin. rewrite (H s Hin). reflexivity.
Qed.

Lemma sched_ok_split (w : World) :
  sched_ok w = true <-> table_ok w = true /\ sleeping_ok w = true.
Proof. unfold sched_ok. apply andb_true_iff. Qed.

Lemma In_filter_bool {A : Type} (f : A -> bool) (b : bool) (l : list A)
    (x : A) :
  In x (filter (fun y => f y = b) l) <-> In x l /\ f x = b.
Proof.
  rewrite <- !list_elem_of_In. rewrite list_elem_of_filter. tauto.
Qed.

Lemma abort_sched_ok (w : World) (c : nat) :
  sched_ok w = true -> sched_ok (exec (abort c) w) = true.
Proof.
  intros Hok. unfold exec.
  destruct (controllers w !! c) as [b|] eqn:Hc;
    [rewrite (abort_eq w c b Hc) | rewrite (abort_None w c Hc); exact Hok].
  destruct b; [exact Hok|]. simpl.
  apply sched_ok_split in Hok as [Ht Hs]. apply sched_ok_split. split.
  - apply table_ok_In. intros k c' Hin. simpl in *.
    rewrite length_insert. rewrite table_ok_In in Ht. exact (Ht k c' Hin).
  - apply sleeping_ok_In. intros s Hin. simpl in *.
    apply In_filter_bool in Hin as [Hin Hw].
    rewrite sleeping_ok_In in Hs. specialize (Hs s Hin).
    unfold waits_on in Hw. apply Nat.eqb_neq in Hw.
    rewrite list_lookup_insert_ne by congruence. exact Hs.
Qed.

Lemma abort_eval (w : World) (c : nat) :
  (c < length (controllers w))%nat -> eval (abort c) w = Ok tt.
Proof.
  intros Hlt. unfold eval.
  destruct (lookup_lt_is_Some_2 (controllers w) c Hlt) as [b Hb].
  rewrite (abort_eq w c b Hb). reflexivity.
Qed.

Lemma scheduler_cancel_ok (w : World) (k : string) :
  table_ok w = true ->
  NodeScheduler.cancel k w = (Ok tt, exec (NodeScheduler.cancel k) w).
Proof.
  intros Ht. apply run_eq. unfold eval. rewrite scheduler_cancel_eq.
  destruct (JSMap.get k (scheduledTimers w)) as [c|] eqn:Hk; [|reflexivity].
  rewrite table_ok_In in Ht. apply JSMapFacts.get_In in Hk.
  rewrite (run_eq _ _ _ (abort_eval w c (Ht k c Hk))). reflexivity.
Qed.

Lemma upd_table_delete_sched_ok (w : World) (k : string) :
  sched_ok w = true ->
  sched_ok (upd_scheduledTimers (JSMap.delete k) w) = true.
Proof.
  intros Hok. apply sched_ok_split in Hok as [Ht Hs]. apply sched_ok_split.
  split; [|exact Hs].
  apply table_ok_In. intros k' c Hin. simpl in *.
  rewrite table_ok_In in Ht. apply (Ht k').
  eapply JSMapFacts.In_delete, Hin.
Qed.

Lemma scheduler_cancel_sched_ok (w : World) (k : string) :
  sched_ok w = true -> sched_ok (exec (NodeScheduler.cancel k) w) = true.
Proof.
  intros Hok. unfold exec. rewrite scheduler_cancel_eq.
  destruct (JSMap.get k (scheduledTimers w)) as [c|]; [|exact Hok].
  pose proof (abort_sched_ok w c Hok) as Ha. unfold exec in Ha.
  destruct (abort c w) as [[[]|e] w']; simpl in *; [|exact Ha].
  apply upd_table_delete_sched_ok, Ha.
Qed.

Lemma schedule_ok (w : World) (k : string) (due : Z) (cb : Callback)
    (signal : nat) :
  table_ok w = true ->
  NodeScheduler.schedule k due cb signal w
  = (Ok tt, exec (NodeScheduler.schedule k due cb signal) w).
Proof.
  intros Ht. apply run_eq. unfold eval. rewrite schedule_eq.
  rewrite (scheduler_cancel_ok w k Ht). reflexivity.
Qed.

Lemma lookup_snoc_old {A : Type} (l : list A) (x : A) (i : nat) (y : A) :
  l !! i = Some y -> (l ++ [x]) !! i = Some y.
Proof. apply lookup_grown. Qed.

Lemma register_sched_ok (w : World) (k : string) (due : Z) (cb : Callback) :
  sched_ok w = true ->
  sched_ok
    (upd_sleeping
       (fun ss => ss ++ [mkSleep k due (length (controllers w)) cb])
       (upd_scheduledTimers (JSMap.set k (length (controllers w)))
          (upd_controllers (fun cs => cs ++ [false]) w))) = true.
Proof.
  intros Hok. apply sched_ok_split in Hok as [Ht Hs]. apply sched_ok_split.
  rewrite table_ok_In in Ht. rewrite sleeping_ok_In in Hs. split.
  - apply table_ok_In. intros k' c Hin. simpl in *.
    rewrite length_app. simpl.
    apply JSMapFacts.In_set in Hin as [[= -> ->]|Hin]; [lia|].
    specialize (Ht k' c Hin). lia.
  - apply sleeping_ok_In. intros s Hin. simpl in *.
    apply in_app_iff in Hin as [Hin|[<-|[]]].
    + apply lookup_snoc_old, Hs, Hin.
    + simpl. apply lookup_snoc.
Qed.

Lemma schedule_sched_ok (w : World) (k : string) (due : Z) (cb : Callback)
    (signal : nat) :
  sched_ok w = true ->
  sched_ok (exec (NodeScheduler.schedule k due cb signal) w) = true.
Proof.
  intros Hok. unfold exec. rewrite schedule_eq.
  pose proof (scheduler_cancel_sched_ok w k Hok) as Hc. unfold exec in Hc.
  destruct (NodeScheduler.cancel k w) as [[[]|e] w']; simpl in *; [|exact Hc].
  apply register_sched_ok, Hc.
Qed.

Lemma new_AbortController_sched_ok (w : World) :
  sched_ok w = true ->
  sched_ok (upd_controllers (fun cs => cs ++ [false]) w) = true.
Proof.
  intros Hok. apply sched_ok_split in Hok as [Ht Hs]. apply sched_ok_split.
  rewrite table_ok_In in Ht. rewrite sleeping_ok_In in Hs. split.
  - apply table_ok_In. intros k c Hin. simpl in *. rewrite length_app. simpl.
    specialize (Ht k c Hin). lia.
  - apply sleeping_ok_In. intros s Hin. simpl in *.
    apply lookup_snoc_old, Hs, Hin.
Qed.

(** ** The store *)

Lemma store_ok_In (w : World) :
  store_ok w = true <->
  forall k l, In (k, l) (store_timers w) ->
              exists t, heap w !! l = Some t /\ timer_ok k t = true.
Proof.
  unfold store_ok. rewrite forallb_forall. split.
  - intros H k l Hin. specialize (H (k, l) Hin). simpl in H.
    destruct (heap w !! l) as [t|]; [eauto | discriminate].
  - intros H [k l] Hin. destruct (H k l Hin) as (t & Hl & Ht). simpl.
    rewrite Hl. exact Ht.
Qed.

Lemma timer_ok_id (k : string) (t : Timer) : timer_ok k t = true -> id t = k.
Proof.
  unfold timer_ok. intros H. apply andb_true_iff in H as [H _].
  apply String.eqb_eq, H.
Qed.

Lemma timer_ok_running (k : string) (t : Timer) :
  timer_ok k t = true -> status t = RUNNING -> paused t = false.
Proof.
  unfold timer_ok. intros H Hs. apply andb_true_iff in H as [_ H].
  rewrite Hs in H. simpl in H.
  destruct (paused t); [discriminate | reflexivity].
Qed.

Lemma stored_Some (w : World) (k : string) (t : Timer) :
  stored w k = Some t <->
  exists l, JSMap.get k (store_timers w) = Some l /\ heap w !! l = Some t.
Proof.
  unfold stored. split.
  - destruct (JSMap.get k (store_timers w)) as [l|]; [eauto | discriminate].
  - intros (l & -> & H). exact H.
Qed.

Lemma stored_None (w : World) (k : string) :
  store_ok w = true -> stored w k = None ->
  JSMap.get k (store_timers w) = None.
Proof.
  unfold stored. intros Hok.
  destruct (JSMap.get k (store_timers w)) as [l|] eqn:Hk; [|reflexivity].
  rewrite store_ok_In in Hok.
  destruct (Hok k l (JSMapFacts.get_In _ _ _ Hk)) as (t & Hl & _).
  rewrite Hl. discriminate.
Qed.

Lemma stored_timer_ok (w : World) (k : string) (t : Timer) :
  store_ok w = true -> stored w k = Some t -> timer_ok k t = true.
Proof.
  intros Hok H. apply stored_Some in H as (l & Hk & Hl).
  rewrite store_ok_In in Hok.
  destruct (Hok k l (JSMapFacts.get_In _ _ _ Hk)) as (t' & Hl' & Ht).
  congruence.
Qed.

(** Growing the heap changes no stored record. *)
Lemma stored_heap_grown (w w' : World) (xs : list Timer) :
  store_ok w = true ->
  store_timers w' = store_timers w -> heap w' = heap w ++ xs ->
  forall k, stored w' k = stored w k.
Proof.
  intros Hok Hst Hh k. unfold stored. rewrite Hst, Hh.
  destruct (JSMap.get k (store_timers w)) as [l|] eqn:Hk; [|reflexivity].
  rewrite store_ok_In in Hok.
  destruct (Hok k l (JSMapFacts.get_In _ _ _ Hk)) as (t & Hl & _).
  rewrite Hl. apply lookup_grown, Hl.
Qed.

Lemma store_ok_heap_grown (w w' : World) (xs : list Timer) :
  store_ok w = true ->
  store_timers w' = store_timers w -> heap w' = heap w ++ xs ->
  store_ok w' = true.
Proof.
  intros Hok Hst Hh. rewrite store_ok_In in *. intros k l Hin.
  rewrite Hst in Hin. destruct (Hok k l Hin) as (t & Hl & Ht).
  exists t. split; [|exact Ht]. rewrite Hh. apply lookup_grown, Hl.
Qed.

(** After a [put] of the local object [x]: the record under [id x] is
    [x], and the other records are as before. *)
Lemma stored_put (w w' : World) (x : Timer) :
  store_ok w = true ->
  store_timers w' = store_timers (put_world w x) ->
  heap w' = heap (put_world w x) ->
  forall k, stored w' k = if String.eqb k (id x) then Some x else stored w k.
Proof.
  intros Hok Hst Hh k. unfold stored. rewrite Hst, Hh. simpl.
  rewrite JSMapFacts.get_set.
  destruct (String.eqb k (id x)); [apply lookup_snoc|].
  destruct (JSMap.get k (store_timers w)) as [l|] eqn:Hk; [|reflexivity].
  rewrite store_ok_In in Hok.
  destruct (Hok k l (JSMapFacts.get_In _ _ _ Hk)) as (t & Hl & _).
  rewrite Hl. rewrite <- app_assoc. apply lookup_grown, Hl.
Qed.

Lemma store_ok_put (w w' : World) (x : Timer) :
  store_ok w = true -> timer_ok (id x) x = true ->
  store_timers w' = store_timers (put_world w x) ->
  heap w' = heap (put_world w x) ->
  store_ok w' = true.
Proof.
  intros Hok Hx Hst Hh. rewrite store_ok_In in *. intros k l Hin.
  rewrite Hst in Hin. simpl in Hin. rewrite Hh. simpl.
  apply JSMapFacts.In_set in Hin as [[= -> ->]|Hin].
  - exists x. split; [apply lookup_snoc | exact Hx].
  - destruct (Hok k l Hin) as (t & Hl & Ht). exists t. split; [|exact Ht].
    rewrite <- app_assoc. apply lookup_grown, Hl.
Qed.

Lemma store_get_Some (w : World) (k : string) (l : loc) (t : Timer) :
  JSMap.get k (store_timers w) = Some l -> heap w !! l = Some t ->
  InMemoryTimerStore.get k w
  = (Ok (Some (length (heap w))), upd_heap (fun h => h ++ [t]) w).
Proof.
  intros Hk Hl. destruct w as [h cs st tb sl mt em mo wa]. cbn in *.
  unfold InMemoryTimerStore.get, copy. msimpl. rewrite Hk. msimpl. rewrite Hl.
  reflexivity.
Qed.

Lemma store_get_None (w : World) (k : string) :
  JSMap.get k (store_timers w) = None ->
  InMemoryTimerStore.get k w = (Ok None, w).
Proof.
  intros Hk. destruct w as [h cs st tb sl mt em mo wa]. cbn in *.
  unfold InMemoryTimerStore.get. msimpl. rewrite Hk. reflexivity.
Qed.

(** ** Methods working on their local object *)

Lemma store_get_local (w : World) (k : string) (l : loc) (t : Timer) :
  JSMap.get k (store_timers w) = Some l -> heap w !! l = Some t ->
  InMemoryTimerStore.get k w = (Ok (Some (length (heap w))), with_local w t).
Proof. apply store_get_Some. Qed.

Lemma load_local (w : World) (x : Timer) :
  load (length (heap w)) (with_local w x) = (Ok x, with_local w x).
Proof.
  destruct w as [h cs st tb sl mt em mo wa]. unfold with_local. msimpl.
  reflexivity.
Qed.

Lemma assign_local (w : World) (x : Timer) (f : Timer -> Timer) :
  assign (length (heap w)) f (with_local w x) = (Ok tt, with_local w (f x)).
Proof.
  destruct w as [h cs st tb sl mt em mo wa]. unfold with_local. msimpl.
  reflexivity.
Qed.

Lemma store_put_local (w : World) (x : Timer) :
  InMemoryTimerStore.put (length (heap w)) (with_local w x)
  = (Ok tt, put_world w x).
Proof.
  destruct w as [h cs st tb sl mt em mo wa].
  unfold with_local, InMemoryTimerStore.put, copy, put_world. msimpl.
  reflexivity.
Qed.

Lemma alloc_local (w : World) (x : Timer) :
  alloc x w = (Ok (length (heap w)), with_local w x).
Proof. reflexivity. Qed.

Lemma performance_now_eq (w : World) : performance_now w = (Ok (mono w), w).
Proof. reflexivity. Qed.

Lemma new_Date_eq (w : World) : new_Date w = (Ok (wall w), w).
Proof. reflexivity. Qed.

Lemma eventBus_emit_eq (w : World) (e : TimerEvent) :
  InMemoryEventBus.emit e w = (Ok tt, upd_emitted (fun es => es ++ [e]) w).
Proof. reflexivity. Qed.

Lemma ret_eq {A : Type} (a : A) (w : World) : ret a w = (Ok a, w).
Proof. reflexivity. Qed.

Lemma frame_wall (w w' : World) : sched_frame w w' -> wall w' = wall w.
Proof. intros (_&_&_&_&H). exact H. Qed.

(** One statement of a method body. *)
Ltac mnext :=
  rewrite bind_eq;
  first [ rewrite load_local | rewrite assign_local | rewrite store_put_local
        | rewrite performance_now_eq | rewrite new_Date_eq
        | rewrite alloc_local | rewrite eventBus_emit_eq ];
  cbn [mono wall with_local put_world upd_heap upd_store_timers].

(** [pause] *)

Lemma pauseTimer_missing (w : World) (k : string) :
  JSMap.get k (store_timers w) = None -> pauseTimer k w = (Ok tt, w).
Proof.
  intros Hk. unfold pauseTimer. rewrite bind_eq, (store_get_None w k Hk).
  reflexivity.
Qed.

Lemma pauseTimer_skip (w : World) (k : string) (l : loc) (t : Timer) :
  JSMap.get k (store_timers w) = Some l -> heap w !! l = Some t ->
  status t <> RUNNING \/ paused t = true ->
  pauseTimer k w = (Ok tt, with_local w t).
Proof.
  intros Hk Hl Hg. unfold pauseTimer.
  rewrite bind_eq, (store_get_local w k l t Hk Hl). mnext.
  destruct Hg as [Hs| ->].
  - destruct (status_eqb_spec (status t) RUNNING); [contradiction|reflexivity].
  - rewrite orb_true_r. reflexivity.
Qed.

Lemma pauseTimer_run (w : World) (k : string) (l : loc) (t : Timer) :
  JSMap.get k (store_timers w) = Some l -> heap w !! l = Some t ->
  status t = RUNNING -> paused t = false -> table_ok w = true ->
  pauseTimer k w
  = (Ok tt,
     upd_emitted (fun es => es ++ [mkEvent TIMER_PAUSED k (name t) (wall w)])
       (exec (NodeScheduler.cancel k) (put_world w (paused_at (mono w) t)))).
Proof.
  intros Hk Hl Hs Hp Ht. unfold pauseTimer.
  rewrite bind_eq, (store_get_local w k l t Hk Hl). mnext.
  rewrite Hs, Hp. cbn [status_eqb negb orb].
  do 5 mnext.
  rewrite bind_eq.
  match goal with
  | |- context [NodeScheduler.cancel k ?W] =>
      rewrite (scheduler_cancel_ok W k Ht)
  end.
  mnext. rewrite eventBus_emit_eq.
  rewrite (frame_wall _ _ (scheduler_cancel_frame _ k)). reflexivity.
Qed.

Lemma new_AbortController_eq (w : World) :
  new_AbortController w
  = (Ok (length (controllers w)), upd_controllers (fun cs => cs ++ [false]) w).
Proof. reflexivity. Qed.

Ltac mcancel k Ht :=
  rewrite bind_eq;
  match goal with
  | |- context [NodeScheduler.cancel k ?W] =>
      rewrite (scheduler_cancel_ok W k Ht)
  end.

Lemma table_ok_new_controller (w : World) :
  table_ok w = true ->
  table_ok (upd_controllers (fun cs => cs ++ [false]) w) = true.
Proof.
  rewrite !table_ok_In. intros Ht k c Hin. simpl in *. rewrite length_app.
  specialize (Ht k c Hin). simpl. lia.
Qed.

Ltac mschedule Ht :=
  rewrite bind_eq, new_AbortController_eq; rewrite bind_eq;
  match goal with
  | |- context [NodeScheduler.schedule ?k ?d ?cb ?sg ?W] =>
      rewrite (schedule_ok W k d cb sg (table_ok_new_controller _ Ht))
  end.

(** [resume] *)

Lemma resumeTimer_missing (w : World) (k : string) :
  JSMap.get k (store_timers w) = None -> resumeTimer k w = (Ok tt, w).
Proof.
  intros Hk. unfold resumeTimer. rewrite bind_eq, (store_get_None w k Hk).
  reflexivity.
Qed.

Lemma resumeTimer_skip (w : World) (k : string) (l : loc) (t : Timer) :
  JSMap.get k (store_timers w) = Some l -> heap w !! l = Some t ->
  status t <> PAUSED ->
  resumeTimer k w = (Ok tt, with_local w t).
Proof.
  intros Hk Hl Hs. unfold resumeTimer.
  rewrite bind_eq, (store_get_local w k l t Hk Hl). mnext.
  destruct (status_eqb_spec (status t) PAUSED); [contradiction|reflexivity].
Qed.

Lemma resumeTimer_run (w : World) (k : string) (l : loc) (t : Timer) :
  JSMap.get k (store_timers w) = Some l -> heap w !! l = Some t ->
  status t = PAUSED -> table_ok w = true ->
  resumeTimer k w
  = (Ok tt,
     upd_emitted (fun es => es ++ [mkEvent TIMER_RESUMED k (name t) (wall w)])
       (exec (NodeScheduler.schedule k (remainingMs t) (CompleteTimer k)
                       (length (controllers w)))
          (upd_controllers (fun cs => cs ++ [false])
             (put_world w (resumed_at (mono w) t))))).
Proof.
  intros Hk Hl Hs Ht. unfold resumeTimer.
  rewrite bind_eq, (store_get_local w k l t Hk Hl). mnext.
  rewrite Hs. cbn [status_eqb negb].
  do 6 mnext. mschedule Ht. mnext. rewrite eventBus_emit_eq.
  rewrite (frame_wall _ _ (schedule_frame _ _ _ _ _)). reflexivity.
Qed.

(** [cancel] *)

Lemma cancelTimer_missing (w : World) (k : string) :
  JSMap.get k (store_timers w) = None -> cancelTimer k w = (Ok tt, w).
Proof.
  intros Hk. unfold cancelTimer. rewrite bind_eq, (store_get_None w k Hk).
  reflexivity.
Qed.

Lemma cancelTimer_skip (w : World) (k : string) (l : loc) (t : Timer) :
  JSMap.get k (store_timers w) = Some l -> heap w !! l = Some t ->
  status t = COMPLETED \/ status t = CANCELED ->
  cancelTimer k w = (Ok tt, with_local w t).
Proof.
  intros Hk Hl Hs. unfold cancelTimer.
  rewrite bind_eq, (store_get_local w k l t Hk Hl). mnext.
  destruct Hs as [-> | ->]; reflexivity.
Qed.

Lemma cancelTimer_run (w : World) (k : string) (l : loc) (t : Timer) :
  JSMap.get k (store_timers w) = Some l -> heap w !! l = Some t ->
  status t <> COMPLETED -> status t <> CANCELED -> table_ok w = true ->
  cancelTimer k w
  = (Ok tt,
     upd_emitted (fun es => es ++ [mkEvent TIMER_CANCELED k (name t) (wall w)])
       (exec (NodeScheduler.cancel k) (put_world w (canceled t)))).
Proof.
  intros Hk Hl Hs1 Hs2 Ht. unfold cancelTimer.
  rewrite bind_eq, (store_get_local w k l t Hk Hl). mnext.
  destruct (status_eqb_spec (status t) COMPLETED); [contradiction|].
  destruct (status_eqb_spec (status t) CANCELED); [contradiction|].
  cbn [orb]. do 2 mnext. mcancel k Ht. mnext. rewrite eventBus_emit_eq.
  rewrite (frame_wall _ _ (scheduler_cancel_frame _ k)). reflexivity.
Qed.

(** [completeTimer] *)

Lemma completeTimer_missing (w : World) (k : string) :
  JSMap.get k (store_timers w) = None -> completeTimer k w = (Ok tt, w).
Proof.
  intros Hk. unfold completeTimer. rewrite bind_eq, (store_get_None w k Hk).
  reflexivity.
Qed.

Lemma completeTimer_skip (w : World) (k : string) (l : loc) (t : Timer) :
  JSMap.get k (store_timers w) = Some l -> heap w !! l = Some t ->
  status t = COMPLETED ->
  completeTimer k w = (Ok tt, with_local w t).
Proof.
  intros Hk Hl Hs. unfold completeTimer.
  rewrite bind_eq, (store_get_local w k l t Hk Hl). mnext.
  rewrite Hs. reflexivity.
Qed.

Lemma completeTimer_run (w : World) (k : string) (l : loc) (t : Timer) :
  JSMap.get k (store_timers w) = Some l -> heap w !! l = Some t ->
  status t <> COMPLETED ->
  completeTimer k w
  = (Ok tt,
     upd_emitted (fun es => es ++ [mkEvent TIMER_COMPLETED k (name t) (wall w)])
       (put_world w (completed t))).
Proof.
  intros Hk Hl Hs. unfold completeTimer.
  rewrite bind_eq, (store_get_local w k l t Hk Hl). mnext.
  destruct (status_eqb_spec (status t) COMPLETED); [contradiction|].
  do 4 mnext. rewrite eventBus_emit_eq. reflexivity.
Qed.

(** [get] *)

Lemma getTimer_missing (w : World) (k : string) :
  JSMap.get k (store_timers w) = None -> getTimer k w = (Ok None, w).
Proof.
  intros Hk. unfold getTimer. rewrite bind_eq, (store_get_None w k Hk).
  reflexivity.
Qed.

Lemma getTimer_running (w : World) (k : string) (l : loc) (t : Timer) :
  JSMap.get k (store_timers w) = Some l -> heap w !! l = Some t ->
  status t = RUNNING -> paused t = false ->
  getTimer k w
  = (Ok (Some (length (heap w))),
     with_local w (set_remainingMs (live_remainingMs (mono w) t) t)).
Proof.
  intros Hk Hl Hs Hp. unfold getTimer.
  rewrite bind_eq, (store_get_local w k l t Hk Hl). mnext.
  rewrite Hs, Hp. cbn [status_eqb negb andb].
  rewrite bind_eq. mnext. rewrite assign_local. reflexivity.
Qed.

Lemma getTimer_other (w : World) (k : string) (l : loc) (t : Timer) :
  JSMap.get k (store_timers w) = Some l -> heap w !! l = Some t ->
  status t <> RUNNING \/ paused t = true ->
  getTimer k w = (Ok (Some (length (heap w))), with_local w t).
Proof.
  intros Hk Hl Hg. unfold getTimer.
  rewrite bind_eq, (store_get_local w k l t Hk Hl). mnext.
  assert (status_eqb (status t) RUNNING && negb (paused t) = false) as ->.
  { destruct Hg as [Hs| ->]; [|apply andb_false_r].
    destruct (status_eqb_spec (status t) RUNNING);
      [contradiction|reflexivity]. }
  reflexivity.
Qed.

(** [create] *)

Lemma createTimer_throw (w : World) (rnd : string) (req : TimerCreateRequest)
    (e : Exn) :
  parseDuration (duration req) = Throw e ->
  createTimer rnd req w = (Throw e, w).
Proof.
  intros Hp. unfold createTimer. rewrite bind_eq. unfold lift. rewrite Hp.
  reflexivity.
Qed.

Lemma createTimer_run (w : World) (rnd : string) (req : TimerCreateRequest)
    (d : Z) :
  parseDuration (duration req) = Ok d -> table_ok w = true ->
  createTimer rnd req w
  = (Ok (generateId rnd),
     upd_emitted
       (fun es => es ++ [mkEvent TIMER_CREATED (generateId rnd) (req_name req)
                                 (wall w)])
       (exec (NodeScheduler.schedule (generateId rnd) d
                (CompleteTimer (generateId rnd)) (length (controllers w)))
          (upd_controllers (fun cs => cs ++ [false])
             (put_world w (new_timer w (generateId rnd) (req_name req) d))))).
Proof.
  intros Hp Ht. unfold createTimer. rewrite bind_eq. unfold lift. rewrite Hp.
  do 4 mnext. mschedule Ht. mnext. rewrite bind_eq, eventBus_emit_eq.
  rewrite (frame_wall _ _ (schedule_frame _ _ _ _ _)). reflexivity.
Qed.

(** [list] *)

Lemma copy_all_eq (ls : list loc) :
  forall (w : World) (ts : list Timer),
    Forall2 (fun l t => heap w !! l = Some t) ls ts ->
    copy_all ls w
    = (Ok (seq (length (heap w)) (length ls)),
       upd_heap (fun h => h ++ ts) w).
Proof.
  induction ls as [|l ls IH]; intros w ts HF.
  - apply Forall2_nil_inv_l in HF as ->. destruct w. unfold upd_heap. simpl.
    rewrite app_nil_r. reflexivity.
  - apply Forall2_cons_inv_l in HF as (t & ts' & Hl & HF & ->).
    cbn [copy_all]. rewrite bind_eq. unfold copy at 1. rewrite bind_eq.
    unfold load at 1. rewrite Hl. rewrite alloc_local. rewrite bind_eq.
    rewrite (IH (with_local w t) ts').
    + rewrite ret_eq. destruct w as [h cs st tb sl mt em mo wa].
      unfold with_local, upd_heap. cbn [heap length seq].
      rewrite length_app. cbn [length]. rewrite Nat.add_1_r.
      rewrite <- app_assoc. reflexivity.
    + eapply Forall2_impl; [exact HF|]. intros l' t' H. simpl.
      apply lookup_grown, H.
Qed.

(** ** The invariant is kept by every method *)

Lemma world_ok_split (w : World) :
  world_ok w = true <-> store_ok w = true /\ sched_ok w = true.
Proof. unfold world_ok. apply andb_true_iff. Qed.

Lemma world_ok_table (w : World) : world_ok w = true -> table_ok w = true.
Proof.
  intros H. apply world_ok_split in H as [_ H].
  apply sched_ok_split in H as [H _]. exact H.
Qed.

Lemma world_ok_store (w : World) : world_ok w = true -> store_ok w = true.
Proof. intros H. apply world_ok_split in H as [H _]. exact H. Qed.

Lemma world_ok_local (w : World) (t : Timer) :
  world_ok w = true -> world_ok (with_local w t) = true.
Proof.
  intros H. apply world_ok_split in H as [Hs Hc]. apply world_ok_split.
  split; [|exact Hc].
  apply (store_ok_heap_grown w _ [t] Hs); reflexivity.
Qed.

Lemma world_ok_after_put (w W : World) (x : Timer)
    (f : list TimerEvent -> list TimerEvent) :
  world_ok w = true -> timer_ok (id x) x = true ->
  sched_frame (put_world w x) W -> sched_ok W = true ->
  world_ok (upd_emitted f W) = true.
Proof.
  intros H Hx (Hh & Hst & _) Hc. apply world_ok_split. split; [|exact Hc].
  apply (store_ok_put w _ x (world_ok_store w H) Hx); simpl; assumption.
Qed.

Lemma sched_frame_new_controller (w : World) :
  sched_frame w (upd_controllers (fun cs => cs ++ [false]) w).
Proof. repeat split. Qed.

Lemma timer_ok_paused_at (now : Z) (t : Timer) :
  timer_ok (id (paused_at now t)) (paused_at now t) = true.
Proof. unfold timer_ok. simpl. rewrite String.eqb_refl. reflexivity. Qed.

Lemma timer_ok_resumed_at (now : Z) (t : Timer) :
  timer_ok (id (resumed_at now t)) (resumed_at now t) = true.
Proof. unfold timer_ok. simpl. rewrite String.eqb_refl. reflexivity. Qed.

Lemma timer_ok_canceled (t : Timer) :
  timer_ok (id (canceled t)) (canceled t) = true.
Proof. unfold timer_ok. simpl. rewrite String.eqb_refl. reflexivity. Qed.

Lemma timer_ok_completed (t : Timer) :
  timer_ok (id (completed t)) (completed t) = true.
Proof. unfold timer_ok. simpl. rewrite String.eqb_refl. reflexivity. Qed.

Lemma timer_ok_new_timer (w : World) (k : string) (nm : option string) (d : Z) :
  timer_ok (id (new_timer w k nm d)) (new_timer w k nm d) = true.
Proof. unfold timer_ok. simpl. rewrite String.eqb_refl. reflexivity. Qed.

(** The three ways a guarded method can go, under the invariant. *)
Lemma stored_cases (w : World) (k : string) :
  store_ok w = true ->
  (stored w k = None /\ JSMap.get k (store_timers w) = None) \/
  (exists l t, stored w k = Some t /\ JSMap.get k (store_timers w) = Some l /\
               heap w !! l = Some t /\ id t = k /\
               (status t = RUNNING -> paused t = false)).
Proof.
  intros Hok. destruct (stored w k) as [t|] eqn:Hst.
  - right. pose proof (stored_timer_ok w k t Hok Hst) as Ht.
    apply stored_Some in Hst as (l & Hk & Hl). exists l, t.
    split; [reflexivity|]. split; [exact Hk|]. split; [exact Hl|].
    split; [exact (timer_ok_id k t Ht) | exact (timer_ok_running k t Ht)].
  - left. split; [reflexivity | apply stored_None; assumption].
Qed.

Lemma status_dec (a b : TimerStatus) : a = b \/ a <> b.
Proof. destruct (status_eqb_spec a b); auto. Qed.

Lemma create_frame (w : World) (x : Timer) (k : string) (d : Z)
    (cb : Callback) (sg : nat) :
  sched_frame (put_world w x)
    (exec (NodeScheduler.schedule k d cb sg)
       (upd_controllers (fun cs => cs ++ [false]) (put_world w x))).
Proof.
  eapply sched_frame_trans;
    [apply sched_frame_new_controller | apply schedule_frame].
Qed.

Create HintDb eggtimer.

#[local] Hint Resolve timer_ok_paused_at timer_ok_resumed_at timer_ok_canceled
  timer_ok_completed timer_ok_new_timer : eggtimer.
#[local] Hint Resolve sched_frame_refl scheduler_cancel_frame create_frame
  : eggtimer.
#[local] Hint Resolve world_ok_local scheduler_cancel_sched_ok
  schedule_sched_ok : eggtimer.

Section MethodsKeepInvariant.

Variable w : World.
Hypothesis Hw : world_ok w = true.

Let Hstore : store_ok w = true := world_ok_store w Hw.
Let Htable : table_ok w = true := world_ok_table w Hw.

Lemma world_ok_sched : sched_ok w = true.
Proof. destruct (proj1 (world_ok_split w) Hw) as [_ H]. exact H. Qed.

Lemma new_controller_after_put (x : Timer) :
  sched_ok (upd_controllers (fun cs => cs ++ [false]) (put_world w x)) = true.
Proof.
  apply (new_AbortController_sched_ok (put_world w x)), world_ok_sched.
Qed.

#[local] Hint Resolve world_ok_sched new_controller_after_put : eggtimer.

Lemma pauseTimer_world_ok (k : string) :
  world_ok (exec (pauseTimer k) w) = true.
Proof.
  unfold exec.
  destruct (stored_cases w k Hstore)
    as [[_ Hk]|(l & t & _ & Hk & Hl & Hid & Hrun)].
  - rewrite (pauseTimer_missing w k Hk). exact Hw.
  - destruct (status_dec (status t) RUNNING) as [Hs|Hs].
    + rewrite (pauseTimer_run w k l t Hk Hl Hs (Hrun Hs) Htable).
      cbn [snd].
      apply (world_ok_after_put w _ (paused_at (mono w) t));
        auto with eggtimer.
    + rewrite (pauseTimer_skip w k l t Hk Hl (or_introl Hs)).
      cbn [snd]. auto with eggtimer.
Qed.

Lemma resumeTimer_world_ok (k : string) :
  world_ok (exec (resumeTimer k) w) = true.
Proof.
  unfold exec.
  destruct (stored_cases w k Hstore)
    as [[_ Hk]|(l & t & _ & Hk & Hl & Hid & Hrun)].
  - rewrite (resumeTimer_missing w k Hk). exact Hw.
  - destruct (status_dec (status t) PAUSED) as [Hs|Hs].
    + rewrite (resumeTimer_run w k l t Hk Hl Hs Htable).
      cbn [snd].
      apply (world_ok_after_put w _ (resumed_at (mono w) t));
        auto with eggtimer.
    + rewrite (resumeTimer_skip w k l t Hk Hl Hs).
      cbn [snd]. auto with eggtimer.
Qed.

Lemma cancelTimer_world_ok (k : string) :
  world_ok (exec (cancelTimer k) w) = true.
Proof.
  unfold exec.
  destruct (stored_cases w k Hstore)
    as [[_ Hk]|(l & t & _ & Hk & Hl & Hid & Hrun)].
  - rewrite (cancelTimer_missing w k Hk). exact Hw.
  - destruct (status_dec (status t) COMPLETED) as [Hs|Hs];
      [|destruct (status_dec (status t) CANCELED) as [Hs'|Hs']].
    + rewrite (cancelTimer_skip w k l t Hk Hl (or_introl Hs)).
      cbn [snd]. auto with eggtimer.
    + rewrite (cancelTimer_skip w k l t Hk Hl (or_intror Hs')).
      cbn [snd]. auto with eggtimer.
    + rewrite (cancelTimer_run w k l t Hk Hl Hs Hs' Htable).
      cbn [snd].
      apply (world_ok_after_put w _ (canceled t)); auto with eggtimer.
Qed.

Lemma completeTimer_world_ok (k : string) :
  world_ok (exec (completeTimer k) w) = true.
Proof.
  unfold exec.
  destruct (stored_cases w k Hstore)
    as [[_ Hk]|(l & t & _ & Hk & Hl & Hid & Hrun)].
  - rewrite (completeTimer_missing w k Hk). exact Hw.
  - destruct (status_dec (status t) COMPLETED) as [Hs|Hs].
    + rewrite (completeTimer_skip w k l t Hk Hl Hs).
      cbn [snd]. auto with eggtimer.
    + rewrite (completeTimer_run w k l t Hk Hl Hs).
      cbn [snd].
      apply (world_ok_after_put w _ (completed t)); auto with eggtimer.
Qed.

Lemma getTimer_world_ok (k : string) :
  world_ok (exec (getTimer k) w) = true.
Proof.
  unfold exec.
  destruct (stored_cases w k Hstore)
    as [[_ Hk]|(l & t & _ & Hk & Hl & Hid & Hrun)].
  - rewrite (getTimer_missing w k Hk). exact Hw.
  - destruct (status_dec (status t) RUNNING) as [Hs|Hs].
    + rewrite (getTimer_running w k l t Hk Hl Hs (Hrun Hs)).
      cbn [snd]. auto with eggtimer.
    + rewrite (getTimer_other w k l t Hk Hl (or_introl Hs)).
      cbn [snd]. auto with eggtimer.
Qed.

Lemma createTimer_world_ok (rnd : string) (req : TimerCreateRequest) :
  world_ok (exec (createTimer rnd req) w) = true.
Proof.
  unfold exec. destruct (parseDuration (duration req)) as [d|e] eqn:Hp.
  - rewrite (createTimer_run w rnd req d Hp Htable).
    cbn [snd].
    apply (world_ok_after_put w _
             (new_timer w (generateId rnd) (req_name req) d));
      auto with eggtimer.
  - rewrite (createTimer_throw w rnd req e Hp). exact Hw.
Qed.

End MethodsKeepInvariant.

(** The objects behind the values of the store. *)
Lemma store_values_live (w : World) :
  store_ok w = true ->
  exists ts, Forall2 (fun l t => heap w !! l = Some t)
                     (JSMap.values (store_timers w)) ts /\
             stored_all w = map Some ts.
Proof.
  intros Hok. rewrite store_ok_In in Hok. unfold stored_all.
  induction (store_timers w) as [|[k l] m IH]; simpl.
  - exists []. split; constructor.
  - destruct (Hok k l (or_introl eq_refl)) as (t & Hl & _).
    destruct IH as (ts & HF & Hall).
    { intros k' l' Hin. apply (Hok k' l'). right. exact Hin. }
    exists (t :: ts). split; [constructor; assumption|].
    simpl. rewrite Hl, Hall. reflexivity.
Qed.

Lemma listTimers_eq (w : World) (ts : list Timer) :
  Forall2 (fun l t => heap w !! l = Some t)
          (JSMap.values (store_timers w)) ts ->
  listTimers w
  = (Ok (seq (length (heap w)) (length (store_timers w))),
     upd_heap (fun h => h ++ ts) w).
Proof.
  intros HF. unfold listTimers, InMemoryTimerStore.list. rewrite bind_eq.
  unfold gets.
  rewrite (copy_all_eq _ w ts HF). unfold JSMap.values.
  rewrite length_map. reflexivity.
Qed.

Lemma listTimers_world_ok (w : World) :
  world_ok w = true -> world_ok (exec listTimers w) = true.
Proof.
  intros H. unfold exec.
  destruct (store_values_live w (world_ok_store w H)) as (ts & HF & _).
  rewrite (listTimers_eq w ts HF). simpl.
  apply world_ok_split in H as [Hs Hc]. apply world_ok_split.
  split; [|exact Hc].
  apply (store_ok_heap_grown w _ ts Hs); reflexivity.
Qed.

(** ** The event loop keeps the invariant *)

Lemma run_rejected_In (ids : list string) :
  forall (table : JSMap.t nat) (e : string * nat),
    In e (run_rejected ids table) -> In e table.
Proof.
  induction ids as [|k ids IH]; intros table e Hin; simpl in Hin.
  - exact Hin.
  - eapply JSMapFacts.In_delete, IH, Hin.
Qed.

Lemma drain_world_ok (w : World) :
  world_ok w = true -> world_ok (drain_microtasks w) = true.
Proof.
  intros H. apply world_ok_split in H as [Hs Hc]. apply world_ok_split.
  split; [exact Hs|].
  apply sched_ok_split in Hc as [Ht Hsl]. apply sched_ok_split.
  split; [|exact Hsl].
  rewrite table_ok_In in *. intros k c Hin. simpl in Hin.
  apply (Ht k), (run_rejected_In _ _ _ Hin).
Qed.

Lemma run_task_exec {A : Type} (m : M A) (w : World) :
  exec (run_task m) w = drain_microtasks (exec m w).
Proof. unfold exec, run_task. destruct (m w). reflexivity. Qed.

Lemma run_task_eval {A : Type} (m : M A) (w : World) :
  eval (run_task m) w = eval m w.
Proof. unfold eval, run_task. destruct (m w). reflexivity. Qed.

Lemma try_catch_eq (m : M unit) (w : World) :
  try_catch m w = (Ok tt, exec m w).
Proof. unfold try_catch, exec. destruct (m w) as [[[]|e] w']; reflexivity. Qed.

(** A wake-up whose signal is not aborted runs its callback. *)
Lemma wake_eq (w : World) (s : Sleep) :
  controllers w !! sl_signal s = Some false ->
  wake s w
  = (Ok tt,
     upd_scheduledTimers (JSMap.delete (sl_id s))
       (exec (run_callback (sl_callback s)) w)).
Proof.
  intros Hc. unfold wake. rewrite bind_eq, try_catch_eq.
  unfold exec at 1. rewrite bind_eq. unfold signal_aborted. rewrite Hc.
  reflexivity.
Qed.

(** A wake-up whose signal is aborted does nothing but release its slot. *)
Lemma wake_aborted (w : World) (s : Sleep) :
  controllers w !! sl_signal s = Some true ->
  wake s w = (Ok tt, upd_scheduledTimers (JSMap.delete (sl_id s)) w).
Proof.
  intros Hc. unfold wake. rewrite bind_eq, try_catch_eq.
  unfold exec at 1. rewrite bind_eq. unfold signal_aborted. rewrite Hc.
  reflexivity.
Qed.

Lemma sched_ok_drop_sleeps (w : World) (c : nat) :
  sched_ok w = true ->
  sched_ok (upd_sleeping (filter (fun s => waits_on c s = false)) w) = true.
Proof.
  intros H. apply sched_ok_split in H as [Ht Hs]. apply sched_ok_split.
  split; [exact Ht|].
  rewrite sleeping_ok_In in *. intros s Hin. simpl in *.
  apply In_filter_bool in Hin as [Hin _]. exact (Hs s Hin).
Qed.

Lemma run_callback_world_ok (w : World) (cb : Callback) :
  world_ok w = true -> world_ok (exec (run_callback cb) w) = true.
Proof. intros H. destruct cb as [k]. apply completeTimer_world_ok, H. Qed.

Lemma fire_world_ok (w : World) (c : nat) :
  world_ok w = true -> world_ok (exec (fire c) w) = true.
Proof.
  intros H. unfold exec, fire. rewrite bind_eq. unfold gets.
  rewrite bind_eq, performance_now_eq.
  destruct (filter (fun s => waits_on c s = true) (sleeping w))
    as [|s rest] eqn:Hf; [exact H|].
  destruct (sl_due s <=? mono w); [|exact H].
  rewrite bind_eq. unfold modify.
  assert (In s (sleeping w) /\ waits_on c s = true) as [Hin Hw].
  { apply In_filter_bool. rewrite Hf. left. reflexivity. }
  assert (world_ok (upd_sleeping (filter (fun s => waits_on c s = false)) w)
          = true) as H1.
  { apply world_ok_split in H as [Hs Hc]. apply world_ok_split.
    split; [exact Hs | apply sched_ok_drop_sleeps, Hc]. }
  rewrite wake_eq.
  - simpl. pose proof (run_callback_world_ok _ (sl_callback s) H1) as H2.
    apply world_ok_split in H2 as [Hs Hc]. apply world_ok_split.
    split; [exact Hs | apply upd_table_delete_sched_ok, Hc].
  - simpl. apply world_ok_split in H as [_ Hc].
    apply sched_ok_split in Hc as [_ Hsl]. rewrite sleeping_ok_In in Hsl.
    exact (Hsl s Hin).
Qed.

Lemma abort_all_sched_ok (cs : list nat) :
  forall w, sched_ok w = true -> sched_ok (exec (abort_all cs) w) = true.
Proof.
  induction cs as [|c cs IH]; intros w H; [exact H|].
  unfold exec. cbn [abort_all]. rewrite bind_eq.
  pose proof (abort_sched_ok w c H) as Ha. unfold exec in Ha.
  destruct (abort c w) as [[[]|e] w']; simpl in *; [|exact Ha].
  apply IH, Ha.
Qed.

Lemma abort_all_frame (cs : list nat) :
  forall w, sched_frame w (exec (abort_all cs) w).
Proof.
  induction cs as [|c cs IH]; intros w; [apply sched_frame_refl|].
  unfold exec. cbn [abort_all]. rewrite bind_eq.
  pose proof (abort_frame w c) as Ha. unfold exec in Ha.
  destruct (abort c w) as [[[]|e] w']; simpl in *; [|exact Ha].
  eapply sched_frame_trans; [exact Ha | apply IH].
Qed.

Lemma abort_length (w : World) (c : nat) :
  length (controllers (exec (abort c) w)) = length (controllers w).
Proof.
  unfold exec. destruct (controllers w !! c) as [b|] eqn:Hc.
  - rewrite (abort_eq w c b Hc). destruct b; simpl; [reflexivity|].
    apply length_insert.
  - rewrite (abort_None w c Hc). reflexivity.
Qed.

Lemma abort_all_ok (cs : list nat) :
  forall w, Forall (fun c => (c < length (controllers w))%nat) cs ->
            abort_all cs w = (Ok tt, exec (abort_all cs) w).
Proof.
  induction cs as [|c cs IH]; intros w HF; [reflexivity|].
  apply Forall_cons in HF as [Hc HF]. apply run_eq. unfold eval.
  cbn [abort_all]. rewrite bind_eq.
  rewrite (run_eq _ _ _ (abort_eval w c Hc)). rewrite IH; [reflexivity|].
  eapply Forall_impl; [exact HF|]. intros c' Hc'. simpl in *.
  rewrite abort_length. exact Hc'.
Qed.

Lemma scheduler_shutdown_eq (w : World) :
  table_ok w = true ->
  NodeScheduler.shutdown w
  = (Ok tt,
     upd_scheduledTimers (fun _ => JSMap.empty)
       (exec (abort_all (JSMap.values (scheduledTimers w))) w)).
Proof.
  intros Ht. unfold NodeScheduler.shutdown. rewrite bind_eq. unfold gets.
  rewrite bind_eq, abort_all_ok; [reflexivity|].
  rewrite table_ok_In in Ht. apply Forall_forall. intros c Hin.
  unfold JSMap.values in Hin. apply list_elem_of_In in Hin.
  apply in_map_iff in Hin as ([k c'] & <- & Hin). exact (Ht k c' Hin).
Qed.

Lemma shutdown_world_ok (w : World) :
  world_ok w = true ->
  world_ok (exec (NodeScheduler.shutdown;; InMemoryTimerStore.close) w) = true.
Proof.
  intros H. unfold exec. rewrite bind_eq.
  rewrite (scheduler_shutdown_eq w (world_ok_table w H)).
  apply world_ok_split in H as [_ Hc].
  pose proof (abort_all_sched_ok (JSMap.values (scheduledTimers w)) w Hc) as Ha.
  apply sched_ok_split in Ha as [_ Hsl].
  apply world_ok_split. split; [reflexivity|].
  apply sched_ok_split. split; [reflexivity | exact Hsl].
Qed.

(** Every reachable world satisfies the invariant. *)
Lemma step_world_ok (a : Action) (w : World) :
  world_ok w = true -> world_ok (step a w) = true.
Proof.
  intros H. destruct a; cbn [step]; rewrite ?run_task_exec;
    try apply drain_world_ok.
  - apply createTimer_world_ok, H.
  - apply getTimer_world_ok, H.
  - apply pauseTimer_world_ok, H.
  - apply resumeTimer_world_ok, H.
  - apply cancelTimer_world_ok, H.
  - apply listTimers_world_ok, H.
  - apply fire_world_ok, H.
  - exact H.
  - exact H.
  - apply shutdown_world_ok, H.
Qed.

Lemma run_world_ok (actions : list Action) :
  forall w, world_ok w = true -> world_ok (run actions w) = true.
Proof.
  induction actions as [|a actions IH]; intros w H; [exact H|].
  apply IH, step_world_ok, H.
Qed.

Lemma reachable_world_ok (w : World) : reachable w -> world_ok w = true.
Proof. intros [actions ->]. apply run_world_ok. reflexivity. Qed.

(** ** The duration parser *)

Lemma span_digits_length (s : string) :
  forall ds rest, span_digits s = (ds, rest) ->
                  String.length s = (length ds + String.length rest)%nat.
Proof.
  induction s as [|c s IH]; intros ds rest H; simpl in H.
  - injection H as <- <-. reflexivity.
  - destruct (is_digit c).
    + destruct (span_digits s) as [ds' rest'] eqn:E.
      injection H as <- <-. simpl. rewrite (IH ds' rest' eq_refl). reflexivity.
    + injection H as <- <-. reflexivity.
Qed.

Lemma match_at_shorter (s : string) (v ms : Z) (rest : string) :
  match_at s = Some (v, ms, rest) ->
  (String.length rest < String.length s)%nat.
Proof.
  unfold match_at. destruct (span_digits s) as [ds r] eqn:E.
  destruct ds as [|d ds]; [discriminate|].
  destruct r as [|u r]; [discriminate|].
  destruct (unit_ms u); [|discriminate].
  intros [= _ _ ->]. rewrite (span_digits_length s _ _ E). simpl. lia.
Qed.

Lemma regex_exec_shorter (s : string) :
  forall v ms rest, regex_exec s = Some (v, ms, rest) ->
                    (String.length rest < String.length s)%nat.
Proof.
  induction s as [|c s IH]; intros v ms rest H.
  - discriminate.
  - cbn [regex_exec] in H.
    destruct (match_at (String c s)) as [[[v' ms'] rest']|] eqn:E.
    + injection H as -> -> ->. eapply match_at_shorter, E.
    + specialize (IH v ms rest H). simpl. lia.
Qed.

(** The loop has run out of matches before it runs out of fuel. *)
Lemma sum_matches_fuel_S (n : nat) :
  forall s acc, (String.length s <= n)%nat ->
                sum_matches (S n) s acc = sum_matches n s acc.
Proof.
  induction n as [|n IH]; intros s acc Hlen.
  - destruct s; [reflexivity | simpl in Hlen; lia].
  - cbn [sum_matches].
    destruct (regex_exec s) as [[[v ms] rest]|] eqn:E; [|reflexivity].
    change (sum_matches (S n) rest (acc + v * ms)
            = sum_matches n rest (acc + v * ms)).
    apply IH. apply regex_exec_shorter in E. lia.
Qed.

Lemma sum_matches_fuel (s : string) (k : nat) (acc : Z) :
  sum_matches (String.length s + k) s acc = sum_matches (String.length s) s acc.
Proof.
  induction k as [|k IH].
  - rewrite Nat.add_0_r. reflexivity.
  - rewrite Nat.add_succ_r, sum_matches_fuel_S by lia. exact IH.
Qed.

Lemma parseInt_nonneg (ds : list ascii) : 0 <= parseInt ds.
Proof.
  unfold parseInt.
  assert (forall acc, 0 <= acc ->
            0 <= fold_left (fun acc c =>
                              10 * acc + Z.of_nat (nat_of_ascii c - 48)) ds acc)
    as H.
  { induction ds as [|d ds IH]; intros acc Hacc; simpl; [exact Hacc|].
    apply IH. lia. }
  apply H. lia.
Qed.

Lemma unit_ms_pos (u : ascii) (ms : Z) : unit_ms u = Some ms -> 0 < ms.
Proof.
  unfold unit_ms.
  repeat (match goal with |- context [Ascii.eqb ?a ?b] =>
                            destruct (Ascii.eqb a b) end);
    intros [= <-]; lia.
Qed.

Lemma match_at_nonneg (s : string) (v ms : Z) (rest : string) :
  match_at s = Some (v, ms, rest) -> 0 <= v /\ 0 < ms.
Proof.
  unfold match_at. destruct (span_digits s) as [ds r].
  destruct ds as [|d ds]; [discriminate|].
  destruct r as [|u r]; [discriminate|].
  destruct (unit_ms u) as [ms'|] eqn:E; [|discriminate].
  intros [= <- <- _]. split; [apply parseInt_nonneg | eapply unit_ms_pos, E].
Qed.

Lemma regex_exec_nonneg (s : string) :
  forall v ms rest, regex_exec s = Some (v, ms, rest) -> 0 <= v /\ 0 < ms.
Proof.
  induction s as [|c s IH]; intros v ms rest H.
  - discriminate.
  - cbn [regex_exec] in H.
    destruct (match_at (String c s)) as [[[v' ms'] rest']|] eqn:E.
    + injection H as -> -> ->. eapply match_at_nonneg, E.
    + eapply IH, H.
Qed.

Lemma sum_matches_ge (n : nat) :
  forall s acc, acc <= sum_matches n s acc.
Proof.
  induction n as [|n IH]; intros s acc; simpl; [lia|].
  destruct (regex_exec s) as [[[v ms] rest]|] eqn:E; [|lia].
  apply regex_exec_nonneg in E as [Hv Hms].
  specialize (IH rest (acc + v * ms)). nia.
Qed.

Lemma token_total_nonneg (s : string) : 0 <= token_total s.
Proof. apply sum_matches_ge. Qed.

(** What [parseDuration] returns, and when it throws. *)
Lemma parseDuration_rejected (d : Duration) :
  rejected d = true ->
  exists s, d = DString s /\
            parseDuration d = Throw (Error ("Invalid duration format: " ++ s)).
Proof.
  destruct d as [s|n|n]; simpl; try discriminate.
  intros H. exists s. split; [reflexivity|].
  unfold token_total in H. rewrite H. reflexivity.
Qed.

Lemma parseDuration_accepted (d : Duration) :
  rejected d = false ->
  parseDuration d
  = Ok match d with
       | DString s => token_total s
       | DNumber n => n
       | DObject ms => ms
       end.
Proof.
  destruct d as [s|n|n]; simpl; try reflexivity.
  intros H. unfold token_total in H. rewrite H. reflexivity.
Qed.

(** A duration that comes from a string is positive. *)
Lemma parseDuration_string_pos (s : string) (d : Z) :
  parseDuration (DString s) = Ok d -> 0 < d.
Proof.
  simpl. pose proof (token_total_nonneg s) as Hge. unfold token_total in Hge.
  destruct (Z.eqb_spec (sum_matches (String.length (toLowerCase s))
                                    (toLowerCase s) 0) 0) as [|Hne];
    [discriminate|].
  intros [= <-]. lia.
Qed.

(** A string without a digit has no match and is turned down. *)
Lemma is_digit_toLowerCase_char (c : ascii) :
  is_digit (toLowerCase_char c) = is_digit c.
Proof. destruct c as [[] [] [] [] [] [] [] []]; reflexivity. Qed.

Lemma has_digit_toLowerCase (s : string) :
  has_digit (toLowerCase s) = has_digit s.
Proof.
  induction s as [|c s IH]; simpl; [reflexivity|].
  rewrite is_digit_toLowerCase_char, IH. reflexivity.
Qed.

Lemma regex_exec_no_digit (s : string) :
  has_digit s = false -> regex_exec s = None.
Proof.
  induction s as [|c s IH]; intros H; [reflexivity|].
  simpl in H. apply orb_false_iff in H as [Hc Hs].
  cbn [regex_exec]. unfold match_at. cbn [span_digits]. rewrite Hc.
  apply IH, Hs.
Qed.

Lemma string_without_digit_rejected (s : string) :
  has_digit s = false -> rejected (DString s) = true.
Proof.
  intros H. simpl. apply Z.eqb_eq. unfold token_total.
  rewrite <- has_digit_toLowerCase in H.
  destruct (String.length (toLowerCase s)); [reflexivity|].
  cbn [sum_matches]. rewrite (regex_exec_no_digit _ H). reflexivity.
Qed.

(** An id is made of thirteen characters at most. *)
Lemma substring_length (n m : nat) (s : string) :
  (String.length (String.substring n m s) <= m)%nat.
Proof.
  revert n m. induction s as [|c s IH]; intros n m.
  - destruct n, m; simpl; lia.
  - destruct n as [|n]; [destruct m as [|m]|]; simpl.
    + lia.
    + specialize (IH 0%nat m). lia.
    + apply IH.
Qed.

Lemma generateId_length (random36 : string) :
  (String.length (generateId random36) <= 13)%nat.
Proof. apply substring_length. Qed.

(** *** Tokens of positive value

    The total of the loop is positive exactly when the input holds a
    token of positive value. *)

Lemma digit_value_pos (c : ascii) :
  is_digit c = true ->
  (0 <? Z.of_nat (nat_of_ascii c - 48)) = negb (Ascii.eqb c "0").
Proof.
  destruct c as [[] [] [] [] [] [] [] []]; try discriminate; reflexivity.
Qed.

Lemma digit_value_nonneg (c : ascii) : 0 <= Z.of_nat (nat_of_ascii c - 48).
Proof. lia. Qed.

(** The scanner and the parser agree on every character, the parser
    reading the lower-cased one. *)
Lemma is_unit_toLowerCase_char (c : ascii) :
  is_unit c
  = match unit_ms (toLowerCase_char c) with Some _ => true | None => false end.
Proof. destruct c as [[] [] [] [] [] [] [] []]; reflexivity. Qed.

Lemma zero_toLowerCase_char (c : ascii) :
  Ascii.eqb (toLowerCase_char c) "0" = Ascii.eqb c "0".
Proof. destruct c as [[] [] [] [] [] [] [] []]; reflexivity. Qed.

Lemma parseInt_pos (ds : list ascii) :
  forallb is_digit ds = true ->
  (0 <? parseInt ds) = existsb (fun c => negb (Ascii.eqb c "0")) ds.
Proof.
  unfold parseInt.
  assert (forall acc, 0 <= acc -> forallb is_digit ds = true ->
            (0 <? fold_left (fun acc c =>
                               10 * acc + Z.of_nat (nat_of_ascii c - 48)) ds acc)
            = (0 <? acc) || existsb (fun c => negb (Ascii.eqb c "0")) ds)
    as H.
  { induction ds as [|d ds IH]; intros acc Hacc Hds; simpl.
    - rewrite orb_false_r. reflexivity.
    - simpl in Hds. apply andb_true_iff in Hds as [Hd Hds].
      rewrite IH by (try lia; exact Hds).
      rewrite <- (digit_value_pos d Hd), orb_assoc. f_equal.
      pose proof (digit_value_nonneg d).
      destruct (Z.ltb_spec 0 acc), (Z.ltb_spec 0 (Z.of_nat (nat_of_ascii d - 48))),
        (Z.ltb_spec 0 (10 * acc + Z.of_nat (nat_of_ascii d - 48)));
        simpl; try reflexivity; lia. }
  intros Hds. rewrite (H 0 (Z.le_refl 0) Hds). reflexivity.
Qed.

Lemma span_digits_digits (s : string) :
  forall ds r, span_digits s = (ds, r) -> forallb is_digit ds = true.
Proof.
  induction s as [|c s IH]; intros ds r H; simpl in H.
  - injection H as <- <-. reflexivity.
  - destruct (is_digit c) eqn:Hc.
    + destruct (span_digits s) as [ds' r'] eqn:E. injection H as <- <-.
      simpl. rewrite Hc. apply (IH ds' r' eq_refl).
    + injection H as <- <-. reflexivity.
Qed.

Lemma span_digits_stop (s : string) :
  forall ds u r, span_digits s = (ds, String u r) -> is_digit u = false.
Proof.
  induction s as [|c s IH]; intros ds u r H; simpl in H; [discriminate|].
  destruct (is_digit c) eqn:Hc.
  - destruct (span_digits s) as [ds' r'] eqn:E. injection H as _ ->.
    apply (IH ds' u r eq_refl).
  - injection H as _ <- <-. exact Hc.
Qed.

(** The digits and the rest that the parser finds in the lower-cased
    text are those of the text, the rest lower-cased. *)
Lemma span_digits_toLowerCase (s : string) :
  forall ds r,
    span_digits s = (ds, r) ->
    span_digits (toLowerCase s) = (map toLowerCase_char ds, toLowerCase r).
Proof.
  induction s as [|c s IH]; intros ds r H; simpl in H.
  - injection H as <- <-. reflexivity.
  - cbn [toLowerCase span_digits]. rewrite is_digit_toLowerCase_char.
    destruct (is_digit c).
    + destruct (span_digits s) as [ds' r'] eqn:E. injection H as <- <-.
      rewrite (IH ds' r' eq_refl). reflexivity.
    + injection H as <- <-. reflexivity.
Qed.

Lemma existsb_nonzero_toLowerCase (ds : list ascii) :
  existsb (fun c => negb (Ascii.eqb c "0")) (map toLowerCase_char ds)
  = existsb (fun c => negb (Ascii.eqb c "0")) ds.
Proof.
  induction ds as [|d ds IH]; simpl; [reflexivity|].
  rewrite zero_toLowerCase_char, IH. reflexivity.
Qed.

(** Over a run of digits the scanner only records whether it has met a
    digit other than [0]. *)
Lemma scan_positive_span (s : string) :
  forall b ds r,
    span_digits s = (ds, r) ->
    scan_positive b s
    = scan_positive (b || existsb (fun c => negb (Ascii.eqb c "0")) ds) r.
Proof.
  induction s as [|c s IH]; intros b ds r H; simpl in H.
  - injection H as <- <-. reflexivity.
  - cbn [scan_positive]. destruct (is_digit c) eqn:Hc.
    + destruct (span_digits s) as [ds' r'] eqn:E. injection H as <- <-.
      rewrite (IH _ ds' r' eq_refl). simpl. rewrite orb_assoc. reflexivity.
    + injection H as <- <-. simpl. rewrite orb_false_r.
      cbn [scan_positive]. rewrite Hc. reflexivity.
Qed.

Lemma scan_positive_stop (b : bool) (u : ascii) (r : string) :
  is_digit u = false ->
  scan_positive b (String u r)
  = if b && is_unit u then true else scan_positive false r.
Proof. intros Hu. cbn [scan_positive]. rewrite Hu. reflexivity. Qed.

(** The scanner on the text, along the matches that the regular
    expression finds in the lower-cased text: the rest of a match is the
    lower-cased rest of the text. *)
Lemma scan_positive_regex (s : string) :
  match regex_exec (toLowerCase s) with
  | Some (v, ms, rest) =>
      exists s', rest = toLowerCase s' /\
                 scan_positive false s = (0 <? v) || scan_positive false s'
  | None => scan_positive false s = false
  end.
Proof.
  induction s as [|c s IH]; [reflexivity|].
  change (toLowerCase (String c s))
    with (String (toLowerCase_char c) (toLowerCase s)).
  cbn [regex_exec].
  change (String (toLowerCase_char c) (toLowerCase s))
    with (toLowerCase (String c s)).
  unfold match_at.
  destruct (span_digits (String c s)) as [ds r] eqn:E.
  rewrite (span_digits_toLowerCase _ ds r E).
  rewrite (scan_positive_span _ false ds r E). cbn [orb].
  pose proof (span_digits_digits _ ds r E) as Hds.
  cbn [span_digits] in E. destruct (is_digit c) eqn:Hc.
  - destruct (span_digits s) as [ds' r'] eqn:E'. injection E as <- <-.
    assert (scan_positive false s
            = scan_positive
                (existsb (fun c => negb (Ascii.eqb c "0")) ds') r') as Hs
      by apply (scan_positive_span s false ds' r' E').
    cbn [map]. destruct r' as [|u rest].
    + cbn [toLowerCase].
      assert (scan_positive false s = false) as Hs0
        by (rewrite Hs; reflexivity).
      destruct (regex_exec (toLowerCase s)) as [[[v ms] rest]|].
      * destruct IH as (s' & Hrest & Hscan). exists s'.
        split; [exact Hrest|]. rewrite <- Hscan, Hs0. reflexivity.
      * reflexivity.
    + pose proof (span_digits_stop s ds' u rest E') as Hu.
      rewrite (scan_positive_stop _ u rest Hu).
      change (toLowerCase (String u rest))
        with (String (toLowerCase_char u) (toLowerCase rest)).
      rewrite (is_unit_toLowerCase_char u).
      destruct (unit_ms (toLowerCase_char u)) as [ms|] eqn:Eu.
      * exists rest. split; [reflexivity|].
        change (toLowerCase_char c :: map toLowerCase_char ds')
          with (map toLowerCase_char (c :: ds')).
        rewrite parseInt_pos, existsb_nonzero_toLowerCase.
        -- destruct (existsb _ (c :: ds')); reflexivity.
        -- clear -Hds. induction (c :: ds') as [|d l IHl]; [reflexivity|].
           simpl in *. apply andb_true_iff in Hds as [Hd Hl].
           rewrite is_digit_toLowerCase_char, Hd. apply IHl, Hl.
      * rewrite andb_false_r.
        assert (scan_positive false s = scan_positive false rest) as Hs1.
        { rewrite Hs, (scan_positive_stop _ u rest Hu).
          rewrite (is_unit_toLowerCase_char u), Eu, andb_false_r.
          reflexivity. }
        destruct (regex_exec (toLowerCase s)) as [[[v ms] rest']|].
        -- destruct IH as (s' & Hrest & Hscan). exists s'.
           split; [exact Hrest|]. rewrite <- Hscan, Hs1. reflexivity.
        -- rewrite <- Hs1. exact IH.
  - injection E as <- <-. cbn [map scan_positive]. rewrite Hc.
    destruct (regex_exec (toLowerCase s)) as [[[v ms] rest]|]; exact IH.
Qed.

Lemma toLowerCase_length (s : string) :
  String.length (toLowerCase s) = String.length s.
Proof. induction s as [|c s IH]; simpl; [reflexivity|]. rewrite IH. reflexivity. Qed.

Lemma sum_matches_acc0 (n : nat) :
  forall s acc, sum_matches n s acc = acc + sum_matches n s 0.
Proof.
  induction n as [|n IH]; intros s acc; cbn [sum_matches]; [lia|].
  destruct (regex_exec s) as [[[v ms] rest]|]; [|lia].
  rewrite (IH rest (acc + v * ms)), (IH rest (0 + v * ms)). lia.
Qed.

Lemma sum_matches_pos (n : nat) :
  forall s, (String.length s <= n)%nat ->
            (0 <? sum_matches n (toLowerCase s) 0) = scan_positive false s.
Proof.
  induction n as [|n IH]; intros s Hlen.
  - destruct s; [reflexivity | simpl in Hlen; lia].
  - cbn [sum_matches]. pose proof (scan_positive_regex s) as Hscan.
    destruct (regex_exec (toLowerCase s)) as [[[v ms] rest]|] eqn:E;
      [|symmetry; exact Hscan].
    destruct Hscan as (s' & -> & ->).
    pose proof (regex_exec_nonneg _ v ms _ E) as [Hv Hms].
    pose proof (regex_exec_shorter _ v ms _ E) as Hshort.
    rewrite !toLowerCase_length in Hshort.
    rewrite sum_matches_acc0, <- (IH s') by lia.
    pose proof (sum_matches_ge n (toLowerCase s') 0) as Hge.
    destruct (Z.ltb_spec 0 v), (Z.ltb_spec 0 (sum_matches n (toLowerCase s') 0)),
      (Z.ltb_spec 0 (0 + v * ms + sum_matches n (toLowerCase s') 0));
      simpl; try reflexivity; nia.
Qed.

(** [parseDuration] turns a string down exactly when the string holds no
    token of positive value. *)
Lemma rejected_no_positive_token (s : string) :
  rejected (DString s) = negb (positive_token s).
Proof.
  simpl. unfold token_total, positive_token.
  rewrite <- (sum_matches_pos (String.length (toLowerCase s)) s)
    by (rewrite toLowerCase_length; lia).
  pose proof (sum_matches_ge (String.length (toLowerCase s)) (toLowerCase s) 0).
  destruct (Z.eqb_spec (sum_matches (String.length (toLowerCase s))
                                    (toLowerCase s) 0) 0),
    (Z.ltb_spec 0 (sum_matches (String.length (toLowerCase s))
                               (toLowerCase s) 0));
    simpl; try reflexivity; lia.
Qed.

(** ** What a write to the store changes *)

Lemma stored_after_put (w W : World) (x : Timer)
    (f : list TimerEvent -> list TimerEvent) :
  store_ok w = true -> sched_frame (put_world w x) W ->
  forall k, stored (upd_emitted f W) k
            = if String.eqb k (id x) then Some x else stored w k.
Proof.
  intros Hok (Hh & Hst & _) k.
  apply (stored_put w (upd_emitted f W) x Hok); simpl; assumption.
Qed.

Lemma frame_emitted (w w' : World) : sched_frame w w' -> emitted w' = emitted w.
Proof. intros (_&_&H&_). exact H. Qed.

(** [create] with a duration that parses. *)
Lemma createTimer_accepted (w : World) (rnd : string)
    (req : TimerCreateRequest) (d : Z) :
  world_ok w = true -> parseDuration (duration req) = Ok d ->
  eval (createTimer rnd req) w = Ok (generateId rnd) /\
  (forall k, stored (exec (createTimer rnd req) w) k
             = if String.eqb k (generateId rnd)
               then Some (new_timer w (generateId rnd) (req_name req) d)
               else stored w k) /\
  emitted (exec (createTimer rnd req) w)
  = emitted w
    ++ [mkEvent TIMER_CREATED (generateId rnd) (req_name req) (wall w)].
Proof.
  intros H Hp. unfold eval, exec.
  rewrite (createTimer_run w rnd req d Hp (world_ok_table w H)).
  cbn [fst snd]. split; [reflexivity|]. split.
  - intros k.
    rewrite (stored_after_put w _
               (new_timer w (generateId rnd) (req_name req) d)
               _ (world_ok_store w H) (create_frame _ _ _ _ _ _)).
    reflexivity.
  - cbn [emitted upd_emitted].
    rewrite (frame_emitted _ _ (create_frame _ _ _ _ _ _)). reflexivity.
Qed.

(** C5.  [create] with the duration string "2h30m" stores
    [durationMs = 9000000]; with the duration [{ ms: 500 }] it stores
    [durationMs = 500]; with the duration string "0s" it fails with the
    invalid-duration error and leaves the world as it was. *)
Theorem create_duration_examples (w : World) (rnd : string)
    (nm : option string) :
  world_ok w = true ->
  (eval (createTimer rnd (mkRequest nm (DString "2h30m"))) w
   = Ok (generateId rnd) /\
   exists t,
     stored (exec (createTimer rnd (mkRequest nm (DString "2h30m"))) w)
            (generateId rnd) = Some t /\
     durationMs t = 9000000) /\
  (eval (createTimer rnd (mkRequest nm (DObject 500))) w
   = Ok (generateId rnd) /\
   exists t,
     stored (exec (createTimer rnd (mkRequest nm (DObject 500))) w)
            (generateId rnd) = Some t /\
     durationMs t = 500) /\
  createTimer rnd (mkRequest nm (DString "0s")) w
  = (Throw (Error "Invalid duration format: 0s"), w).
Proof.
  intros H. split; [|split].
  - destruct (createTimer_accepted w rnd (mkRequest nm (DString "2h30m"))
                9000000 H eq_refl) as (He & Hst & _).
    split; [exact He|]. eexists. split.
    + rewrite Hst, String.eqb_refl. reflexivity.
    + reflexivity.
  - destruct (createTimer_accepted w rnd (mkRequest nm (DObject 500))
                500 H eq_refl) as (He & Hst & _).
    split; [exact He|]. eexists. split.
    + rewrite Hst, String.eqb_refl. reflexivity.
    + reflexivity.
  - apply createTimer_throw. reflexivity.
Qed.

Lemma create_duration_examples_witness :
  world_ok w_running = true /\
  createTimer "0.xyz" (mkRequest None (DString "0s")) w_running
  = (Throw (Error "Invalid duration format: 0s"), w_running).
Proof.
  split; [reflexivity|].
  apply (create_duration_examples w_running "0.xyz" None). reflexivity.
Defined.

(** C3, as the code has it.  [create] turns a duration down exactly
    when it is a string that holds no token of positive value: no digit
    other than [0] that is followed by any digits and then by one of the
    unit letters [s], [m], [h], [d], in either case and anywhere in the
    string.  It then throws the invalid-duration error and the world is
    unchanged, so that no timer is created.  Every other string is
    accepted, whatever stands around its tokens, and the new record is
    running with a positive duration.  A number or a [{ ms }] object is
    accepted as it is, whatever its sign. *)
Theorem create_rejects_zero_total_strings (w : World) (rnd : string)
    (req : TimerCreateRequest) :
  world_ok w = true ->
  match duration req with
  | DString s =>
      if positive_token s
      then
        eval (createTimer rnd req) w = Ok (generateId rnd) /\
        exists t,
          stored (exec (createTimer rnd req) w) (generateId rnd) = Some t /\
          status t = RUNNING /\ 0 < durationMs t /\
          remainingMs t = durationMs t
      else
        createTimer rnd req w
        = (Throw (Error ("Invalid duration format: " ++ s)), w)
  | DNumber n | DObject n =>
      eval (createTimer rnd req) w = Ok (generateId rnd) /\
      stored (exec (createTimer rnd req) w) (generateId rnd)
      = Some (new_timer w (generateId rnd) (req_name req) n)
  end.
Proof.
  intros H.
  assert (forall d, parseDuration (duration req) = Ok d ->
            eval (createTimer rnd req) w = Ok (generateId rnd) /\
            stored (exec (createTimer rnd req) w) (generateId rnd)
            = Some (new_timer w (generateId rnd) (req_name req) d)) as Hacc.
  { intros d Hp. destruct (createTimer_accepted w rnd req d H Hp)
      as (He & Hst & _).
    split; [exact He|]. rewrite Hst, String.eqb_refl. reflexivity. }
  destruct (duration req) as [s|n|n] eqn:Hd.
  - pose proof (rejected_no_positive_token s) as Hr.
    destruct (positive_token s).
    + pose proof (parseDuration_accepted (DString s) Hr) as Hp.
      destruct (Hacc _ Hp) as [He Hst].
      split; [exact He|]. eexists. split; [exact Hst|].
      split; [reflexivity|]. split; [|reflexivity].
      cbn [new_timer durationMs]. apply (parseDuration_string_pos s _ Hp).
    + destruct (parseDuration_rejected (DString s) Hr) as (s' & Hs & Hp).
      injection Hs as <-. apply createTimer_throw. rewrite Hd. exact Hp.
  - apply Hacc. reflexivity.
  - apply Hacc. reflexivity.
Qed.

Lemma create_rejects_zero_total_strings_witness :
  world_ok init = true /\
  createTimer "0.abc" (mkRequest None (DString "soon")) init
  = (Throw (Error "Invalid duration format: soon"), init) /\
  createTimer "0.abc" (mkRequest None (DString "000m 0s")) init
  = (Throw (Error "Invalid duration format: 000m 0s"), init) /\
  eval (createTimer "0.abc" (mkRequest None (DString "in 05M!"))) init
  = Ok "abc".
Proof.
  split; [reflexivity|]. split; [|split].
  - apply (create_rejects_zero_total_strings init "0.abc"
             (mkRequest None (DString "soon")) eq_refl).
  - apply (create_rejects_zero_total_strings init "0.abc"
             (mkRequest None (DString "000m 0s")) eq_refl).
  - apply (create_rejects_zero_total_strings init "0.abc"
             (mkRequest None (DString "in 05M!")) eq_refl).
Defined.

(** C3 fails as stated: [create] accepts the number 0, a negative
    [{ ms }] value and a string that is not made of tokens only; each
    call returns an id and stores a running timer. *)
Lemma create_accepts_nonpositive_and_malformed :
  (eval (createTimer "0.a" (mkRequest None (DNumber 0))) init = Ok "a" /\
   stored (exec (createTimer "0.a" (mkRequest None (DNumber 0))) init) "a"
   = Some (mkTimer "a" None 0 0 false 0 0 RUNNING)) /\
  (eval (createTimer "0.b" (mkRequest None (DObject (-5)))) init = Ok "b" /\
   stored (exec (createTimer "0.b" (mkRequest None (DObject (-5)))) init) "b"
   = Some (mkTimer "b" None (-5) 0 false (-5) 0 RUNNING)) /\
  (eval (createTimer "0.c" (mkRequest None (DString "about 5s, or so"))) init
   = Ok "c" /\
   stored (exec (createTimer "0.c" (mkRequest None (DString "about 5s, or so")))
                init) "c"
   = Some (mkTimer "c" None 5000 0 false 5000 0 RUNNING)).
Proof. vm_compute. repeat split. Qed.

(** C9, as the code has it.  [create] takes the id that [generateId]
    draws, thirteen characters at most, without looking into the store.
    It stores the new record under that id, whatever the store held
    there, and keeps every record under another id.  The id is distinct
    from the ids already present exactly when the draw is not yet a key
    of the store; when it is one, the record under it is replaced by the
    new record. *)
Theorem create_stores_under_generated_id (w : World) (rnd : string)
    (req : TimerCreateRequest) (d : Z) :
  world_ok w = true -> parseDuration (duration req) = Ok d ->
  let k := generateId rnd in
  let w' := exec (createTimer rnd req) w in
  k = String.substring 2 13 rnd /\ (String.length k <= 13)%nat /\
  eval (createTimer rnd req) w = Ok k /\
  stored w' k = Some (new_timer w k (req_name req) d) /\
  (forall k', k' <> k -> stored w' k' = stored w k') /\
  ((forall k' t, stored w k' = Some t -> k' <> k) <-> stored w k = None) /\
  (forall t, stored w k = Some t ->
             id t = k /\ stored w' k <> None /\
             (t <> new_timer w k (req_name req) d -> stored w' k <> Some t)).
Proof.
  intros H Hp k w'.
  destruct (createTimer_accepted w rnd req d H Hp) as (He & Hst & _).
  fold k w' in He, Hst.
  assert (stored w' k = Some (new_timer w k (req_name req) d)) as Hnew
    by (rewrite Hst, String.eqb_refl; reflexivity).
  split; [reflexivity|]. split; [apply generateId_length|].
  split; [exact He|]. split; [exact Hnew|]. split; [|split].
  - intros k' Hne. rewrite Hst.
    destruct (String.eqb_spec k' k); [contradiction | reflexivity].
  - split.
    + intros Hfresh. destruct (stored w k) as [t|] eqn:Hk; [|reflexivity].
      exfalso. apply (Hfresh k t Hk). reflexivity.
    + intros Hnone k' t Hk' ->. congruence.
  - intros t Hk. split; [|split].
    + apply (timer_ok_id k t), (stored_timer_ok w k t (world_ok_store w H) Hk).
    + rewrite Hnew. discriminate.
    + intros Hne. rewrite Hnew. congruence.
Qed.

Lemma create_stores_under_generated_id_witness :
  world_ok w_running = true /\
  stored w_running "abc"
  = Some (mkTimer "abc" (Some "tea") 10000 0 false 10000 0 RUNNING) /\
  eval (createTimer "0.abc" (mkRequest None (DString "5s"))) w_running
  = Ok "abc" /\
  stored (exec (createTimer "0.abc" (mkRequest None (DString "5s"))) w_running)
         "abc"
  = Some (mkTimer "abc" None 5000 4000 false 5000 4000 RUNNING).
Proof.
  split; [reflexivity|]. split; [reflexivity|].
  destruct (create_stores_under_generated_id w_running "0.abc"
              (mkRequest None (DString "5s")) 5000 eq_refl eq_refl)
    as (_ & _ & He & Hst & _).
  split; [exact He | exact Hst].
Defined.

(** C9 fails as stated: two calls of [create] that draw the same random
    number return the same id; the second call returns the id of a timer
    that is in the store, and overwrites its record. *)
Lemma create_returns_id_in_use :
  let r1 := mkRequest (Some "first") (DNumber 10) in
  let r2 := mkRequest (Some "second") (DNumber 20) in
  let w1 := step (Create "0.i" r1) init in
  eval (createTimer "0.i" r1) init = Ok "i" /\
  stored w1 "i" = Some (mkTimer "i" (Some "first") 10 0 false 10 0 RUNNING) /\
  eval (createTimer "0.i" r2) w1 = Ok "i" /\
  stored (step (Create "0.i" r2) w1) "i"
  = Some (mkTimer "i" (Some "second") 20 0 false 20 0 RUNNING).
Proof. vm_compute. repeat split. Qed.

(** ** Calls that change nothing *)

Lemma unobservable_refl (w : World) : unobservable w w.
Proof. unfold unobservable. repeat split; auto. Qed.

Lemma unobservable_local (w : World) (x : Timer) :
  store_ok w = true -> unobservable w (with_local w x).
Proof.
  intros Hok. unfold unobservable. split; [reflexivity|]. split.
  - intros l t Hl. simpl. apply lookup_grown, Hl.
  - split; [|repeat split].
    apply (stored_heap_grown w _ [x] Hok); reflexivity.
Qed.

(** A guarded method whose guard does not let it act returns at once,
    either before or right after it has fetched its copy of the record. *)
Lemma guarded_call_skips (g : GuardedMethod) (w : World) (k : string) :
  world_ok w = true -> applies g (stored w k) = false ->
  method g k w = (Ok tt, w) \/
  exists t, method g k w = (Ok tt, with_local w t).
Proof.
  intros H Hg. pose proof (world_ok_store w H) as Hok.
  destruct (stored_cases w k Hok)
    as [[_ Hk]|(l & t & Hst & Hk & Hl & _ & Hrun)].
  - left. destruct g; cbn [method];
      [ apply (pauseTimer_missing w k Hk)
      | apply (resumeTimer_missing w k Hk)
      | apply (cancelTimer_missing w k Hk) ].
  - right. exists t. rewrite Hst in Hg. cbn [applies] in Hg.
    destruct g; cbn [method].
    + apply (pauseTimer_skip w k l t Hk Hl).
      left. intros Hs. rewrite Hs in Hg. discriminate.
    + apply (resumeTimer_skip w k l t Hk Hl).
      intros Hs. rewrite Hs in Hg. discriminate.
    + apply (cancelTimer_skip w k l t Hk Hl).
      destruct (status_eqb_spec (status t) COMPLETED) as [Hs|_];
        [left; exact Hs|].
      destruct (status_eqb_spec (status t) CANCELED) as [Hs|_];
        [right; exact Hs | discriminate Hg].
Qed.

Lemma skip_unobservable (m : M unit) (w : World) :
  store_ok w = true ->
  m w = (Ok tt, w) \/ (exists t, m w = (Ok tt, with_local w t)) ->
  eval m w = Ok tt /\ unobservable w (exec m w).
Proof.
  intros Hok [E|[t E]]; unfold eval, exec; rewrite E; cbn [fst snd].
  - split; [reflexivity | apply unobservable_refl].
  - split; [reflexivity | apply unobservable_local, Hok].
Qed.

(** C7.  [pause], [resume] and [cancel] on an id that the store does not
    hold, [pause] on a timer that is not running, [resume] on a timer that
    is not paused and [cancel] on a completed or canceled timer return
    normally and change nothing: the store and its records, the emitted
    events and the scheduler are as before. *)
Theorem guarded_call_is_silent_noop (g : GuardedMethod) (w : World)
    (k : string) :
  world_ok w = true -> applies g (stored w k) = false ->
  eval (method g k) w = Ok tt /\ unobservable w (exec (method g k) w).
Proof.
  intros H Hg. apply skip_unobservable; [apply world_ok_store, H|].
  apply guarded_call_skips; assumption.
Qed.

Lemma guarded_call_is_silent_noop_witness :
  world_ok w_canceled = true /\
  applies CANCEL (stored w_canceled "abc") = false /\
  eval (cancelTimer "abc") w_canceled = Ok tt /\
  emitted (exec (cancelTimer "abc") w_canceled) = emitted w_canceled.
Proof.
  split; [reflexivity|]. split; [reflexivity|].
  destruct (guarded_call_is_silent_noop CANCEL w_canceled "abc"
              eq_refl eq_refl) as (He & Hu).
  split; [exact He|]. apply Hu.
Defined.

(** ** [get] and [list] *)

(** The object that [get] returns for a running timer. *)
Lemma getTimer_running_result (w : World) (k : string) (t : Timer) :
  world_ok w = true -> stored w k = Some t -> status t = RUNNING ->
  getTimer k w
  = (Ok (Some (length (heap w))),
     with_local w (set_remainingMs (live_remainingMs (mono w) t) t)).
Proof.
  intros H Hst Hs. pose proof (world_ok_store w H) as Hok.
  pose proof (stored_timer_ok w k t Hok Hst) as Ht.
  apply stored_Some in Hst as (l & Hk & Hl).
  apply (getTimer_running w k l t Hk Hl Hs (timer_ok_running k t Ht Hs)).
Qed.

(** C8.  For a stored timer whose status is [RUNNING], [get] returns an
    object with the fields of the record and with [remainingMs]
    recomputed as [max(0, durationMs - (now - startMonotonicMs))] from
    the monotonic clock; the object is a copy, so that the store, every
    stored record and every other object are as before, as are the
    events and the scheduler. *)
Theorem get_recomputes_without_writing (w : World) (k : string) (t : Timer) :
  world_ok w = true -> stored w k = Some t -> status t = RUNNING ->
  exists l : loc,
    eval (getTimer k) w = Ok (Some l) /\
    heap w !! l = None /\
    heap (exec (getTimer k) w) !! l
    = Some (set_remainingMs
              (Z.max 0 (durationMs t - (mono w - startMonotonicMs t))) t) /\
    stored (exec (getTimer k) w) k = Some t /\
    unobservable w (exec (getTimer k) w).
Proof.
  intros H Hst Hs. pose proof (world_ok_store w H) as Hok.
  exists (length (heap w)). unfold eval, exec.
  rewrite (getTimer_running_result w k t H Hst Hs).
  cbn [fst snd]. split; [reflexivity|]. split.
  - apply lookup_ge_None. lia.
  - split; [apply lookup_snoc|].
    pose proof (unobservable_local w
                  (set_remainingMs (live_remainingMs (mono w) t) t) Hok) as Hu.
    split; [|exact Hu].
    destruct Hu as (_ & _ & Hsame & _). rewrite Hsame. exact Hst.
Qed.

Lemma get_recomputes_without_writing_witness :
  world_ok w_running = true /\
  exists l : loc,
    eval (getTimer "abc") w_running = Ok (Some l) /\
    (exists t, heap (exec (getTimer "abc") w_running) !! l = Some t /\
               remainingMs t = 6000) /\
    (exists t, stored (exec (getTimer "abc") w_running) "abc" = Some t /\
               remainingMs t = 10000).
Proof.
  split; [reflexivity|].
  destruct (get_recomputes_without_writing w_running "abc"
              (mkTimer "abc" (Some "tea") 10000 0 false 10000 0 RUNNING)
              eq_refl eq_refl eq_refl) as (l & He & _ & Hl & Hst & _).
  exists l. split; [exact He|]. split.
  - eexists. split; [exact Hl | reflexivity].
  - eexists. split; [exact Hst | reflexivity].
Defined.

(** [list] returns one copy of every record of the store, in the order of
    the store and with the fields as they were persisted. *)
Lemma listTimers_returns_persisted (w : World) :
  world_ok w = true ->
  exists ls : list loc,
    eval listTimers w = Ok ls /\
    map (fun l => heap (exec listTimers w) !! l) ls = stored_all w /\
    (forall k, stored (exec listTimers w) k = stored w k).
Proof.
  intros H. pose proof (world_ok_store w H) as Hok.
  destruct (store_values_live w Hok) as (ts & HF & Hall).
  exists (seq (length (heap w)) (length (store_timers w))).
  unfold eval, exec. rewrite (listTimers_eq w ts HF). cbn [fst snd].
  split; [reflexivity|]. split.
  - rewrite Hall. cbn [heap upd_heap].
    assert (length (store_timers w) = length ts) as ->.
    { apply Forall2_length in HF. unfold JSMap.values in HF.
      rewrite length_map in HF. exact HF. }
    clear. generalize (heap w) as h. induction ts as [|t ts IH]; intros h.
    + reflexivity.
    + cbn [length seq map]. f_equal.
      * change (t :: ts) with ([t] ++ ts). rewrite app_assoc.
        apply lookup_grown, lookup_snoc.
      * specialize (IH (h ++ [t])). rewrite length_app in IH. cbn in IH.
        rewrite Nat.add_1_r in IH. rewrite <- app_assoc in IH. exact IH.
  - apply (stored_heap_grown w _ ts Hok); reflexivity.
Qed.

(** C4, at a running timer of ten seconds, four seconds into its run:
    [list] returns the record with the [remainingMs] that was persisted,
    10000, where [get] returns the recomputed 6000. *)
Theorem list_returns_stale_remaining :
  (exists t, stored w_running "abc" = Some t /\ status t = RUNNING /\
             durationMs t = 10000 /\ startMonotonicMs t = 0) /\
  mono w_running = 4000 /\
  (exists l t, eval listTimers w_running = Ok [l] /\
               heap (exec listTimers w_running) !! l = Some t /\
               status t = RUNNING /\ remainingMs t = 10000) /\
  (exists l t, eval (getTimer "abc") w_running = Ok (Some l) /\
               heap (exec (getTimer "abc") w_running) !! l = Some t /\
               status t = RUNNING /\ remainingMs t = 6000).
Proof.
  split; [|split; [reflexivity|split]].
  - eexists. split; [reflexivity|]. repeat split.
  - do 2 eexists. split; [reflexivity|]. split; [reflexivity|].
    split; reflexivity.
  - do 2 eexists. split; [reflexivity|]. split; [reflexivity|].
    split; reflexivity.
Qed.

(** ** The completion callback *)

(** What [completeTimer] does, by the record under the id. *)
Lemma completeTimer_effect (w : World) (k : string) :
  world_ok w = true ->
  eval (completeTimer k) w = Ok tt /\
  match stored w k with
  | None => exec (completeTimer k) w = w
  | Some t =>
      if status_eqb (status t) COMPLETED
      then unobservable w (exec (completeTimer k) w)
      else
        (forall k', stored (exec (completeTimer k) w) k'
                    = if String.eqb k' k
                      then Some (set_remainingMs 0 (set_status COMPLETED t))
                      else stored w k') /\
        emitted (exec (completeTimer k) w)
        = emitted w ++ [mkEvent TIMER_COMPLETED k (name t) (wall w)]
  end.
Proof.
  intros H. pose proof (world_ok_store w H) as Hok. unfold eval, exec.
  destruct (stored_cases w k Hok)
    as [[Hst Hk]|(l & t & Hst & Hk & Hl & Hid & _)]; rewrite Hst.
  - rewrite (completeTimer_missing w k Hk). split; reflexivity.
  - destruct (status_eqb_spec (status t) COMPLETED) as [Hs|Hs].
    + rewrite (completeTimer_skip w k l t Hk Hl Hs).
      split; [reflexivity | apply unobservable_local, Hok].
    + rewrite (completeTimer_run w k l t Hk Hl Hs). cbn [fst snd].
      split; [reflexivity|]. split; [|reflexivity].
      intros k'.
      rewrite (stored_after_put w _ (completed t) _ Hok (sched_frame_refl _)).
      cbn [id completed set_remainingMs set_status]. rewrite Hid. reflexivity.
Qed.

(** C1, at a canceled timer: the completion callback turns the record
    into a completed one, writes it to the store and emits a [completed]
    event, where the specification has a call without effect. *)
Theorem completeTimer_overwrites_canceled :
  stored w_canceled "abc"
  = Some (mkTimer "abc" (Some "tea") 10000 0 false 10000 0 CANCELED) /\
  eval (completeTimer "abc") w_canceled = Ok tt /\
  stored (exec (completeTimer "abc") w_canceled) "abc"
  = Some (mkTimer "abc" (Some "tea") 10000 0 false 0 0 COMPLETED) /\
  emitted (exec (completeTimer "abc") w_canceled)
  = emitted w_canceled
    ++ [mkEvent TIMER_COMPLETED "abc" (Some "tea") 4000].
Proof. vm_compute. repeat split. Qed.

(** The same happens to a paused timer. *)
Lemma completeTimer_overwrites_paused :
  stored w_paused "abc"
  = Some (mkTimer "abc" (Some "tea") 10000 0 true 6000 0 PAUSED) /\
  stored (exec (completeTimer "abc") w_paused) "abc"
  = Some (mkTimer "abc" (Some "tea") 10000 0 true 0 0 COMPLETED) /\
  emitted (exec (completeTimer "abc") w_paused)
  = emitted w_paused ++ [mkEvent TIMER_COMPLETED "abc" (Some "tea") 4000].
Proof. vm_compute. repeat split. Qed.

(** ** Terminal states *)

(** A completed or canceled record is left alone by [pause], [resume]
    and [cancel], and a completed one by the completion callback. *)
Lemma terminal_absorbs_guarded_calls (g : GuardedMethod) (w : World)
    (k : string) (t : Timer) :
  world_ok w = true -> stored w k = Some t -> terminal t = true ->
  eval (method g k) w = Ok tt /\ unobservable w (exec (method g k) w).
Proof.
  intros H Hst Ht. apply skip_unobservable; [apply world_ok_store, H|].
  apply guarded_call_skips; [exact H|].
  rewrite Hst. unfold terminal in Ht. cbn [applies].
  destruct g, (status t); try reflexivity; discriminate Ht.
Qed.

Lemma completed_absorbs_callback (w : World) (k : string) (t : Timer) :
  world_ok w = true -> stored w k = Some t -> status t = COMPLETED ->
  eval (completeTimer k) w = Ok tt /\
  unobservable w (exec (completeTimer k) w).
Proof.
  intros H Hst Hs. destruct (completeTimer_effect w k H) as [He Hc].
  rewrite Hst, Hs in Hc. split; assumption.
Qed.

(** C2, on a reachable world: two calls of [create] have drawn the same
    id, so that the wake-up of the second call is out of the scheduler's
    table and survives the [cancel] of the timer; when its timeout
    expires, the canceled record changes its status and [remainingMs]. *)
Theorem canceled_record_mutated_by_callback :
  reachable w_collided /\
  stored w_collided "i"
  = Some (mkTimer "i" None 20 0 false 20 0 CANCELED) /\
  stored (step (Fire 3%nat) w_collided) "i"
  = Some (mkTimer "i" None 20 0 false 0 0 COMPLETED) /\
  emitted (step (Fire 3%nat) w_collided)
  = emitted w_collided ++ [mkEvent TIMER_COMPLETED "i" None 20].
Proof.
  split; [eexists; reflexivity|]. vm_compute. repeat split.
Qed.

(** ** Pause and resume *)

Lemma frame_mono (w w' : World) : sched_frame w w' -> mono w' = mono w.
Proof. intros (_&_&_&H&_). exact H. Qed.

Lemma stored_drain (w : World) (k : string) :
  stored (drain_microtasks w) k = stored w k.
Proof. reflexivity. Qed.

Lemma pause_step (w : World) (k : string) (t : Timer) :
  world_ok w = true -> stored w k = Some t -> status t = RUNNING ->
  stored (step (Pause k) w) k = Some (paused_at (mono w) t) /\
  mono (step (Pause k) w) = mono w.
Proof.
  intros H Hst Hs. pose proof (world_ok_store w H) as Hok.
  pose proof (stored_timer_ok w k t Hok Hst) as Ht.
  apply stored_Some in Hst as (l & Hk & Hl).
  cbn [step]. rewrite run_task_exec. unfold exec.
  rewrite (pauseTimer_run w k l t Hk Hl Hs (timer_ok_running k t Ht Hs)
             (world_ok_table w H)).
  cbn [snd]. split.
  - rewrite stored_drain.
    rewrite (stored_after_put w _ (paused_at (mono w) t) _ Hok
               (scheduler_cancel_frame _ k)).
    cbn [id paused_at set_status set_paused set_remainingMs].
    rewrite (timer_ok_id k t Ht), String.eqb_refl. reflexivity.
  - cbn [mono drain_microtasks upd_microtasks upd_scheduledTimers upd_emitted].
    exact (frame_mono (put_world w (paused_at (mono w) t)) _
             (scheduler_cancel_frame _ k)).
Qed.

Lemma resume_step (w : World) (k : string) (t : Timer) :
  world_ok w = true -> stored w k = Some t -> status t = PAUSED ->
  stored (step (Resume k) w) k = Some (resumed_at (mono w) t) /\
  mono (step (Resume k) w) = mono w.
Proof.
  intros H Hst Hs. pose proof (world_ok_store w H) as Hok.
  pose proof (stored_timer_ok w k t Hok Hst) as Ht.
  apply stored_Some in Hst as (l & Hk & Hl).
  cbn [step]. rewrite run_task_exec. unfold exec.
  rewrite (resumeTimer_run w k l t Hk Hl Hs (world_ok_table w H)).
  cbn [snd]. split.
  - rewrite stored_drain.
    rewrite (stored_after_put w _ (resumed_at (mono w) t) _ Hok
               (create_frame _ _ _ _ _ _)).
    cbn [id resumed_at set_status set_paused set_durationMs
         set_startMonotonicMs].
    rewrite (timer_ok_id k t Ht), String.eqb_refl. reflexivity.
  - cbn [mono drain_microtasks upd_microtasks upd_scheduledTimers upd_emitted].
    exact (frame_mono (put_world w (resumed_at (mono w) t)) _
             (create_frame _ _ _ _ _ _)).
Qed.

Lemma live_remainingMs_nonneg (now : Z) (t : Timer) :
  0 <= live_remainingMs now t.
Proof. unfold live_remainingMs. lia. Qed.

(** One cycle takes a running timer to a running timer. *)
Lemma cycle_keeps_running (w : World) (k : string) (c : N * N) (t : Timer) :
  world_ok w = true -> stored w k = Some t -> status t = RUNNING ->
  world_ok (run (cycle k c) w) = true /\
  exists t', stored (run (cycle k c) w) k = Some t' /\ status t' = RUNNING.
Proof.
  intros H Hst Hs. split; [apply run_world_ok, H|].
  unfold cycle, run. cbn [fold_left].
  set (w1 := step (Advance (fst c)) w).
  assert (world_ok w1 = true) as H1 by apply step_world_ok, H.
  destruct (pause_step w1 k t H1 Hst Hs) as [Hp _].
  set (w2 := step (Pause k) w1) in *.
  assert (world_ok w2 = true) as H2 by apply step_world_ok, H1.
  set (w3 := step (Advance (snd c)) w2).
  assert (world_ok w3 = true) as H3 by apply step_world_ok, H2.
  destruct (resume_step w3 k _ H3 Hp eq_refl) as [Hr _].
  eexists. split; [exact Hr | reflexivity].
Qed.

Lemma cycles_keep_running (k : string) (cycles : list (N * N)) :
  forall (w : World) (t : Timer),
    world_ok w = true -> stored w k = Some t -> status t = RUNNING ->
    world_ok (run (concat (map (cycle k) cycles)) w) = true /\
    exists t', stored (run (concat (map (cycle k) cycles)) w) k = Some t' /\
               status t' = RUNNING.
Proof.
  induction cycles as [|c cycles IH]; intros w t H Hst Hs.
  - split; [exact H | eauto].
  - cbn [map concat]. unfold run. rewrite fold_left_app.
    fold (run (cycle k c) w).
    destruct (cycle_keeps_running w k c t H Hst Hs) as (H' & t' & Hst' & Hs').
    exact (IH _ t' H' Hst' Hs').
Qed.

(** C6.  A running timer is paused at some time and resumed at any later
    time, after any number of earlier pause and resume cycles: the
    remaining time that [get] computes right after the resume is the
    [remainingMs] written by the pause, which is also what [get] computes
    right before the pause. *)
Theorem pause_resume_preserves_remaining (w : World) (k : string) (t : Timer)
    (cycles : list (N * N)) (d1 d2 : N) :
  world_ok w = true -> stored w k = Some t -> status t = RUNNING ->
  let w0 := run (concat (map (cycle k) cycles)) w in
  let w1 := step (Advance d1) w0 in
  let w2 := step (Pause k) w1 in
  let w3 := step (Resume k) (step (Advance d2) w2) in
  exists (tp : Timer) (l1 l3 : loc) (t1 t3 : Timer),
    stored w2 k = Some tp /\ status tp = PAUSED /\
    eval (getTimer k) w1 = Ok (Some l1) /\
    heap (exec (getTimer k) w1) !! l1 = Some t1 /\
    status t1 = RUNNING /\ remainingMs t1 = remainingMs tp /\
    eval (getTimer k) w3 = Ok (Some l3) /\
    heap (exec (getTimer k) w3) !! l3 = Some t3 /\
    status t3 = RUNNING /\ remainingMs t3 = remainingMs tp.
Proof.
  intros H Hst Hs w0 w1 w2 w3.
  destruct (cycles_keep_running k cycles w t H Hst Hs)
    as (H0 & t0 & Hst0 & Hs0).
  fold w0 in H0, Hst0.
  assert (world_ok w1 = true) as H1 by apply step_world_ok, H0.
  assert (stored w1 k = Some t0) as Hst1 by exact Hst0.
  destruct (pause_step w1 k t0 H1 Hst1 Hs0) as [Hp Hm2]. fold w2 in Hp, Hm2.
  assert (world_ok w2 = true) as H2 by apply step_world_ok, H1.
  set (w2' := step (Advance d2) w2) in *.
  assert (world_ok w2' = true) as H2' by apply step_world_ok, H2.
  destruct (resume_step w2' k _ H2' Hp eq_refl) as [Hr Hm3]. fold w3 in Hr, Hm3.
  assert (world_ok w3 = true) as H3 by apply step_world_ok, H2'.
  pose proof (getTimer_running_result w1 k t0 H1 Hst1 Hs0) as Hg1.
  pose proof (getTimer_running_result w3 k _ H3 Hr eq_refl) as Hg3.
  exists (paused_at (mono w1) t0), (length (heap w1)), (length (heap w3)).
  eexists. eexists. unfold eval, exec. rewrite Hg1, Hg3. cbn [fst snd].
  split; [exact Hp|]. split; [reflexivity|].
  split; [reflexivity|]. split; [apply lookup_snoc|].
  split; [exact Hs0|]. split; [reflexivity|].
  split; [reflexivity|]. split; [apply lookup_snoc|].
  split; [reflexivity|].
  rewrite Hm3. pose proof (live_remainingMs_nonneg (mono w1) t0) as Hge.
  unfold live_remainingMs, resumed_at, paused_at in *.
  cbn [remainingMs set_remainingMs set_status set_paused set_durationMs
       set_startMonotonicMs durationMs startMonotonicMs].
  unfold live_remainingMs. lia.
Qed.

Lemma pause_resume_preserves_remaining_witness :
  world_ok w_running = true /\
  exists (tp : Timer) (l3 : loc) (t3 : Timer),
    let w2 := step (Pause "abc")
                (step (Advance 1000)
                   (run (concat (map (cycle "abc") [(500, 70000); (250, 1)]%N))
                        w_running)) in
    let w3 := step (Resume "abc") (step (Advance 100000) w2) in
    stored w2 "abc" = Some tp /\
    eval (getTimer "abc") w3 = Ok (Some l3) /\
    heap (exec (getTimer "abc") w3) !! l3 = Some t3 /\
    remainingMs t3 = remainingMs tp.
Proof.
  split; [reflexivity|].
  destruct (pause_resume_preserves_remaining w_running "abc"
              (mkTimer "abc" (Some "tea") 10000 0 false 10000 0 RUNNING)
              [(500, 70000); (250, 1)]%N 1000 100000 eq_refl eq_refl eq_refl)
    as (tp & l1 & l3 & t1 & t3 & Hp & _ & _ & _ & _ & _ & He3 & Hl3 & _ & Hr).
  exists tp, l3, t3. repeat split; assumption.
Defined.

(** ** The scheduler and the signal of its caller *)

Lemma scheduler_cancel_length (w : World) (k : string) :
  length (controllers (exec (NodeScheduler.cancel k) w))
  = length (controllers w).
Proof.
  unfold exec. rewrite scheduler_cancel_eq.
  destruct (JSMap.get k (scheduledTimers w)) as [c|]; [|reflexivity].
  pose proof (abort_length w c) as Ha. unfold exec in Ha.
  destruct (abort c w) as [[[]|e] w']; exact Ha.
Qed.

Lemma abort_suppresses (w : World) (c : nat) :
  sleeping_ok w = true -> (c < length (controllers w))%nat ->
  suppressed c (exec (abort c) w).
Proof.
  intros Hsl Hlt. rewrite sleeping_ok_In in Hsl. unfold exec.
  destruct (lookup_lt_is_Some_2 (controllers w) c Hlt) as [b Hb].
  rewrite (abort_eq w c b Hb). destruct b; cbn [snd]; split.
  - exact Hb.
  - intros s Hin Heq. specialize (Hsl s Hin). congruence.
  - simpl. apply list_lookup_insert_eq. exact Hlt.
  - simpl. intros s Hin Heq. apply In_filter_bool in Hin as [_ Hw].
    unfold waits_on in Hw. apply Nat.eqb_neq in Hw. contradiction.
Qed.

Lemma abort_keeps_suppressed (w : World) (c c' : nat) :
  suppressed c w -> suppressed c (exec (abort c') w).
Proof.
  intros [Hc Hs]. unfold exec.
  destruct (controllers w !! c') as [b|] eqn:Hb;
    [ rewrite (abort_eq w c' b Hb)
    | rewrite (abort_None w c' Hb); split; assumption ].
  destruct b; cbn [snd]; [split; assumption|]. split; simpl.
  - destruct (Nat.eq_dec c' c) as [->|Hne]; [congruence|].
    rewrite list_lookup_insert_ne by exact Hne. exact Hc.
  - intros s Hin. apply In_filter_bool in Hin as [Hin _]. exact (Hs s Hin).
Qed.

Lemma abort_all_keeps_suppressed (cs : list nat) (c : nat) :
  forall w, suppressed c w -> suppressed c (exec (abort_all cs) w).
Proof.
  induction cs as [|c' cs IH]; intros w H; [exact H|].
  unfold exec. cbn [abort_all]. rewrite bind_eq.
  pose proof (abort_keeps_suppressed w c c' H) as Ha. unfold exec in Ha.
  destruct (abort c' w) as [[[]|e] w']; cbn [snd] in *; [|exact Ha].
  apply IH, Ha.
Qed.

Lemma abort_all_suppresses (cs : list nat) (c : nat) :
  forall w, sched_ok w = true ->
            Forall (fun c => (c < length (controllers w))%nat) cs ->
            In c cs -> suppressed c (exec (abort_all cs) w).
Proof.
  induction cs as [|c' cs IH]; intros w H HF Hin; [contradiction|].
  apply Forall_cons in HF as [Hc' HF].
  unfold exec. cbn [abort_all]. rewrite bind_eq.
  rewrite (run_eq _ _ _ (abort_eval w c' Hc')).
  destruct Hin as [->|Hin].
  - apply abort_all_keeps_suppressed, abort_suppresses; [|exact Hc'].
    apply sched_ok_split in H as [_ H]. exact H.
  - apply IH; [apply abort_sched_ok, H | | exact Hin].
    eapply Forall_impl; [exact HF|]. intros c0 Hc0. simpl in *.
    rewrite abort_length. exact Hc0.
Qed.

Lemma table_values_valid (w : World) :
  table_ok w = true ->
  Forall (fun c => (c < length (controllers w))%nat)
         (JSMap.values (scheduledTimers w)).
Proof.
  intros Ht. rewrite table_ok_In in Ht. apply Forall_forall. intros c Hin.
  unfold JSMap.values in Hin. apply list_elem_of_In in Hin.
  apply in_map_iff in Hin as ([k c'] & <- & Hin). exact (Ht k c' Hin).
Qed.

(** The world after [schedule], from the world after its [cancel]. *)
Lemma schedule_world (w : World) (k : string) (due : Z) (cb : Callback)
    (signal : nat) :
  table_ok w = true ->
  exec (NodeScheduler.schedule k due cb signal) w
  = upd_sleeping
      (fun ss => ss ++ [mkSleep k (mono w + timeout_delay due)
                                (length (controllers w)) cb])
      (upd_scheduledTimers (JSMap.set k (length (controllers w)))
         (upd_controllers (fun cs => cs ++ [false])
            (exec (NodeScheduler.cancel k) w))).
Proof.
  intros Ht. unfold exec at 1. rewrite schedule_eq.
  rewrite (scheduler_cancel_ok w k Ht). cbn [snd].
  rewrite scheduler_cancel_length.
  rewrite (frame_mono _ _ (scheduler_cancel_frame w k)). reflexivity.
Qed.

(** C10.  [schedule] does not look at the signal of its caller: the
    world after the call is the same for every signal.  The wake-up waits
    on a controller made by the scheduler, registered in its table under
    the id.  Aborting the signal of the caller, or any controller but
    that one, leaves the wake-up pending and its controller not aborted,
    so that the wake-up runs the callback when its timeout expires.
    [cancel] of the id and [shutdown] abort the controller of the
    scheduler and suppress the wake-up. *)
Theorem schedule_ignores_caller_signal (w : World) (k : string) (due : Z)
    (cb : Callback) (signal : nat) :
  sched_ok w = true -> (signal < length (controllers w))%nat ->
  let own := length (controllers w) in
  let s := mkSleep k (mono w + timeout_delay due) own cb in
  let w1 := exec (NodeScheduler.schedule k due cb signal) w in
  (forall signal',
      NodeScheduler.schedule k due cb signal' w
      = NodeScheduler.schedule k due cb signal w) /\
  eval (NodeScheduler.schedule k due cb signal) w = Ok tt /\
  In s (sleeping w1) /\
  JSMap.get k (scheduledTimers w1) = Some own /\
  signal <> own /\
  (forall c, c <> own ->
             In s (sleeping (exec (abort c) w1)) /\
             controllers (exec (abort c) w1) !! own = Some false /\
             wake s (exec (abort c) w1)
             = (Ok tt,
                upd_scheduledTimers (JSMap.delete k)
                  (exec (run_callback cb) (exec (abort c) w1)))) /\
  suppressed own (exec (NodeScheduler.cancel k) w1) /\
  suppressed own (exec NodeScheduler.shutdown w1).
Proof.
  intros Hok Hsig own s w1.
  pose proof (proj1 (sched_ok_split w) Hok) as [Ht Hsl].
  assert (sched_ok w1 = true) as Hok1 by apply schedule_sched_ok, Hok.
  pose proof (proj1 (sched_ok_split w1) Hok1) as [Ht1 Hsl1].
  pose proof (schedule_world w k due cb signal Ht) as Hw1. fold w1 in Hw1.
  fold own in Hw1. fold s in Hw1.
  assert (In s (sleeping w1)) as Hin.
  { rewrite Hw1. simpl. apply in_app_iff. right. left. reflexivity. }
  assert (JSMap.get k (scheduledTimers w1) = Some own) as Hget.
  { rewrite Hw1. simpl. apply JSMapFacts.get_set_eq. }
  assert (controllers w1 !! own = Some false) as Hown.
  { rewrite sleeping_ok_In in Hsl1. exact (Hsl1 s Hin). }
  assert (own < length (controllers w1))%nat as Hlt
      by (eapply lookup_Some_lt, Hown).
  split; [reflexivity|].
  split;
    [unfold eval; rewrite (schedule_ok w k due cb signal Ht); reflexivity|].
  split; [exact Hin|]. split; [exact Hget|]. split; [unfold own; lia|].
  split; [|split].
  - intros c Hc.
    assert (In s (sleeping (exec (abort c) w1)) /\
            controllers (exec (abort c) w1) !! own = Some false)
      as [Hin' Hown'].
    { unfold exec. destruct (controllers w1 !! c) as [b|] eqn:Hb;
        [rewrite (abort_eq w1 c b Hb) | rewrite (abort_None w1 c Hb); auto].
      destruct b; cbn [snd]; [auto|]. simpl. split.
      - apply In_filter_bool. split; [exact Hin|].
        unfold waits_on. apply Nat.eqb_neq. simpl. congruence.
      - rewrite list_lookup_insert_ne by exact Hc. exact Hown. }
    split; [exact Hin'|]. split; [exact Hown'|].
    apply (wake_eq _ s). exact Hown'.
  - unfold exec. rewrite scheduler_cancel_eq, Hget.
    rewrite (run_eq _ _ _ (abort_eval w1 own Hlt)).
    pose proof (abort_suppresses w1 own Hsl1 Hlt) as [Hc Hs].
    split; simpl; assumption.
  - unfold exec. rewrite (scheduler_shutdown_eq w1 Ht1). cbn [snd].
    pose proof (abort_all_suppresses (JSMap.values (scheduledTimers w1)) own w1
                  Hok1 (table_values_valid w1 Ht1)
                  (JSMapFacts.In_values k own _ Hget)) as [Hc Hs].
    split; simpl; assumption.
Qed.

Lemma schedule_ignores_caller_signal_witness :
  sched_ok w_paused = true /\ (0 < length (controllers w_paused))%nat /\
  let w1 :=
    exec (NodeScheduler.schedule "abc" 6000 (CompleteTimer "abc") 0%nat)
         w_paused in
  In (mkSleep "abc" 10000 2%nat (CompleteTimer "abc"))
     (sleeping (exec (abort 0%nat) w1)) /\
  suppressed 2%nat (exec (NodeScheduler.cancel "abc") w1).
Proof.
  assert (sched_ok w_paused = true) as Hok by reflexivity.
  assert (0 < length (controllers w_paused))%nat as Hlt by (vm_compute; lia).
  split; [exact Hok|]. split; [exact Hlt|].
  destruct (schedule_ignores_caller_signal w_paused "abc" 6000
              (CompleteTimer "abc") 0%nat Hok Hlt)
    as (_ & _ & _ & _ & _ & Habort & Hcancel & _).
  split; [|exact Hcancel].
  apply (Habort 0%nat). vm_compute. lia.
Defined.

(** ** Scenarios *)

(** A timer of ten seconds is paused after four seconds, stays paused for
    a hundred seconds, is resumed and completes six seconds later, with
    one event per transition. *)
Example pause_resume_complete_scenario :
  let w := run [Create "0.abc" tea; Advance 4000; Pause "abc";
                Advance 100000; Resume "abc"; Advance 6000; Fire 3%nat;
                Fire 3%nat; Cancel "abc"] init in
  stored w_paused "abc"
  = Some (mkTimer "abc" (Some "tea") 10000 0 true 6000 0 PAUSED) /\
  stored (step (Advance 100000) w_paused) "abc" = stored w_paused "abc" /\
  stored w "abc"
  = Some (mkTimer "abc" (Some "tea") 6000 104000 false 0 0 COMPLETED) /\
  map ev_type (emitted w)
  = [TIMER_CREATED; TIMER_PAUSED; TIMER_RESUMED; TIMER_COMPLETED].
Proof. vm_compute. repeat split. Qed.

(** The wake-up of a canceled timer does not fire. *)
Example cancel_removes_wake_up :
  let w := run [Advance 6000; Fire 1%nat] w_canceled in
  sleeping w_canceled = [] /\
  map ev_type (emitted w) = [TIMER_CREATED; TIMER_CANCELED].
Proof. vm_compute. repeat split. Qed.

(** The controller that [create] makes for its call of [schedule] has no
    wake-up waiting on it: the timer completes after that controller was
    aborted. *)
Example abort_of_service_controller_scenario :
  let w := step (Create "0.abc" tea) init in
  let w' := run [Advance 10000; Fire 1%nat] (exec (abort 0%nat) w) in
  controllers w' = [true; false] /\
  stored w' "abc"
  = Some (mkTimer "abc" (Some "tea") 10000 0 false 0 0 COMPLETED).
Proof. vm_compute. repeat split. Qed.

(** A second expiry of the same timeout, or a second run of the callback,
    finds the timer completed and emits nothing. *)
Example completion_happens_once :
  stored w_completed "abc"
  = Some (mkTimer "abc" (Some "tea") 10000 0 false 0 0 COMPLETED) /\
  map ev_type (emitted w_completed) = [TIMER_CREATED; TIMER_COMPLETED] /\
  emitted (step (Fire 1%nat) w_completed) = emitted w_completed /\
  emitted (exec (completeTimer "abc") w_completed) = emitted w_completed.
Proof. vm_compute. repeat split. Qed.

Example parseDuration_examples :
  parseDuration (DString "2h30m") = Ok 9000000 /\
  parseDuration (DString "1D") = Ok 86400000 /\
  parseDuration (DString "45s") = Ok 45000 /\
  parseDuration (DString "1h 30m") = Ok 5400000 /\
  parseDuration (DString "12ms3") = Ok 720000 /\
  parseDuration (DString "10") = Throw (Error "Invalid duration format: 10") /\
  parseDuration (DNumber (-1)) = Ok (-1).
Proof. vm_compute. repeat split. Qed.

Example generateId_examples :
  generateId "0.i" = "i" /\ generateId "0" = "" /\
  generateId "0.4fzyo82mvyr8k9abc" = "4fzyo82mvyr8k".
Proof. vm_compute. repeat split. Qed.

(** * Further properties of the service *)

(** ** The three transitions of the guarded methods *)

Lemma guarded_call_runs (g : GuardedMethod) (w : World) (k : string)
    (t : Timer) :
  world_ok w = true -> stored w k = Some t -> applies g (Some t) = true ->
  exists W : World,
    method g k w
    = (Ok tt,
       upd_emitted
         (fun es => es ++ [mkEvent (event_of g) k (name t) (wall w)]) W) /\
    sched_frame (put_world w (record_after g (mono w) t)) W /\
    W = match g with
        | RESUME =>
            exec (NodeScheduler.schedule k (remainingMs t) (CompleteTimer k)
                    (length (controllers w)))
                 (upd_controllers (fun cs => cs ++ [false])
                    (put_world w (resumed_at (mono w) t)))
        | _ => exec (NodeScheduler.cancel k)
                    (put_world w (record_after g (mono w) t))
        end.
Proof.
  intros H Hst Hg. pose proof (world_ok_store w H) as Hok.
  pose proof (world_ok_table w H) as Ht.
  pose proof (stored_timer_ok w k t Hok Hst) as Hrec.
  apply stored_Some in Hst as (l & Hk & Hl). cbn [applies] in Hg.
  destruct g; cbn [method record_after event_of].
  - apply (reflect_iff _ _ (status_eqb_spec _ _)) in Hg.
    eexists. split; [|split; [|reflexivity]].
    + apply (pauseTimer_run w k l t Hk Hl Hg (timer_ok_running k t Hrec Hg) Ht).
    + apply scheduler_cancel_frame.
  - apply (reflect_iff _ _ (status_eqb_spec _ _)) in Hg.
    eexists. split; [|split; [|reflexivity]].
    + apply (resumeTimer_run w k l t Hk Hl Hg Ht).
    + apply create_frame.
  - apply negb_true_iff, orb_false_iff in Hg as [Hc1 Hc2].
    eexists. split; [|split; [|reflexivity]].
    + apply (cancelTimer_run w k l t Hk Hl); [| |exact Ht].
      * intros E. rewrite E in Hc1. discriminate.
      * intros E. rewrite E in Hc2. discriminate.
    + apply scheduler_cancel_frame.
Qed.

Lemma record_after_id (g : GuardedMethod) (now : Z) (t : Timer) :
  id (record_after g now t) = id t.
Proof. destruct g; reflexivity. Qed.

(** X27: a guarded method whose guard lets it act returns normally, replaces
    the record under its id by the record of the transition, leaves the
    record under every other id alone, emits the one event of the
    transition and does not touch the clocks. *)
Theorem guarded_call_transition (g : GuardedMethod) (w : World) (k : string)
    (t : Timer) :
  world_ok w = true -> stored w k = Some t -> applies g (Some t) = true ->
  eval (method g k) w = Ok tt /\
  (forall k', stored (exec (method g k) w) k'
              = if String.eqb k' k then Some (record_after g (mono w) t)
                else stored w k') /\
  emitted (exec (method g k) w)
  = emitted w ++ [mkEvent (event_of g) k (name t) (wall w)] /\
  mono (exec (method g k) w) = mono w /\
  wall (exec (method g k) w) = wall w.
Proof.
  intros H Hst Hg.
  destruct (guarded_call_runs g w k t H Hst Hg) as (W & E & Hf & _).
  unfold eval, exec. rewrite E. cbn [fst snd].
  pose proof (timer_ok_id k t (stored_timer_ok w k t (world_ok_store w H) Hst))
    as Hid.
  split; [reflexivity|]. split; [|split; [|split]].
  - intros k'. rewrite (stored_after_put w W _ _ (world_ok_store w H) Hf).
    rewrite record_after_id, Hid. reflexivity.
  - cbn [emitted upd_emitted]. rewrite (frame_emitted _ _ Hf). reflexivity.
  - cbn [mono upd_emitted]. apply (frame_mono _ _ Hf).
  - cbn [wall upd_emitted]. apply (frame_wall _ _ Hf).
Qed.

Lemma guarded_call_transition_witness :
  world_ok w_running = true /\
  stored (exec (pauseTimer "abc") w_running) "abc"
  = Some (mkTimer "abc" (Some "tea") 10000 0 true 6000 0 PAUSED).
Proof.
  split; [reflexivity|].
  destruct (guarded_call_transition PAUSE w_running "abc"
              (mkTimer "abc" (Some "tea") 10000 0 false 10000 0 RUNNING)
              eq_refl eq_refl eq_refl) as (_ & Hst & _).
  pose proof (Hst "abc") as E. cbn [method] in E. rewrite E. reflexivity.
Defined.

(** ** What the scheduler does for the service *)

(** [cancel] of a registered id aborts the controller of the registration
    and rejects the sleeps that wait on it; every other controller and
    every other sleep is as before, and the entry of the id is removed. *)
Lemma cancel_registered (w : World) (k : string) (c : nat) :
  sched_ok w = true -> JSMap.get k (scheduledTimers w) = Some c ->
  NodeScheduler.cancel k w = (Ok tt, exec (NodeScheduler.cancel k) w) /\
  suppressed c (exec (NodeScheduler.cancel k) w) /\
  (forall s, In s (sleeping w) -> sl_signal s <> c ->
             In s (sleeping (exec (NodeScheduler.cancel k) w))) /\
  (forall s, In s (sleeping (exec (NodeScheduler.cancel k) w)) ->
             In s (sleeping w)) /\
  (forall c', c' <> c ->
              controllers (exec (NodeScheduler.cancel k) w) !! c'
              = controllers w !! c') /\
  scheduledTimers (exec (NodeScheduler.cancel k) w)
  = JSMap.delete k (scheduledTimers w).
Proof.
  intros Hok Hk. pose proof (proj1 (sched_ok_split w) Hok) as [Ht Hsl].
  split; [apply scheduler_cancel_ok, Ht|].
  assert (c < length (controllers w))%nat as Hlt.
  { rewrite table_ok_In in Ht. apply (Ht k), JSMapFacts.get_In, Hk. }
  unfold exec. rewrite scheduler_cancel_eq, Hk.
  rewrite (run_eq _ _ _ (abort_eval w c Hlt)). cbn [snd].
  pose proof (abort_suppresses w c Hsl Hlt) as [Hc Hs].
  split; [split; assumption|].
  unfold exec. destruct (lookup_lt_is_Some_2 (controllers w) c Hlt) as [b Hb].
  rewrite (abort_eq w c b Hb). destruct b; cbn [snd]; simpl.
  - repeat split; auto.
  - split; [|split; [|split]].
    + intros s Hin Hne. apply In_filter_bool. split; [exact Hin|].
      unfold waits_on. apply Nat.eqb_neq, Hne.
    + intros s Hin. apply In_filter_bool in Hin as [Hin _]. exact Hin.
    + intros c' Hne. apply list_lookup_insert_ne. congruence.
    + reflexivity.
Qed.

(** [cancel] of an id without registration does nothing. *)
Lemma cancel_unregistered (w : World) (k : string) :
  JSMap.get k (scheduledTimers w) = None ->
  NodeScheduler.cancel k w = (Ok tt, w).
Proof. intros Hk. rewrite scheduler_cancel_eq, Hk. reflexivity. Qed.

(** X1: a pause or a cancel that takes effect suppresses the wake-up that
    is registered under the id, and no other one. *)
Theorem pause_and_cancel_suppress_wake_up (g : GuardedMethod) (w : World)
    (k : string) (t : Timer) (c : nat) :
  world_ok w = true -> stored w k = Some t -> applies g (Some t) = true ->
  g <> RESUME -> JSMap.get k (scheduledTimers w) = Some c ->
  suppressed c (exec (method g k) w) /\
  (forall s, In s (sleeping w) -> sl_signal s <> c ->
             In s (sleeping (exec (method g k) w))) /\
  (forall c', c' <> c ->
              controllers (exec (method g k) w) !! c' = controllers w !! c') /\
  scheduledTimers (exec (method g k) w) = JSMap.delete k (scheduledTimers w).
Proof.
  intros H Hst Hg Hne Hk.
  destruct (guarded_call_runs g w k t H Hst Hg) as (W & E & _ & HW).
  unfold exec. rewrite E. cbn [snd].
  assert (W = exec (NodeScheduler.cancel k)
                   (put_world w (record_after g (mono w) t))) as ->
      by (destruct g; [exact HW | contradiction | exact HW]).
  pose proof (proj1 (world_ok_split w) H) as [_ Hc].
  destruct (cancel_registered (put_world w (record_after g (mono w) t)) k c
              Hc Hk) as (_ & Hsup & Hkeep & _ & Hctl & Htab).
  split; [exact Hsup|]. split; [exact Hkeep|].
  split; [exact Hctl | exact Htab].
Qed.

Lemma pause_and_cancel_suppress_wake_up_witness :
  world_ok w_running = true /\
  suppressed 1%nat (exec (cancelTimer "abc") w_running) /\
  sleeping (exec (cancelTimer "abc") w_running) = [].
Proof.
  split; [reflexivity|]. split; [|reflexivity].
  assert (CANCEL <> RESUME) as Hne by discriminate.
  destruct (pause_and_cancel_suppress_wake_up CANCEL w_running "abc"
              (mkTimer "abc" (Some "tea") 10000 0 false 10000 0 RUNNING)
              1%nat eq_refl eq_refl eq_refl Hne eq_refl) as (Hs & _).
  exact Hs.
Defined.

(** [schedule] registers one wake-up for the id, due after the delay,
    waiting on a new controller that is not aborted; the registration it
    found under the id is suppressed, the other pending sleeps stay. *)
Lemma schedule_registers (w : World) (k : string) (due : Z) (cb : Callback)
    (signal : nat) :
  sched_ok w = true ->
  let own := length (controllers w) in
  let s := mkSleep k (mono w + timeout_delay due) own cb in
  let w1 := exec (NodeScheduler.schedule k due cb signal) w in
  In s (sleeping w1) /\
  JSMap.get k (scheduledTimers w1) = Some own /\
  controllers w1 !! own = Some false /\
  (forall c, JSMap.get k (scheduledTimers w) = Some c -> suppressed c w1) /\
  (forall s', In s' (sleeping w1) -> s' = s \/ In s' (sleeping w)) /\
  (forall s', In s' (sleeping w) ->
              JSMap.get k (scheduledTimers w) <> Some (sl_signal s') ->
              In s' (sleeping w1)).
Proof.
  intros Hok own s w1.
  pose proof (proj1 (sched_ok_split w) Hok) as [Ht Hsl].
  pose proof (schedule_world w k due cb signal Ht) as Hw1.
  fold w1 own s in Hw1.
  assert (length (controllers (exec (NodeScheduler.cancel k) w)) = own)
    as Hlen by apply scheduler_cancel_length.
  split; [rewrite Hw1; simpl; apply in_app_iff; right; left; reflexivity|].
  split; [rewrite Hw1; simpl; apply JSMapFacts.get_set_eq|].
  split; [rewrite Hw1; simpl; rewrite <- Hlen; apply lookup_snoc|].
  split; [|split].
  - intros c Hk.
    destruct (cancel_registered w k c Hok Hk) as (_ & [Hc Hs] & _).
    rewrite Hw1. split; simpl.
    + apply lookup_grown, Hc.
    + intros s' Hin. apply in_app_iff in Hin as [Hin|[<-|[]]].
      * apply Hs, Hin.
      * simpl. apply lookup_Some_lt in Hc. rewrite Hlen in Hc. lia.
  - intros s' Hin. rewrite Hw1 in Hin. simpl in Hin.
    apply in_app_iff in Hin as [Hin|[<-|[]]]; [right|left; reflexivity].
    destruct (JSMap.get k (scheduledTimers w)) as [c|] eqn:Hk.
    + destruct (cancel_registered w k c Hok Hk) as (_ & _ & _ & Hsub & _).
      apply Hsub, Hin.
    + unfold exec in Hin. rewrite (cancel_unregistered w k Hk) in Hin.
      exact Hin.
  - intros s' Hin Hne. rewrite Hw1. simpl. apply in_app_iff. left.
    destruct (JSMap.get k (scheduledTimers w)) as [c|] eqn:Hk.
    + destruct (cancel_registered w k c Hok Hk) as (_ & _ & Hkeep & _).
      apply Hkeep; [exact Hin | congruence].
    + unfold exec. rewrite (cancel_unregistered w k Hk). exact Hin.
Qed.

Lemma length_snoc_controllers (w : World) (x : Timer) :
  length (controllers (upd_controllers (fun cs => cs ++ [false])
                         (put_world w x)))
  = S (length (controllers w)).
Proof. simpl. rewrite length_app. simpl. lia. Qed.

(** X2: a resume that takes effect registers one wake-up for the timer, due
    after the remaining time of the paused record, on a new controller
    that is not aborted. *)
Theorem resume_registers_wake_up (w : World) (k : string) (t : Timer) :
  world_ok w = true -> stored w k = Some t -> status t = PAUSED ->
  let own := S (length (controllers w)) in
  let w' := exec (resumeTimer k) w in
  In (mkSleep k (mono w + timeout_delay (remainingMs t)) own (CompleteTimer k))
     (sleeping w') /\
  JSMap.get k (scheduledTimers w') = Some own /\
  controllers w' !! own = Some false /\
  (forall s, In s (sleeping w') -> sl_signal s = own \/ In s (sleeping w)).
Proof.
  intros H Hst Hs own w'.
  assert (applies RESUME (Some t) = true) as Hg
      by (cbn [applies]; rewrite Hs; reflexivity).
  destruct (guarded_call_runs RESUME w k t H Hst Hg) as (W & E & _ & HW).
  cbn [method] in E. unfold w', exec. rewrite E. cbn [snd]. subst W.
  pose proof (new_controller_after_put w H (resumed_at (mono w) t)) as Hok.
  destruct (schedule_registers _ k (remainingMs t) (CompleteTimer k)
              (length (controllers w)) Hok) as (Hin & Hget & Hctl & _ & Hsub & _).
  rewrite length_snoc_controllers in Hin, Hget, Hctl, Hsub.
  split; [exact Hin|]. split; [exact Hget|]. split; [exact Hctl|].
  intros s Hs'. destruct (Hsub s Hs') as [->|Hold]; [left; reflexivity|].
  right. exact Hold.
Qed.

Lemma resume_registers_wake_up_witness :
  world_ok w_paused = true /\
  In (mkSleep "abc" 10000 3%nat (CompleteTimer "abc"))
     (sleeping (exec (resumeTimer "abc") w_paused)).
Proof.
  split; [reflexivity|].
  destruct (resume_registers_wake_up w_paused "abc"
              (mkTimer "abc" (Some "tea") 10000 0 true 6000 0 PAUSED)
              eq_refl eq_refl eq_refl) as (Hin & _).
  exact Hin.
Defined.

(** The world in which an accepted [create] returns, before the promise
    reactions that the call has queued have run. *)
Lemma createTimer_registers (w : World) (rnd : string)
    (req : TimerCreateRequest) (d : Z) :
  world_ok w = true -> parseDuration (duration req) = Ok d ->
  let k := generateId rnd in
  let own := S (length (controllers w)) in
  let w' := exec (createTimer rnd req) w in
  In (mkSleep k (mono w + timeout_delay d) own (CompleteTimer k))
     (sleeping w') /\
  JSMap.get k (scheduledTimers w') = Some own /\
  controllers w' !! own = Some false /\
  (forall c, JSMap.get k (scheduledTimers w) = Some c -> suppressed c w') /\
  emitted w' = emitted w ++ [mkEvent TIMER_CREATED k (req_name req) (wall w)].
Proof.
  intros H Hp k own w'. unfold w', exec.
  rewrite (createTimer_run w rnd req d Hp (world_ok_table w H)). cbn [snd].
  pose proof (new_controller_after_put w H
                (new_timer w (generateId rnd) (req_name req) d)) as Hok.
  destruct (schedule_registers _ k d (CompleteTimer k)
              (length (controllers w)) Hok) as (Hin & Hget & Hctl & Hsup & _).
  rewrite length_snoc_controllers in Hin, Hget, Hctl.
  split; [exact Hin|]. split; [exact Hget|]. split; [exact Hctl|].
  split.
  - intros c Hc. apply (Hsup c Hc).
  - cbn [emitted upd_emitted].
    rewrite (frame_emitted _ _ (create_frame _ _ _ _ _ _)). reflexivity.
Qed.

(** ** Every change of a stored record is a transition *)

Lemma getTimer_unobservable (w : World) (k : string) :
  world_ok w = true -> unobservable w (exec (getTimer k) w).
Proof.
  intros H. pose proof (world_ok_store w H) as Hok. unfold exec.
  destruct (stored_cases w k Hok)
    as [[_ Hk]|(l & t & _ & Hk & Hl & _ & Hrun)].
  - rewrite (getTimer_missing w k Hk). apply unobservable_refl.
  - destruct (status_dec (status t) RUNNING) as [Hs|Hs].
    + rewrite (getTimer_running w k l t Hk Hl Hs (Hrun Hs)).
      apply unobservable_local, Hok.
    + rewrite (getTimer_other w k l t Hk Hl (or_introl Hs)).
      apply unobservable_local, Hok.
Qed.

Lemma unobservable_stored (w w' : World) (k : string) :
  unobservable w w' -> stored w' k = stored w k.
Proof. intros (_ & _ & H & _). apply H. Qed.

(** The world in which a wake-up runs its callback, and what the
    wake-up leaves behind. *)
Lemma fire_cases (w : World) (c : nat) :
  sched_ok w = true ->
  fire c w = (Ok tt, w) \/
  exists s : Sleep,
    In s (sleeping w) /\ sl_signal s = c /\ sl_due s <= mono w /\
    fire c w
    = (Ok tt,
       upd_scheduledTimers (JSMap.delete (sl_id s))
         (exec (run_callback (sl_callback s))
            (upd_sleeping (filter (fun s' => waits_on c s' = false)) w))).
Proof.
  intros Hok. unfold fire. rewrite bind_eq. unfold gets.
  rewrite bind_eq, performance_now_eq.
  destruct (filter (fun s => waits_on c s = true) (sleeping w))
    as [|s rest] eqn:Hf; [left; reflexivity|].
  assert (In s (sleeping w) /\ waits_on c s = true) as [Hin Hw].
  { apply In_filter_bool. rewrite Hf. left. reflexivity. }
  destruct (Z.leb_spec (sl_due s) (mono w)) as [Hdue|Hdue];
    [|left; reflexivity].
  right. exists s. split; [exact Hin|].
  split; [apply Nat.eqb_eq, Hw|]. split; [exact Hdue|].
  rewrite bind_eq. unfold modify. apply wake_eq. simpl.
  apply sched_ok_split in Hok as [_ Hsl]. rewrite sleeping_ok_In in Hsl.
  exact (Hsl s Hin).
Qed.

Lemma world_ok_drop_sleeps (w : World) (c : nat) :
  world_ok w = true ->
  world_ok (upd_sleeping (filter (fun s => waits_on c s = false)) w) = true.
Proof.
  intros H. apply world_ok_split in H as [Hs Hc]. apply world_ok_split.
  split; [exact Hs | apply sched_ok_drop_sleeps, Hc].
Qed.

Lemma completeTimer_stored (w : World) (k k' : string) :
  world_ok w = true ->
  stored (exec (completeTimer k) w) k' = stored w k' \/
  exists t, stored w k' = Some t /\ status t <> COMPLETED /\ k' = k /\
            stored (exec (completeTimer k) w) k' = Some (completed t).
Proof.
  intros H. destruct (completeTimer_effect w k H) as [_ Hc].
  destruct (stored w k) as [t|] eqn:Hst.
  - destruct (status_eqb_spec (status t) COMPLETED) as [Hs|Hs].
    + left. apply unobservable_stored, Hc.
    + destruct Hc as [Hall _]. rewrite Hall.
      destruct (String.eqb_spec k' k) as [->|Hne]; [|left; reflexivity].
      right. exists t. repeat split; assumption.
  - left. rewrite Hc. reflexivity.
Qed.

Lemma shutdown_store_empty (w : World) :
  world_ok w = true ->
  store_timers (exec (NodeScheduler.shutdown;; InMemoryTimerStore.close) w)
  = JSMap.empty.
Proof.
  intros H. unfold exec. rewrite bind_eq.
  rewrite (scheduler_shutdown_eq w (world_ok_table w H)). reflexivity.
Qed.

Lemma step_stored (a : Action) (w : World) (k : string) :
  world_ok w = true ->
  stored (step a w) k = stored w k \/
  (exists t', stored (step a w) k = Some t' /\
              transition (mono w) (wall w) k (stored w k) t') \/
  (a = Shutdown /\ stored (step a w) k = None).
Proof.
  intros H. pose proof (world_ok_store w H) as Hok.
  destruct a as [rnd req|k0|k0|k0|k0| |c|ms|date| ]; cbn [step];
    rewrite ?run_task_exec, ?stored_drain.
  - destruct (parseDuration (duration req)) as [d|e] eqn:Hp.
    + destruct (createTimer_accepted w rnd req d H Hp) as (_ & Hst & _).
      rewrite Hst. destruct (String.eqb_spec k (generateId rnd)) as [->|Hne];
        [|left; reflexivity].
      right. left. eexists. split; [reflexivity|]. apply T_create.
    + left. unfold exec. rewrite (createTimer_throw w rnd req e Hp).
      reflexivity.
  - left. apply unobservable_stored, getTimer_unobservable, H.
  - destruct (applies PAUSE (stored w k0)) eqn:Hg.
    + destruct (stored w k0) as [t|] eqn:Hst; [|discriminate].
      destruct (guarded_call_runs PAUSE w k0 t H Hst Hg) as (W & E & Hf & _).
      cbn [method] in E. unfold exec. rewrite E. cbn [snd].
      rewrite (stored_after_put w W _ _ Hok Hf). cbn [record_after].
      replace (id (paused_at (mono w) t)) with k0
        by (symmetry; apply (timer_ok_id k0 t (stored_timer_ok w k0 t Hok Hst))).
      destruct (String.eqb_spec k k0) as [->|Hne]; [|left; reflexivity].
      right. left. eexists. split; [reflexivity|]. rewrite Hst.
      apply T_pause. cbn [applies] in Hg.
      apply (reflect_iff _ _ (status_eqb_spec _ _)), Hg.
    + left. apply unobservable_stored.
      apply (skip_unobservable (pauseTimer k0) w Hok).
      apply (guarded_call_skips PAUSE w k0 H Hg).
  - destruct (applies RESUME (stored w k0)) eqn:Hg.
    + destruct (stored w k0) as [t|] eqn:Hst; [|discriminate].
      destruct (guarded_call_runs RESUME w k0 t H Hst Hg) as (W & E & Hf & _).
      cbn [method] in E. unfold exec. rewrite E. cbn [snd].
      rewrite (stored_after_put w W _ _ Hok Hf). cbn [record_after].
      replace (id (resumed_at (mono w) t)) with k0
        by (symmetry; apply (timer_ok_id k0 t (stored_timer_ok w k0 t Hok Hst))).
      destruct (String.eqb_spec k k0) as [->|Hne]; [|left; reflexivity].
      right. left. eexists. split; [reflexivity|]. rewrite Hst.
      apply T_resume. cbn [applies] in Hg.
      apply (reflect_iff _ _ (status_eqb_spec _ _)), Hg.
    + left. apply unobservable_stored.
      apply (skip_unobservable (resumeTimer k0) w Hok).
      apply (guarded_call_skips RESUME w k0 H Hg).
  - destruct (applies CANCEL (stored w k0)) eqn:Hg.
    + destruct (stored w k0) as [t|] eqn:Hst; [|discriminate].
      destruct (guarded_call_runs CANCEL w k0 t H Hst Hg) as (W & E & Hf & _).
      cbn [method] in E. unfold exec. rewrite E. cbn [snd].
      rewrite (stored_after_put w W _ _ Hok Hf). cbn [record_after].
      replace (id (canceled t)) with k0
        by (symmetry; apply (timer_ok_id k0 t (stored_timer_ok w k0 t Hok Hst))).
      destruct (String.eqb_spec k k0) as [->|Hne]; [|left; reflexivity].
      right. left. eexists. split; [reflexivity|]. rewrite Hst.
      cbn [applies] in Hg. apply negb_true_iff, orb_false_iff in Hg as [H1 H2].
      apply T_cancel; intros E'; rewrite E' in *; discriminate.
    + left. apply unobservable_stored.
      apply (skip_unobservable (cancelTimer k0) w Hok).
      apply (guarded_call_skips CANCEL w k0 H Hg).
  - left. destruct (listTimers_returns_persisted w H) as (ls & _ & _ & Hst).
    apply Hst.
  - pose proof (proj1 (world_ok_split w) H) as [_ Hc].
    destruct (fire_cases w c Hc) as [E|(s & _ & _ & _ & E)];
      unfold exec; rewrite E; cbn [snd]; [left; reflexivity|].
    destruct (sl_callback s) as [k0]. cbn [run_callback].
    change (stored (upd_scheduledTimers (JSMap.delete (sl_id s))
                      (exec (completeTimer k0)
                         (upd_sleeping
                            (filter (fun s' => waits_on c s' = false)) w))) k)
      with (stored (exec (completeTimer k0)
                      (upd_sleeping
                         (filter (fun s' => waits_on c s' = false)) w)) k).
    destruct (completeTimer_stored _ k0 k (world_ok_drop_sleeps w c H))
      as [E'|(t & Hst & Hs & -> & E')].
    + left. exact E'.
    + right. left. eexists. split; [exact E'|].
      change (stored w k0 = Some t) in Hst. rewrite Hst.
      apply T_complete, Hs.
  - left. reflexivity.
  - left. reflexivity.
  - right. right. split; [reflexivity|]. unfold stored.
    rewrite (shutdown_store_empty w H). reflexivity.
Qed.

Lemma run_snoc (actions : list Action) (a : Action) (w : World) :
  run (actions ++ [a]) w = step a (run actions w).
Proof. unfold run. rewrite fold_left_app. reflexivity. Qed.

Lemma reachable_step (a : Action) (w : World) :
  reachable w -> reachable (step a w).
Proof.
  intros [actions ->]. exists (actions ++ [a]). symmetry. apply run_snoc.
Qed.

Lemma transition_record_inv (now date : Z) (k : string) (before : option Timer)
    (t' : Timer) :
  (forall t, before = Some t -> record_inv k t) ->
  transition now date k before t' -> record_inv k t'.
Proof.
  intros Hb Ht. unfold record_inv.
  destruct Ht as [before nm d|t Hs|t Hs|t Hs1 Hs2|t Hs]; simpl.
  - split; [reflexivity|]. split; [discriminate|].
    split; [auto|]. split; discriminate.
  - destruct (Hb t eq_refl) as (Hid & _).
    split; [exact Hid|]. split; [discriminate|].
    split; [discriminate|]. split; [|discriminate].
    intros _. split; [reflexivity | apply live_remainingMs_nonneg].
  - destruct (Hb t eq_refl) as (Hid & _).
    split; [exact Hid|]. split; [discriminate|].
    split; [auto|]. split; discriminate.
  - destruct (Hb t eq_refl) as (Hid & _).
    split; [exact Hid|]. split; [discriminate|].
    split; [discriminate|]. split; discriminate.
  - destruct (Hb t eq_refl) as (Hid & _).
    split; [exact Hid|]. split; [discriminate|].
    split; [discriminate|]. split; [discriminate | reflexivity].
Qed.

Lemma run_record_inv (actions : list Action) :
  forall k t, stored (run actions init) k = Some t -> record_inv k t.
Proof.
  induction actions as [|a actions IH] using rev_ind; intros k t Hst.
  - discriminate.
  - rewrite run_snoc in Hst.
    destruct (step_stored a (run actions init) k
                (run_world_ok actions init eq_refl))
      as [E|[(t' & E & Ht)|(_ & E)]].
    + apply IH. congruence.
    + rewrite E in Hst. injection Hst as <-.
      eapply transition_record_inv; [|exact Ht]. intros t0 H0. apply IH, H0.
    + congruence.
Qed.

(** X4: in every world the service can reach, the record stored under an id
    carries that id, its status is not [CREATED], a running record is not
    flagged paused and has [remainingMs = durationMs], a paused record is
    flagged paused and has a [remainingMs] that is not negative, and a
    completed record has [remainingMs = 0]. *)
Theorem stored_records_are_consistent (w : World) (k : string) (t : Timer) :
  reachable w -> stored w k = Some t ->
  id t = k /\
  status t <> CREATED /\
  (status t = RUNNING -> paused t = false /\ remainingMs t = durationMs t) /\
  (status t = PAUSED -> paused t = true /\ 0 <= remainingMs t) /\
  (status t = COMPLETED -> remainingMs t = 0).
Proof. intros [actions ->] Hst. apply (run_record_inv actions k t Hst). Qed.

Lemma reachable_w_paused : reachable w_paused.
Proof.
  exists [Create "0.abc" tea; Advance 4000; Pause "abc"].
  vm_compute. reflexivity.
Defined.

Lemma stored_records_are_consistent_witness :
  reachable w_paused /\
  stored w_paused "abc"
  = Some (mkTimer "abc" (Some "tea") 10000 0 true 6000 0 PAUSED) /\
  (PAUSED = PAUSED -> true = true /\ 0 <= 6000).
Proof.
  split; [exact reachable_w_paused|]. split; [reflexivity|].
  destruct (stored_records_are_consistent w_paused "abc"
              (mkTimer "abc" (Some "tea") 10000 0 true 6000 0 PAUSED)
              reachable_w_paused eq_refl) as (_ & _ & _ & Hp & _).
  exact Hp.
Defined.

(** X5: whatever happens to a reachable service, the record under an id
    stays as it is or changes by one of the five transitions (create,
    pause, resume, cancel, complete), each from the statuses its guard
    admits; a shutdown alone removes records. *)
Theorem records_change_by_transitions (a : Action) (w : World) (k : string) :
  reachable w ->
  stored (step a w) k = stored w k \/
  (exists t', stored (step a w) k = Some t' /\
              transition (mono w) (wall w) k (stored w k) t') \/
  (a = Shutdown /\ stored (step a w) k = None).
Proof. intros Hr. apply step_stored, reachable_world_ok, Hr. Qed.

Lemma records_change_by_transitions_witness :
  reachable w_paused /\
  (stored (step (Resume "abc") w_paused) "abc" = stored w_paused "abc" \/
   (exists t', stored (step (Resume "abc") w_paused) "abc" = Some t' /\
               transition (mono w_paused) (wall w_paused) "abc"
                          (stored w_paused "abc") t') \/
   (Resume "abc" = Shutdown /\
    stored (step (Resume "abc") w_paused) "abc" = None)).
Proof.
  split; [exact reachable_w_paused|].
  apply (records_change_by_transitions (Resume "abc") w_paused "abc").
  exact reachable_w_paused.
Defined.

(** ** Reading the store *)

(** X6: [get] returns null for an id that the store does not hold, and for
    a timer that is not running it returns a copy of the record as it is
    stored, however much time has passed: the remaining time of a paused
    timer does not decay.  Nothing observable changes. *)
Theorem get_outside_running (w : World) (k : string) (ms : N) :
  world_ok w = true ->
  (forall t, stored w k = Some t -> status t <> RUNNING) ->
  let w1 := step (Advance ms) w in
  unobservable w1 (exec (getTimer k) w1) /\
  match stored w k with
  | None => eval (getTimer k) w1 = Ok None
  | Some t =>
      exists l, eval (getTimer k) w1 = Ok (Some l) /\
                heap w1 !! l = None /\
                heap (exec (getTimer k) w1) !! l = Some t
  end.
Proof.
  intros H Hnr w1.
  assert (world_ok w1 = true) as H1 by apply step_world_ok, H.
  split; [apply getTimer_unobservable, H1|].
  pose proof (world_ok_store w1 H1) as Hok.
  change (stored w k) with (stored w1 k) in *.
  destruct (stored_cases w1 k Hok)
    as [[Hst Hk]|(l & t & Hst & Hk & Hl & _ & _)]; rewrite Hst.
  - unfold eval. rewrite (getTimer_missing w1 k Hk). reflexivity.
  - exists (length (heap w1)). unfold eval, exec.
    rewrite (getTimer_other w1 k l t Hk Hl (or_introl (Hnr t Hst))).
    cbn [fst snd]. split; [reflexivity|]. split.
    + apply lookup_ge_None. lia.
    + apply lookup_snoc.
Qed.

Lemma get_outside_running_witness :
  world_ok w_paused = true /\
  exists l, eval (getTimer "abc") (step (Advance 100000) w_paused)
            = Ok (Some l) /\
            heap (exec (getTimer "abc") (step (Advance 100000) w_paused)) !! l
            = Some (mkTimer "abc" (Some "tea") 10000 0 true 6000 0 PAUSED).
Proof.
  split; [reflexivity|].
  assert (forall t, stored w_paused "abc" = Some t -> status t <> RUNNING)
    as Hnr by (intros t [= <-]; discriminate).
  destruct (get_outside_running w_paused "abc" 100000 eq_refl Hnr)
    as (_ & l & He & _ & Hl).
  exists l. split; assumption.
Defined.

Lemma unobservable_grown (w : World) (ts : list Timer) :
  store_ok w = true -> unobservable w (upd_heap (fun h => h ++ ts) w).
Proof.
  intros Hok. unfold unobservable. split; [reflexivity|]. split.
  - intros l t Hl. simpl. apply lookup_grown, Hl.
  - split; [|repeat split].
    apply (stored_heap_grown w _ ts Hok); reflexivity.
Qed.

Lemma lookup_seq_grown (ts : list Timer) :
  forall h : list Timer,
    map (fun l => (h ++ ts) !! l) (seq (length h) (length ts)) = map Some ts.
Proof.
  induction ts as [|t ts IH]; intros h; [reflexivity|].
  cbn [length seq map]. f_equal.
  - change (t :: ts) with ([t] ++ ts). rewrite app_assoc.
    apply lookup_grown, lookup_snoc.
  - specialize (IH (h ++ [t])). rewrite length_app in IH. cbn in IH.
    rewrite Nat.add_1_r in IH. rewrite <- app_assoc in IH. exact IH.
Qed.

(** X8: [list] returns one new object per record of the store, in the
    order in which the ids were first stored, each with the fields of the
    record as persisted; nothing observable changes. *)
Theorem list_returns_every_record (w : World) :
  world_ok w = true ->
  exists ls : list loc,
    eval listTimers w = Ok ls /\
    length ls = length (store_timers w) /\
    map (fun l => heap (exec listTimers w) !! l) ls = stored_all w /\
    (forall l, In l ls -> heap w !! l = None) /\
    unobservable w (exec listTimers w).
Proof.
  intros H. pose proof (world_ok_store w H) as Hok.
  destruct (store_values_live w Hok) as (ts & HF & Hall).
  assert (length (store_timers w) = length ts) as Hlen.
  { apply Forall2_length in HF. unfold JSMap.values in HF.
    rewrite length_map in HF. exact HF. }
  exists (seq (length (heap w)) (length (store_timers w))).
  unfold eval, exec. rewrite (listTimers_eq w ts HF). cbn [fst snd].
  split; [reflexivity|]. split; [apply length_seq|]. split; [|split].
  - rewrite Hall, Hlen. cbn [heap upd_heap]. apply lookup_seq_grown.
  - intros l Hin. apply in_seq in Hin. apply lookup_ge_None. lia.
  - apply unobservable_grown, Hok.
Qed.

Lemma list_returns_every_record_witness :
  world_ok w_paused = true /\
  exists ls, eval listTimers w_paused = Ok ls /\ length ls = 1%nat.
Proof.
  split; [reflexivity|].
  destruct (list_returns_every_record w_paused eq_refl)
    as (ls & He & Hlen & _).
  exists ls. split; [exact He | exact Hlen].
Defined.

(** ** The completion callback, again *)

(** X9: the completion callback is idempotent: whatever the store holds
    under the id, a second run right after the first changes nothing and
    emits nothing. *)
Theorem completion_is_idempotent (w : World) (k : string) :
  world_ok w = true ->
  let w1 := exec (completeTimer k) w in
  eval (completeTimer k) w1 = Ok tt /\
  unobservable w1 (exec (completeTimer k) w1).
Proof.
  intros H w1.
  assert (world_ok w1 = true) as H1 by apply completeTimer_world_ok, H.
  destruct (completeTimer_effect w1 k H1) as [He Hc]. split; [exact He|].
  assert (forall t, stored w1 k = Some t -> status t = COMPLETED) as Hdone.
  { intros t Hst. unfold w1 in Hst.
    destruct (completeTimer_effect w k H) as [_ Hc0].
    destruct (stored w k) as [t0|] eqn:Hst0.
    - destruct (status_eqb_spec (status t0) COMPLETED) as [Hs|Hs].
      + rewrite (unobservable_stored _ _ k Hc0), Hst0 in Hst. congruence.
      + destruct Hc0 as [Hall _]. rewrite Hall, String.eqb_refl in Hst.
        injection Hst as <-. reflexivity.
    - rewrite Hc0, Hst0 in Hst. discriminate. }
  destruct (stored w1 k) as [t|] eqn:Hst.
  - rewrite (Hdone t eq_refl) in Hc. exact Hc.
  - rewrite Hc. apply unobservable_refl.
Qed.

Lemma completion_is_idempotent_witness :
  world_ok w_running = true /\
  emitted (exec (completeTimer "abc") (exec (completeTimer "abc") w_running))
  = emitted (exec (completeTimer "abc") w_running).
Proof.
  split; [reflexivity|].
  destruct (completion_is_idempotent w_running "abc" eq_refl) as (_ & Hu).
  apply Hu.
Defined.

(** ** Events *)

Lemma shutdown_world (w : World) :
  world_ok w = true ->
  exec (NodeScheduler.shutdown;; InMemoryTimerStore.close) w
  = upd_store_timers (fun _ => JSMap.empty)
      (upd_scheduledTimers (fun _ => JSMap.empty)
         (exec (abort_all (JSMap.values (scheduledTimers w))) w)).
Proof.
  intros H. unfold exec at 1. rewrite bind_eq.
  rewrite (scheduler_shutdown_eq w (world_ok_table w H)). reflexivity.
Qed.

Lemma step_emitted (a : Action) (w : World) :
  world_ok w = true ->
  emitted (step a w) = emitted w \/
  exists (e : TimerEvent) (t' : Timer),
    emitted (step a w) = emitted w ++ [e] /\
    timestamp e = wall w /\
    stored (step a w) (ev_id e) = Some t' /\
    status t' = status_of_event (ev_type e) /\
    name t' = ev_name e.
Proof.
  intros H. pose proof (world_ok_store w H) as Hok.
  assert (forall (g : GuardedMethod) (k0 : string),
             emitted (exec (method g k0) w) = emitted w \/
             exists (e : TimerEvent) (t' : Timer),
               emitted (exec (method g k0) w) = emitted w ++ [e] /\
               timestamp e = wall w /\
               stored (exec (method g k0) w) (ev_id e) = Some t' /\
               status t' = status_of_event (ev_type e) /\
               name t' = ev_name e) as Hguarded.
  { intros g k0. destruct (applies g (stored w k0)) eqn:Hg.
    - destruct (stored w k0) as [t|] eqn:Hst; [|discriminate].
      destruct (guarded_call_runs g w k0 t H Hst Hg) as (W & E & Hf & _).
      right. exists (mkEvent (event_of g) k0 (name t) (wall w)).
      exists (record_after g (mono w) t). unfold exec. rewrite E. cbn [snd].
      split; [cbn [emitted upd_emitted];
              rewrite (frame_emitted _ _ Hf); reflexivity|].
      split; [reflexivity|]. split; [|split].
      + rewrite (stored_after_put w W _ _ Hok Hf). cbn [ev_id].
        rewrite record_after_id.
        rewrite (timer_ok_id k0 t (stored_timer_ok w k0 t Hok Hst)).
        rewrite String.eqb_refl. reflexivity.
      + destruct g; reflexivity.
      + destruct g; reflexivity.
    - left. destruct (skip_unobservable (method g k0) w Hok
                        (guarded_call_skips g w k0 H Hg)) as [_ Hu].
      apply Hu. }
  destruct a as [rnd req|k0|k0|k0|k0| |c|ms|date| ]; cbn [step];
    rewrite ?run_task_exec.
  - destruct (parseDuration (duration req)) as [d|e] eqn:Hp.
    + destruct (createTimer_accepted w rnd req d H Hp) as (_ & Hst & Hev).
      right. eexists. eexists. split; [exact Hev|]. split; [reflexivity|].
      split; [|split].
      * rewrite stored_drain, Hst. cbn [ev_id]. rewrite String.eqb_refl.
        reflexivity.
      * reflexivity.
      * reflexivity.
    + left. unfold exec. rewrite (createTimer_throw w rnd req e Hp).
      reflexivity.
  - left. apply (getTimer_unobservable w k0 H).
  - apply (Hguarded PAUSE k0).
  - apply (Hguarded RESUME k0).
  - apply (Hguarded CANCEL k0).
  - left. destruct (store_values_live w Hok) as (ts & HF & _).
    unfold exec. rewrite (listTimers_eq w ts HF). reflexivity.
  - pose proof (proj1 (world_ok_split w) H) as [_ Hc].
    destruct (fire_cases w c Hc) as [E|(s & _ & _ & _ & E)];
      unfold exec; rewrite E; cbn [snd]; [left; reflexivity|].
    destruct (sl_callback s) as [k0]. cbn [run_callback].
    set (W1 := upd_sleeping (filter (fun s' => waits_on c s' = false)) w).
    pose proof (world_ok_drop_sleeps w c H) as H1. fold W1 in H1.
    destruct (completeTimer_effect W1 k0 H1) as [_ Hc0].
    change (stored W1 k0) with (stored w k0) in Hc0.
    destruct (stored w k0) as [t|] eqn:Hst.
    + destruct (status_eqb_spec (status t) COMPLETED) as [Hs|Hs].
      * left. apply Hc0.
      * destruct Hc0 as [Hall Hev]. right.
        exists (mkEvent TIMER_COMPLETED k0 (name t) (wall w)).
        exists (set_remainingMs 0 (set_status COMPLETED t)).
        split; [exact Hev|]. split; [reflexivity|]. split; [|split].
        -- change (stored (exec (completeTimer k0) W1) k0
                   = Some (set_remainingMs 0 (set_status COMPLETED t))).
           rewrite Hall, String.eqb_refl. reflexivity.
        -- reflexivity.
        -- reflexivity.
    + left. change (emitted (exec (completeTimer k0) W1) = emitted w).
      rewrite Hc0. reflexivity.
  - left. reflexivity.
  - left. reflexivity.
  - left. rewrite (shutdown_world w H). cbn [emitted].
    apply (frame_emitted _ _ (abort_all_frame _ w)).
Qed.

(** X10: whatever happens to a reachable service, at most one event is
    emitted, after the events emitted before; the event carries the wall
    clock reading of the call, and the record stored under its id at that
    moment has the status the event reports and the name the event
    carries. *)
Theorem event_follows_persisted_transition (a : Action) (w : World) :
  reachable w ->
  emitted (step a w) = emitted w \/
  exists (e : TimerEvent) (t' : Timer),
    emitted (step a w) = emitted w ++ [e] /\
    timestamp e = wall w /\
    stored (step a w) (ev_id e) = Some t' /\
    status t' = status_of_event (ev_type e) /\
    name t' = ev_name e.
Proof. intros Hr. apply step_emitted, reachable_world_ok, Hr. Qed.

Lemma event_follows_persisted_transition_witness :
  reachable w_paused /\
  (emitted (step (Cancel "abc") w_paused) = emitted w_paused \/
   exists (e : TimerEvent) (t' : Timer),
     emitted (step (Cancel "abc") w_paused) = emitted w_paused ++ [e] /\
     timestamp e = wall w_paused /\
     stored (step (Cancel "abc") w_paused) (ev_id e) = Some t' /\
     status t' = status_of_event (ev_type e) /\
     name t' = ev_name e).
Proof.
  split; [exact reachable_w_paused|].
  apply (event_follows_persisted_transition (Cancel "abc") w_paused).
  exact reachable_w_paused.
Defined.

(** ** Shutdown *)

(** X11: a shutdown empties the table of the scheduler and the store,
    suppresses every wake-up that was registered in the table, and
    emits no event. *)
Theorem shutdown_clears_service (w : World) :
  world_ok w = true ->
  let w' := step Shutdown w in
  store_timers w' = [] /\
  scheduledTimers w' = [] /\
  microtasks w' = [] /\
  (forall k c, JSMap.get k (scheduledTimers w) = Some c -> suppressed c w') /\
  (forall s, In s (sleeping w') -> In s (sleeping w)) /\
  emitted w' = emitted w.
Proof.
  intros H w'. unfold w'. cbn [step]. rewrite run_task_exec.
  rewrite (shutdown_world w H).
  pose proof (proj1 (world_ok_split w) H) as [_ Hc].
  split; [reflexivity|]. split; [|split; [reflexivity|split; [|split]]].
  - cbn [drain_microtasks scheduledTimers upd_microtasks upd_scheduledTimers
         upd_store_timers].
    generalize (microtasks
                  (upd_store_timers (fun _ => JSMap.empty)
                     (upd_scheduledTimers (fun _ => JSMap.empty)
                        (exec (abort_all (JSMap.values (scheduledTimers w)))
                              w)))).
    intros ids. induction ids as [|i ids IH]; [reflexivity | exact IH].
  - intros k c Hk.
    exact (abort_all_suppresses (JSMap.values (scheduledTimers w)) c w Hc
             (table_values_valid w (world_ok_table w H))
             (JSMapFacts.In_values k c _ Hk)).
  - cbn [sleeping drain_microtasks upd_microtasks upd_scheduledTimers
         upd_store_timers].
    generalize (JSMap.values (scheduledTimers w)) as cs. clear.
    intros cs. revert w. induction cs as [|c cs IH]; intros w s Hin.
    + exact Hin.
    + unfold exec in Hin. cbn [abort_all] in Hin. rewrite bind_eq in Hin.
      destruct (controllers w !! c) as [b|] eqn:Hb.
      * rewrite (abort_eq w c b Hb) in Hin. destruct b.
        -- apply (IH w s Hin).
        -- apply IH in Hin. simpl in Hin.
           apply In_filter_bool in Hin as [Hin _]. exact Hin.
      * rewrite (abort_None w c Hb) in Hin. exact Hin.
  - cbn [emitted drain_microtasks upd_microtasks upd_scheduledTimers
         upd_store_timers].
    apply (frame_emitted _ _ (abort_all_frame _ w)).
Qed.

Lemma shutdown_clears_service_witness :
  world_ok w_running = true /\
  suppressed 1%nat (step Shutdown w_running) /\
  sleeping (step Shutdown w_running) = [].
Proof.
  split; [reflexivity|]. split; [|reflexivity].
  destruct (shutdown_clears_service w_running eq_refl)
    as (_ & _ & _ & Hs & _).
  apply (Hs "abc" 1%nat). reflexivity.
Defined.

(** ** Keys of a [JSMap] *)

Module JSMapKeys.
Section Keys.
Context {V : Type}.
Implicit Types (k : string) (v : V) (m : JSMap.t V).

Lemma In_keys k v m : In (k, v) m -> In k (JSMap.keys m).
Proof.
  intros H. unfold JSMap.keys. change k with (fst (k, v)). apply in_map, H.
Qed.

Lemma In_keys_set k k' v m :
  In k' (JSMap.keys (JSMap.set k v m)) -> k' = k \/ In k' (JSMap.keys m).
Proof.
  induction m as [|[k0 v0] m IH]; simpl.
  - intros [<-|[]]. left. reflexivity.
  - destruct (String.eqb_spec k k0) as [->|Hne]; simpl.
    + intros [<-|Hin]; auto.
    + intros [<-|Hin]; auto. destruct (IH Hin); auto.
Qed.

Lemma keys_set_present k v m :
  In k (JSMap.keys m) -> JSMap.keys (JSMap.set k v m) = JSMap.keys m.
Proof.
  induction m as [|[k0 v0] m IH]; simpl; [contradiction|].
  destruct (String.eqb_spec k k0) as [->|Hne]; simpl; [reflexivity|].
  intros [E|Hin]; [congruence|]. rewrite IH by exact Hin. reflexivity.
Qed.

Lemma NoDup_keys_set k v m :
  List.NoDup (JSMap.keys m) -> List.NoDup (JSMap.keys (JSMap.set k v m)).
Proof.
  induction m as [|[k0 v0] m IH]; simpl; intros Hnd.
  - constructor; [intros [] | constructor].
  - inversion Hnd as [|? ? Hnotin Hnd']; subst.
    destruct (String.eqb_spec k k0) as [->|Hne]; simpl.
    + constructor; assumption.
    + constructor; [|apply IH, Hnd'].
      intros Hin. apply In_keys_set in Hin as [E|Hin]; [congruence|].
      contradiction.
Qed.

Lemma In_keys_delete k k' m :
  In k' (JSMap.keys (JSMap.delete k m)) -> In k' (JSMap.keys m).
Proof.
  induction m as [|[k0 v0] m IH]; simpl; [tauto|].
  destruct (String.eqb k k0); simpl; [auto|].
  intros [<-|Hin]; auto.
Qed.

Lemma NoDup_keys_delete k m :
  List.NoDup (JSMap.keys m) -> List.NoDup (JSMap.keys (JSMap.delete k m)).
Proof.
  induction m as [|[k0 v0] m IH]; simpl; intros Hnd; [constructor|].
  inversion Hnd as [|? ? Hnotin Hnd']; subst.
  destruct (String.eqb k k0); simpl; [exact Hnd'|].
  constructor; [|apply IH, Hnd'].
  intros Hin. apply In_keys_delete in Hin. contradiction.
Qed.

(** In a map with distinct keys, [delete] leaves no entry of the key. *)
Lemma delete_removes_key k k' v m :
  List.NoDup (JSMap.keys m) -> In (k', v) (JSMap.delete k m) -> k' <> k.
Proof.
  induction m as [|[k0 v0] m IH]; simpl; intros Hnd Hin; [contradiction|].
  inversion Hnd as [|? ? Hnotin Hnd']; subst.
  destruct (String.eqb_spec k k0) as [->|Hne]; simpl in Hin.
  - intros ->. apply Hnotin. eapply In_keys, Hin.
  - destruct Hin as [[= <- <-]|Hin]; [congruence|].
    apply (IH Hnd' Hin).
Qed.

Lemma get_delete_same k m :
  List.NoDup (JSMap.keys m) -> JSMap.get k (JSMap.delete k m) = None.
Proof.
  intros Hnd. destruct (JSMap.get k (JSMap.delete k m)) as [v|] eqn:E;
    [|reflexivity].
  apply JSMapFacts.get_In in E.
  exfalso. exact (delete_removes_key k k v m Hnd E eq_refl).
Qed.

End Keys.
End JSMapKeys.

(** ** Registrations *)

Lemma NoDup_map_filter {A B : Type} (f : A -> B) (p : A -> bool) (b : bool)
    (l : list A) :
  List.NoDup (map f l) ->
  List.NoDup (map f (filter (fun x => p x = b) l)).
Proof.
  induction l as [|x l IH]; intros Hnd; [constructor|].
  inversion Hnd as [|? ? Hnotin Hnd']; subst.
  rewrite filter_cons. destruct (decide (p x = b)); [|apply IH, Hnd'].
  cbn [map]. constructor; [|apply IH, Hnd'].
  intros Hin. apply Hnotin. apply in_map_iff in Hin as (y & <- & Hy).
  apply In_filter_bool in Hy as [Hy _]. apply in_map, Hy.
Qed.

Lemma NoDup_signal_eq (l : list Sleep) (s s' : Sleep) :
  List.NoDup (map sl_signal l) -> In s l -> In s' l ->
  sl_signal s = sl_signal s' -> s = s'.
Proof.
  induction l as [|x l IH]; intros Hnd Hs Hs' E; [contradiction|].
  inversion Hnd as [|? ? Hnotin Hnd']; subst.
  destruct Hs as [<-|Hs], Hs' as [<-|Hs'].
  - reflexivity.
  - exfalso. apply Hnotin. rewrite E. apply in_map, Hs'.
  - exfalso. apply Hnotin. rewrite <- E. apply in_map, Hs.
  - apply IH; assumption.
Qed.

(** Dropping the sleeps that wait on [c] together with the entry of [k],
    when the entry of [k] holds [c], keeps the registrations in order. *)
Lemma registrations_drop (w : World) (k : string) (c : nat)
    (sl : list Sleep) (tb : JSMap.t nat) :
  registrations_ok w ->
  (forall s, In s (sleeping w) -> sl_signal s = c -> sl_id s = k) ->
  sl = filter (fun s => waits_on c s = false) (sleeping w) ->
  tb = JSMap.delete k (scheduledTimers w) ->
  registrations_ok
    (upd_sleeping (fun _ => sl) (upd_scheduledTimers (fun _ => tb) w)).
Proof.
  intros (Hnd & Hcb & Hkeys & Hbehind) Hck -> ->.
  unfold registrations_ok. simpl. split; [|split; [|split]].
  - apply NoDup_map_filter, Hnd.
  - intros s Hin. apply In_filter_bool in Hin as [Hin _]. apply Hcb, Hin.
  - apply JSMapKeys.NoDup_keys_delete, Hkeys.
  - intros k' c' Hin.
    pose proof (JSMapKeys.delete_removes_key k k' c' _ Hkeys Hin) as Hne.
    apply JSMapFacts.In_delete in Hin.
    destruct (Hbehind k' c' Hin) as (s & Hs & Hsig & Hid).
    exists s. split; [|split; assumption].
    apply In_filter_bool. split; [exact Hs|].
    unfold waits_on. apply Nat.eqb_neq. intros E.
    apply Hne. rewrite <- Hid. apply Hck; [exact Hs | exact E].
Qed.

Lemma registrations_ok_same (w w' : World) :
  sleeping w' = sleeping w -> scheduledTimers w' = scheduledTimers w ->
  registrations_ok w -> registrations_ok w'.
Proof. unfold registrations_ok. intros -> ->. tauto. Qed.

Lemma filter_all_false {A : Type} (p : A -> bool) (l : list A) :
  (forall x, In x l -> p x = false) -> filter (fun x => p x = false) l = l.
Proof.
  induction l as [|x l IH]; intros H; [reflexivity|].
  rewrite filter_cons. destruct (decide (p x = false)) as [_|Hn].
  - f_equal. apply IH. intros y Hy. apply H. right. exact Hy.
  - exfalso. apply Hn, H. left. reflexivity.
Qed.

Lemma cancel_registrations (w : World) (k : string) :
  sched_ok w = true -> registrations_ok w ->
  registrations_ok (exec (NodeScheduler.cancel k) w).
Proof.
  intros Hok Hreg. pose proof (proj1 (sched_ok_split w) Hok) as [Ht Hsl].
  destruct (JSMap.get k (scheduledTimers w)) as [c|] eqn:Hk.
  - assert (forall s, In s (sleeping w) -> sl_signal s = c -> sl_id s = k)
      as Hck.
    { intros s Hs Hsig. destruct Hreg as (Hnd & _ & _ & Hbehind).
      destruct (Hbehind k c (JSMapFacts.get_In _ _ _ Hk))
        as (s0 & Hs0 & Hsig0 & Hid0).
      rewrite (NoDup_signal_eq _ s s0 Hnd Hs Hs0); congruence. }
    assert (c < length (controllers w))%nat as Hlt.
    { rewrite table_ok_In in Ht. apply (Ht k), JSMapFacts.get_In, Hk. }
    destruct (lookup_lt_is_Some_2 (controllers w) c Hlt) as [b Hb].
    unfold exec. rewrite scheduler_cancel_eq, Hk, (abort_eq w c b Hb).
    cbn [snd].
    eapply registrations_ok_same;
      [| | apply (registrations_drop w k c _ _ Hreg Hck eq_refl eq_refl)].
    + destruct b; simpl; [|reflexivity].
      symmetry. apply filter_all_false. intros s Hs.
      unfold waits_on. apply Nat.eqb_neq. intros E.
      rewrite sleeping_ok_In in Hsl. specialize (Hsl s Hs). congruence.
    + destruct b; reflexivity.
  - unfold exec. rewrite (cancel_unregistered w k Hk). exact Hreg.
Qed.

Lemma schedule_registrations (w : World) (k : string) (due : Z)
    (signal : nat) :
  sched_ok w = true -> registrations_ok w ->
  registrations_ok (exec (NodeScheduler.schedule k due (CompleteTimer k) signal) w).
Proof.
  intros Hok Hreg. pose proof (proj1 (sched_ok_split w) Hok) as [Ht _].
  rewrite (schedule_world w k due _ signal Ht).
  pose proof (cancel_registrations w k Hok Hreg) as (Hnd & Hcb & Hkeys & Hbeh).
  pose proof (scheduler_cancel_sched_ok w k Hok) as Hok1.
  pose proof (scheduler_cancel_length w k) as Hlen.
  apply sched_ok_split in Hok1 as [_ Hsl1]. rewrite sleeping_ok_In in Hsl1.
  set (w1 := exec (NodeScheduler.cancel k) w) in *.
  unfold registrations_ok. simpl. split; [|split; [|split]].
  - rewrite map_app. simpl. apply List.NoDup_app; [exact Hnd| |].
    + constructor; [intros []|constructor].
    + intros c Hin [<-|[]]. apply in_map_iff in Hin as (s & Hsig & Hs).
      apply Hsl1, lookup_Some_lt in Hs. lia.
  - intros s Hin. apply in_app_iff in Hin as [Hin|[<-|[]]];
      [apply Hcb, Hin | reflexivity].
  - apply JSMapKeys.NoDup_keys_set, Hkeys.
  - intros k' c' Hin. apply JSMapFacts.In_set in Hin as [[= -> ->]|Hin].
    + eexists. split; [apply in_app_iff; right; left; reflexivity|].
      split; reflexivity.
    + destruct (Hbeh k' c' Hin) as (s & Hs & Hsig & Hid).
      exists s. split; [apply in_app_iff; left; exact Hs|].
      split; assumption.
Qed.

Lemma drain_registrations (w : World) :
  registrations_ok w -> registrations_ok (drain_microtasks w).
Proof.
  intros (Hnd & Hcb & Hkeys & Hbeh). unfold registrations_ok. simpl.
  split; [exact Hnd|]. split; [exact Hcb|].
  generalize (microtasks w) as ids. intros ids.
  revert Hkeys Hbeh. generalize (scheduledTimers w) as tb.
  induction ids as [|i ids IH]; intros tb Hkeys Hbeh; [split; assumption|].
  cbn [run_rejected]. apply IH.
  - apply JSMapKeys.NoDup_keys_delete, Hkeys.
  - intros k c Hin. apply Hbeh. eapply JSMapFacts.In_delete, Hin.
Qed.

(** The methods of the service touch the scheduler through [cancel] and
    [schedule] only. *)
Lemma completeTimer_scheduler (w : World) (k : string) :
  world_ok w = true ->
  sleeping (exec (completeTimer k) w) = sleeping w /\
  scheduledTimers (exec (completeTimer k) w) = scheduledTimers w /\
  microtasks (exec (completeTimer k) w) = microtasks w /\
  controllers (exec (completeTimer k) w) = controllers w.
Proof.
  intros H. pose proof (world_ok_store w H) as Hok. unfold exec.
  destruct (stored_cases w k Hok)
    as [[_ Hk]|(l & t & _ & Hk & Hl & _ & _)].
  - rewrite (completeTimer_missing w k Hk). repeat split.
  - destruct (status_dec (status t) COMPLETED) as [Hs|Hs].
    + rewrite (completeTimer_skip w k l t Hk Hl Hs). repeat split.
    + rewrite (completeTimer_run w k l t Hk Hl Hs). repeat split.
Qed.

Lemma fire_registrations (w : World) (c : nat) :
  world_ok w = true -> registrations_ok w ->
  registrations_ok (exec (fire c) w).
Proof.
  intros H Hreg. pose proof (proj1 (world_ok_split w) H) as [_ Hc].
  destruct (fire_cases w c Hc) as [E|(s & Hs & Hsig & _ & E)];
    unfold exec; rewrite E; cbn [snd]; [exact Hreg|].
  set (W1 := upd_sleeping (filter (fun s' => waits_on c s' = false)) w).
  destruct (sl_callback s) as [k0]. cbn [run_callback].
  destruct (completeTimer_scheduler W1 k0 (world_ok_drop_sleeps w c H))
    as (Esl & Etb & _ & _).
  assert (forall s', In s' (sleeping w) -> sl_signal s' = c ->
                     sl_id s' = sl_id s) as Hck.
  { intros s' Hs' Hsig'. destruct Hreg as (Hnd & _).
    rewrite (NoDup_signal_eq _ s' s Hnd Hs' Hs); congruence. }
  eapply registrations_ok_same;
    [| | apply (registrations_drop w (sl_id s) c _ _ Hreg Hck eq_refl eq_refl)].
  - simpl. rewrite Esl. reflexivity.
  - simpl. rewrite Etb. reflexivity.
Qed.

Lemma abort_all_sleeping (cs : list nat) :
  forall w, exists p : Sleep -> bool,
    sleeping (exec (abort_all cs) w)
    = filter (fun s => p s = false) (sleeping w).
Proof.
  induction cs as [|c cs IH]; intros w.
  - exists (fun _ => false). symmetry. apply filter_all_false. reflexivity.
  - unfold exec. cbn [abort_all]. rewrite bind_eq.
    destruct (controllers w !! c) as [b|] eqn:Hb.
    + rewrite (abort_eq w c b Hb). destruct b.
      * apply IH.
      * destruct (IH (upd_microtasks
                        (fun q => q ++ map sl_id
                           (filter (fun s => waits_on c s = true) (sleeping w)))
                        (upd_sleeping (filter (fun s => waits_on c s = false))
                           (upd_controllers (fun cs => <[c := true]> cs) w))))
          as [p Hp].
        exists (fun s => waits_on c s || p s). unfold exec in Hp. rewrite Hp.
        simpl. clear. induction (sleeping w) as [|s l IHl]; [reflexivity|].
        rewrite !filter_cons.
        destruct (decide (waits_on c s = false)) as [E|E].
        -- rewrite filter_cons, E. simpl.
           destruct (decide (p s = false)); rewrite IHl; reflexivity.
        -- apply not_false_is_true in E. rewrite E. simpl.
           destruct (decide (true = false)); [discriminate|]. exact IHl.
    + rewrite (abort_None w c Hb). cbn [snd].
      exists (fun _ => false). symmetry. apply filter_all_false. reflexivity.
Qed.

(** ** Pending wake-ups in reachable worlds *)

Lemma method_registrations (g : GuardedMethod) (w : World) (k : string) :
  world_ok w = true -> registrations_ok w ->
  registrations_ok (exec (method g k) w).
Proof.
  intros H Hreg. pose proof (proj1 (world_ok_split w) H) as [_ Hc].
  destruct (applies g (stored w k)) eqn:Hg.
  - destruct (stored w k) as [t|] eqn:Hst; [|discriminate].
    destruct (guarded_call_runs g w k t H Hst Hg) as (W & E & _ & ->).
    unfold exec. rewrite E. cbn [snd].
    eapply registrations_ok_same; [reflexivity | reflexivity |].
    destruct g.
    + apply cancel_registrations; [exact Hc | exact Hreg].
    + apply schedule_registrations; [|exact Hreg].
      apply (new_AbortController_sched_ok (put_world w (resumed_at (mono w) t))).
      exact Hc.
    + apply cancel_registrations; [exact Hc | exact Hreg].
  - unfold exec.
    destruct (guarded_call_skips g w k H Hg) as [E|[t E]]; rewrite E;
      exact Hreg.
Qed.

Lemma shutdown_registrations (w : World) :
  world_ok w = true -> registrations_ok w ->
  registrations_ok (exec (NodeScheduler.shutdown;; InMemoryTimerStore.close) w).
Proof.
  intros H (Hnd & Hcb & _ & _). rewrite (shutdown_world w H).
  destruct (abort_all_sleeping (JSMap.values (scheduledTimers w)) w)
    as [p Hp].
  unfold registrations_ok. simpl. rewrite Hp.
  split; [apply NoDup_map_filter, Hnd|].
  split; [|split; [constructor | intros k c []]].
  intros s Hs. apply Hcb. apply list_elem_of_In in Hs.
  apply list_elem_of_In. apply list_elem_of_filter in Hs. apply Hs.
Qed.

Lemma step_registrations (a : Action) (w : World) :
  world_ok w = true -> registrations_ok w -> registrations_ok (step a w).
Proof.
  intros H Hreg. pose proof (proj1 (world_ok_split w) H) as [_ Hc].
  destruct a as [rnd req|k0|k0|k0|k0| |c|ms|date| ]; cbn [step];
    rewrite ?run_task_exec; try apply drain_registrations.
  - unfold exec. destruct (parseDuration (duration req)) as [d|e] eqn:Hp.
    + rewrite (createTimer_run w rnd req d Hp (world_ok_table w H)).
      cbn [snd]. eapply registrations_ok_same; [reflexivity | reflexivity |].
      apply schedule_registrations; [|exact Hreg].
      apply (new_AbortController_sched_ok
               (put_world w (new_timer w (generateId rnd) (req_name req) d))).
      exact Hc.
    + rewrite (createTimer_throw w rnd req e Hp). exact Hreg.
  - destruct (getTimer_unobservable w k0 H)
      as (_ & _ & _ & _ & _ & Et & Es & _).
    apply (registrations_ok_same w _ Es Et Hreg).
  - apply (method_registrations PAUSE w k0 H Hreg).
  - apply (method_registrations RESUME w k0 H Hreg).
  - apply (method_registrations CANCEL w k0 H Hreg).
  - unfold exec.
    destruct (store_values_live w (world_ok_store w H)) as (ts & HF & _).
    rewrite (listTimers_eq w ts HF). exact Hreg.
  - apply fire_registrations; assumption.
  - exact Hreg.
  - exact Hreg.
  - apply shutdown_registrations; assumption.
Qed.

Lemma reachable_induction (P : World -> Prop) :
  P init ->
  (forall a w, reachable w -> P w -> P (step a w)) ->
  forall w, reachable w -> P w.
Proof.
  intros H0 Hstep w [actions ->].
  induction actions as [|a actions IH] using rev_ind; [exact H0|].
  rewrite run_snoc. apply Hstep; [eexists; reflexivity | exact IH].
Qed.

Lemma reachable_registrations (w : World) :
  reachable w -> registrations_ok w.
Proof.
  revert w. apply reachable_induction.
  - unfold registrations_ok. simpl.
    split; [constructor|]. split; [intros s []|].
    split; [constructor | intros k c []].
  - intros a w Hr IH. apply step_registrations;
      [apply reachable_world_ok, Hr | exact IH].
Qed.

(** Between two tasks no promise reaction is left in the queue. *)
Lemma step_microtasks (a : Action) (w : World) :
  microtasks w = [] -> microtasks (step a w) = [].
Proof. intros H. destruct a; cbn [step]; rewrite ?run_task_exec; auto. Qed.

Lemma reachable_microtasks (w : World) : reachable w -> microtasks w = [].
Proof.
  revert w. apply reachable_induction; [reflexivity|].
  intros a w _ IH. apply step_microtasks, IH.
Qed.

(** ** Wake-ups that fire *)

Lemma fire_due (w : World) (s : Sleep) :
  sched_ok w = true -> List.NoDup (map sl_signal (sleeping w)) ->
  In s (sleeping w) -> sl_due s <= mono w ->
  fire (sl_signal s) w
  = (Ok tt,
     upd_scheduledTimers (JSMap.delete (sl_id s))
       (exec (run_callback (sl_callback s))
          (upd_sleeping
             (filter (fun s' => waits_on (sl_signal s) s' = false)) w))).
Proof.
  intros Hok Hnd Hin Hdue. unfold fire. rewrite bind_eq. unfold gets.
  rewrite bind_eq, performance_now_eq.
  destruct (filter (fun s' => waits_on (sl_signal s) s' = true) (sleeping w))
    as [|s0 rest] eqn:Hf.
  - exfalso.
    assert (In s (filter (fun s' => waits_on (sl_signal s) s' = true)
                    (sleeping w))) as Hs.
    { apply In_filter_bool. split; [exact Hin | apply Nat.eqb_refl]. }
    rewrite Hf in Hs. contradiction.
  - assert (In s0 (sleeping w) /\ waits_on (sl_signal s) s0 = true)
      as [Hin0 Hw].
    { apply In_filter_bool. rewrite Hf. left. reflexivity. }
    assert (s0 = s) as ->.
    { apply (NoDup_signal_eq _ s0 s Hnd Hin0 Hin), Nat.eqb_eq, Hw. }
    destruct (Z.leb_spec (sl_due s) (mono w)) as [_|Hlt]; [|lia].
    rewrite bind_eq. unfold modify. apply wake_eq. simpl.
    apply sched_ok_split in Hok as [_ Hsl]. rewrite sleeping_ok_In in Hsl.
    exact (Hsl s Hin).
Qed.

Lemma reachable_w_running : reachable w_running.
Proof.
  exists [Create "0.abc" tea; Advance 4000]. reflexivity.
Defined.

Lemma reachable_w_due : reachable (run [Advance 6000] w_running).
Proof.
  exists [Create "0.abc" tea; Advance 4000; Advance 6000].
  vm_compute. reflexivity.
Defined.

(** X12: in a reachable service every entry of the scheduler's table has
    its wake-up: a pending sleep of that id that waits on the entry's
    controller, whose callback completes that id, and whose controller
    has not been aborted. *)
Theorem table_entry_has_pending_wake_up (w : World) (k : string) (c : nat) :
  reachable w -> JSMap.get k (scheduledTimers w) = Some c ->
  exists s : Sleep,
    In s (sleeping w) /\ sl_id s = k /\ sl_signal s = c /\
    sl_callback s = CompleteTimer k /\
    controllers w !! c = Some false /\
    (forall s', In s' (sleeping w) -> sl_signal s' = c -> s' = s).
Proof.
  intros Hr Hk. pose proof (reachable_world_ok w Hr) as H.
  destruct (reachable_registrations w Hr) as (Hnd & Hcb & _ & Hbeh).
  destruct (Hbeh k c (JSMapFacts.get_In _ _ _ Hk)) as (s & Hs & Hsig & Hid).
  exists s. split; [exact Hs|]. split; [exact Hid|]. split; [exact Hsig|].
  split; [rewrite (Hcb s Hs), Hid; reflexivity|]. split.
  - apply world_ok_split in H as [_ Hc].
    apply sched_ok_split in Hc as [_ Hsl]. rewrite sleeping_ok_In in Hsl.
    rewrite <- Hsig. exact (Hsl s Hs).
  - intros s' Hs' Hsig'. apply (NoDup_signal_eq _ s' s Hnd Hs' Hs). congruence.
Qed.

Lemma table_entry_has_pending_wake_up_witness :
  reachable w_running /\
  JSMap.get "abc" (scheduledTimers w_running) = Some 1%nat /\
  exists s : Sleep,
    In s (sleeping w_running) /\ sl_id s = "abc" /\ sl_signal s = 1%nat /\
    sl_callback s = CompleteTimer "abc" /\
    controllers w_running !! 1%nat = Some false /\
    (forall s', In s' (sleeping w_running) -> sl_signal s' = 1%nat -> s' = s).
Proof.
  split; [exact reachable_w_running|]. split; [reflexivity|].
  apply (table_entry_has_pending_wake_up w_running "abc" 1%nat
           reachable_w_running eq_refl).
Defined.

(** X13: when the timeout of a pending wake-up expires at or after its due
    time in a reachable service, and the store holds a record under the
    wake-up's id that is not completed, the callback runs: the record
    becomes the completed one (status COMPLETED, remainingMs 0), no
    other record changes, exactly one [completed] event is emitted, the
    wake-up is no longer pending and the table has no entry for the id. *)
Theorem due_wake_up_completes_timer (w : World) (s : Sleep) (t : Timer) :
  reachable w -> In s (sleeping w) -> sl_due s <= mono w ->
  stored w (sl_id s) = Some t -> status t <> COMPLETED ->
  let w' := step (Fire (sl_signal s)) w in
  (forall k, stored w' k
             = if String.eqb k (sl_id s) then Some (completed t)
               else stored w k) /\
  emitted w'
  = emitted w ++ [mkEvent TIMER_COMPLETED (sl_id s) (name t) (wall w)] /\
  (forall s', In s' (sleeping w') <-> In s' (sleeping w) /\ s' <> s) /\
  scheduledTimers w' = JSMap.delete (sl_id s) (scheduledTimers w).
Proof.
  intros Hr Hs Hdue Hst Hnc w'. pose proof (reachable_world_ok w Hr) as H.
  pose proof (proj1 (world_ok_split w) H) as [_ Hc].
  destruct (reachable_registrations w Hr) as (Hnd & Hcb & _ & _).
  pose proof (reachable_microtasks w Hr) as Hmt.
  set (W1 := upd_sleeping
               (filter (fun s' => waits_on (sl_signal s) s' = false)) w).
  assert (w' = drain_microtasks
                 (upd_scheduledTimers (JSMap.delete (sl_id s))
                    (exec (completeTimer (sl_id s)) W1))) as ->.
  { unfold w'. cbn [step]. rewrite run_task_exec. unfold exec at 1.
    rewrite (fire_due w s Hc Hnd Hs Hdue), (Hcb s Hs). reflexivity. }
  pose proof (world_ok_drop_sleeps w (sl_signal s) H) as H1. fold W1 in H1.
  destruct (completeTimer_scheduler W1 (sl_id s) H1) as (Esl & Etb & Emt & _).
  destruct (completeTimer_effect W1 (sl_id s) H1) as [_ Heff].
  change (stored W1 (sl_id s)) with (stored w (sl_id s)) in Heff.
  rewrite Hst in Heff.
  destruct (status_eqb_spec (status t) COMPLETED) as [E|_]; [contradiction|].
  destruct Heff as [Hrec Hev]. split; [|split; [|split]].
  - intros k. rewrite stored_drain. exact (Hrec k).
  - exact Hev.
  - intros s'. simpl. rewrite Esl. unfold W1. simpl.
    rewrite In_filter_bool. unfold waits_on. rewrite Nat.eqb_neq. split.
    + intros [Hs' Hne]. split; [exact Hs'|]. intros ->. apply Hne. reflexivity.
    + intros [Hs' Hne]. split; [exact Hs'|]. intros E. apply Hne.
      apply (NoDup_signal_eq _ s' s Hnd Hs' Hs E).
  - simpl. rewrite Emt, Etb. unfold W1. simpl. rewrite Hmt. reflexivity.
Qed.

Lemma due_wake_up_completes_timer_witness :
  let w := run [Advance 6000] w_running in
  let s := mkSleep "abc" 10000 1 (CompleteTimer "abc") in
  let w' := step (Fire 1%nat) w in
  stored w "abc"
  = Some (mkTimer "abc" (Some "tea") 10000 0 false 10000 0 RUNNING) /\
  stored w' "abc"
  = Some (mkTimer "abc" (Some "tea") 10000 0 false 0 0 COMPLETED) /\
  emitted w' = emitted w ++ [mkEvent TIMER_COMPLETED "abc" (Some "tea") 10000] /\
  scheduledTimers w' = JSMap.delete "abc" (scheduledTimers w).
Proof.
  intros w s w'.
  destruct (due_wake_up_completes_timer w s
              (mkTimer "abc" (Some "tea") 10000 0 false 10000 0 RUNNING)
              reachable_w_due) as (Hrec & Hev & _ & Htb).
  - left. reflexivity.
  - vm_compute. discriminate.
  - reflexivity.
  - discriminate.
  - split; [reflexivity|]. split; [exact (Hrec "abc")|].
    split; [exact Hev | exact Htb].
Defined.

(** ** The wake-up of a new timer *)

Lemma run_rejected_absent (k : string) (ids : list string) :
  forall tb : JSMap.t nat,
    (forall i, In i ids -> i = k) -> JSMap.get k tb = None ->
    run_rejected ids tb = tb.
Proof.
  induction ids as [|i ids IH]; intros tb Hall Hk; [reflexivity|].
  cbn [run_rejected]. rewrite (Hall i (or_introl eq_refl)).
  rewrite (JSMapFacts.get_delete_eq_None k tb Hk).
  apply IH; [|exact Hk]. intros j Hj. apply Hall. right. exact Hj.
Qed.

Lemma run_rejected_same (k : string) (ids : list string) (tb : JSMap.t nat) :
  (forall i, In i ids -> i = k) -> ids <> [] ->
  List.NoDup (JSMap.keys tb) ->
  JSMap.get k (run_rejected ids tb) = None.
Proof.
  intros Hall Hne Hnd. destruct ids as [|i ids]; [congruence|].
  cbn [run_rejected]. rewrite (Hall i (or_introl eq_refl)).
  pose proof (JSMapKeys.get_delete_same k tb Hnd) as Hk.
  rewrite (run_rejected_absent k ids _
             (fun j Hj => Hall j (or_intror Hj)) Hk).
  exact Hk.
Qed.

(** The table after an accepted [create] and the reactions it queued. *)
Lemma create_table (w : World) (rnd : string) (req : TimerCreateRequest)
    (d : Z) :
  reachable w -> parseDuration (duration req) = Ok d ->
  JSMap.get (generateId rnd) (scheduledTimers (step (Create rnd req) w))
  = match JSMap.get (generateId rnd) (scheduledTimers w) with
    | Some _ => None
    | None => Some (S (length (controllers w)))
    end.
Proof.
  intros Hr Hp. pose proof (reachable_world_ok w Hr) as H.
  pose proof (reachable_microtasks w Hr) as Hmt.
  destruct (reachable_registrations w Hr) as (Hnd & _ & Hkeys & Hbeh).
  set (k := generateId rnd).
  set (base := upd_controllers (fun cs => cs ++ [false])
                 (put_world w (new_timer w k (req_name req) d))).
  assert (sched_ok base = true) as Hok
    by apply (new_controller_after_put w H).
  pose proof (proj1 (sched_ok_split base) Hok) as [Ht _].
  cbn [step]. rewrite run_task_exec. unfold exec at 1.
  rewrite (createTimer_run w rnd req d Hp (world_ok_table w H)).
  cbn [snd]. fold k base.
  rewrite (schedule_world base k d (CompleteTimer k) _ Ht).
  cbn [drain_microtasks scheduledTimers microtasks upd_microtasks
       upd_scheduledTimers upd_sleeping upd_controllers upd_emitted].
  change (scheduledTimers base) with (scheduledTimers w).
  change (length (controllers base)) with (length (controllers w ++ [false])).
  rewrite length_app, Nat.add_1_r.
  destruct (JSMap.get k (scheduledTimers w)) as [c|] eqn:Hk.
  - (* the superseded call deletes the entry of the new one *)
    destruct (Hbeh k c (JSMapFacts.get_In _ _ _ Hk)) as (s0 & Hs0 & Hsig & Hid).
    assert (controllers base !! c = Some false) as Hc.
    { simpl. apply lookup_grown.
      pose proof (proj1 (world_ok_split w) H) as [_ Hsw].
      apply sched_ok_split in Hsw as [_ Hsl]. rewrite sleeping_ok_In in Hsl.
      rewrite <- Hsig. exact (Hsl s0 Hs0). }
    unfold exec. rewrite scheduler_cancel_eq.
    change (scheduledTimers base) with (scheduledTimers w). rewrite Hk.
    rewrite (abort_eq base c false Hc). cbn [snd].
    cbn [scheduledTimers microtasks upd_microtasks upd_scheduledTimers
         upd_sleeping upd_controllers].
    change (microtasks base) with (microtasks w).
    change (sleeping base) with (sleeping w).
    change (scheduledTimers base) with (scheduledTimers w).
    rewrite Hmt. cbn [app].
    apply run_rejected_same.
    + intros i Hi. apply in_map_iff in Hi as (s & <- & Hs).
      apply In_filter_bool in Hs as [Hs Hw]. apply Nat.eqb_eq in Hw.
      rewrite (NoDup_signal_eq _ s s0 Hnd Hs Hs0); congruence.
    + assert (In (sl_id s0)
                 (map sl_id (filter (fun s => waits_on c s = true)
                               (sleeping w)))) as Hin.
      { apply in_map, In_filter_bool. split; [exact Hs0|].
        apply Nat.eqb_eq, Hsig. }
      intros E. rewrite E in Hin. contradiction.
    + apply JSMapKeys.NoDup_keys_set, JSMapKeys.NoDup_keys_delete, Hkeys.
  - unfold exec. rewrite (cancel_unregistered base k Hk).
    cbn [snd]. change (microtasks base) with (microtasks w).
    change (scheduledTimers base) with (scheduledTimers w).
    rewrite Hmt. cbn [run_rejected]. apply JSMapFacts.get_set_eq.
Qed.

Lemma reachable_w_collision :
  reachable (step (Create "0.i" (mkRequest None (DNumber 10))) init).
Proof.
  exists [Create "0.i" (mkRequest None (DNumber 10))]. reflexivity.
Defined.

(** X3: an accepted [create] in a reachable service, once the call has
    returned and the promise reactions it queued have run.  One wake-up
    for the new id is pending, due after the parsed duration, on a new
    controller that is not aborted, and one [created] event has been
    emitted.  If no wake-up was registered under the id, the table holds
    the new controller under it.  If one was registered (the draw is the
    id of a timer that is scheduled), that wake-up is suppressed, and the
    reaction of its [schedule] call has deleted the entry of the new one:
    the table holds nothing under the id while the new wake-up is
    pending. *)
Theorem create_registers_wake_up (w : World) (rnd : string)
    (req : TimerCreateRequest) (d : Z) :
  reachable w -> parseDuration (duration req) = Ok d ->
  let k := generateId rnd in
  let own := S (length (controllers w)) in
  let w' := step (Create rnd req) w in
  In (mkSleep k (mono w + timeout_delay d) own (CompleteTimer k))
     (sleeping w') /\
  controllers w' !! own = Some false /\
  JSMap.get k (scheduledTimers w')
  = match JSMap.get k (scheduledTimers w) with
    | Some _ => None
    | None => Some own
    end /\
  (forall c, JSMap.get k (scheduledTimers w) = Some c -> suppressed c w') /\
  emitted w' = emitted w ++ [mkEvent TIMER_CREATED k (req_name req) (wall w)].
Proof.
  intros Hr Hp k own w'. pose proof (reachable_world_ok w Hr) as H.
  destruct (createTimer_registers w rnd req d H Hp)
    as (Hin & _ & Hctl & Hsup & Hev).
  split; [|split; [|split; [|split]]].
  - unfold w'. cbn [step]. rewrite run_task_exec. exact Hin.
  - unfold w'. cbn [step]. rewrite run_task_exec. exact Hctl.
  - apply (create_table w rnd req d Hr Hp).
  - intros c Hc. unfold w'. cbn [step]. rewrite run_task_exec.
    apply (Hsup c Hc).
  - unfold w'. cbn [step]. rewrite run_task_exec. exact Hev.
Qed.

Lemma create_registers_wake_up_witness :
  let r1 := mkRequest None (DNumber 10) in
  let r2 := mkRequest None (DNumber 20) in
  let w1 := step (Create "0.i" r1) init in
  let w2 := step (Create "0.i" r2) w1 in
  JSMap.get "i" (scheduledTimers w1) = Some 1%nat /\
  In (mkSleep "i" 20 3%nat (CompleteTimer "i")) (sleeping w2) /\
  controllers w2 !! 3%nat = Some false /\
  JSMap.get "i" (scheduledTimers w2) = None /\
  suppressed 1%nat w2.
Proof.
  intros r1 r2 w1 w2.
  destruct (create_registers_wake_up w1 "0.i" r2 20 reachable_w_collision
              eq_refl) as (Hin & Hctl & Htab & Hsup & _).
  split; [reflexivity|]. split; [exact Hin|]. split; [exact Hctl|].
  split; [exact Htab|]. apply (Hsup 1%nat). reflexivity.
Defined.

(** ** Reading a timer while it runs *)

Lemma completeTimer_mono (w : World) (k : string) :
  world_ok w = true -> mono (exec (completeTimer k) w) = mono w.
Proof.
  intros H. pose proof (world_ok_store w H) as Hok. unfold exec.
  destruct (stored_cases w k Hok)
    as [[_ Hk]|(l & t & _ & Hk & Hl & _ & _)].
  - rewrite (completeTimer_missing w k Hk). reflexivity.
  - destruct (status_dec (status t) COMPLETED) as [Hs|Hs].
    + rewrite (completeTimer_skip w k l t Hk Hl Hs). reflexivity.
    + rewrite (completeTimer_run w k l t Hk Hl Hs). reflexivity.
Qed.

(** A timeout that expires leaves the record of an id alone as long as
    no wake-up of that id is due. *)
Lemma fire_keeps_record (w : World) (k : string) (c : nat) :
  reachable w ->
  (forall s, In s (sleeping w) -> sl_id s = k -> mono w < sl_due s) ->
  stored (step (Fire c) w) k = stored w k /\
  mono (step (Fire c) w) = mono w /\
  (forall s, In s (sleeping (step (Fire c) w)) -> In s (sleeping w)).
Proof.
  intros Hr Hdue. pose proof (reachable_world_ok w Hr) as H.
  pose proof (proj1 (world_ok_split w) H) as [_ Hc].
  destruct (reachable_registrations w Hr) as (_ & Hcb & _).
  cbn [step]. rewrite run_task_exec, stored_drain. unfold exec at 1 2 3.
  destruct (fire_cases w c Hc) as [E|(s & Hs & Hsig & Hnow & E)]; rewrite E;
    cbn [snd]; [repeat split; auto|].
  rewrite (Hcb s Hs). cbn [run_callback].
  set (W1 := upd_sleeping (filter (fun s' => waits_on c s' = false)) w).
  pose proof (world_ok_drop_sleeps w c H) as H1. fold W1 in H1.
  destruct (completeTimer_scheduler W1 (sl_id s) H1) as (Esl & _).
  split; [|split].
  - change (stored (exec (completeTimer (sl_id s)) W1) k = stored W1 k).
    destruct (completeTimer_stored W1 (sl_id s) k H1)
      as [E'|(t & _ & _ & Ek & _)]; [exact E'|].
    exfalso. specialize (Hdue s Hs (eq_sym Ek)). lia.
  - change (mono (exec (completeTimer (sl_id s)) W1) = mono W1).
    apply completeTimer_mono, H1.
  - intros s' Hs'.
    change (In s' (sleeping (exec (completeTimer (sl_id s)) W1))) in Hs'.
    rewrite Esl in Hs'. unfold W1 in Hs'. simpl in Hs'.
    apply In_filter_bool in Hs' as [Hs' _]. exact Hs'.
Qed.

Lemma fires_keep_record (k : string) (cs : list nat) :
  forall w,
    reachable w ->
    (forall s, In s (sleeping w) -> sl_id s = k -> mono w < sl_due s) ->
    reachable (run (map Fire cs) w) /\
    stored (run (map Fire cs) w) k = stored w k /\
    mono (run (map Fire cs) w) = mono w.
Proof.
  induction cs as [|c cs IH]; intros w Hr Hdue; [repeat split; exact Hr|].
  destruct (fire_keeps_record w k c Hr Hdue) as (Hst & Hm & Hsub).
  cbn [map run fold_left]. fold (run (map Fire cs) (step (Fire c) w)).
  destruct (IH (step (Fire c) w) (reachable_step _ _ Hr)) as (Hr' & Hst' & Hm').
  - intros s Hs Hid. rewrite Hm. apply (Hdue s (Hsub s Hs) Hid).
  - split; [exact Hr'|]. split; congruence.
Qed.

(** X7: after an accepted [create] in a reachable service, [ms]
    milliseconds later and whichever timeouts have expired in between,
    as long as no wake-up of the new id is due by then: [get] of the id
    returns a running record with the parsed duration and the name of
    the request, whose remaining time is the duration less the time
    passed, and not less than zero. *)
Theorem create_then_get (w : World) (rnd : string) (req : TimerCreateRequest)
    (d : Z) (ms : N) (cs : list nat) :
  reachable w -> parseDuration (duration req) = Ok d ->
  let k := generateId rnd in
  let w0 := step (Advance ms) (step (Create rnd req) w) in
  (forall s, In s (sleeping w0) -> sl_id s = k -> mono w0 < sl_due s) ->
  let w1 := run (map Fire cs) w0 in
  exists l t,
    eval (getTimer k) w1 = Ok (Some l) /\
    heap (exec (getTimer k) w1) !! l = Some t /\
    status t = RUNNING /\ durationMs t = d /\ name t = req_name req /\
    remainingMs t = Z.max 0 (d - Z.of_N ms).
Proof.
  intros Hr Hp k w0 Hdue w1. pose proof (reachable_world_ok w Hr) as H.
  assert (reachable w0) as Hr0 by (do 2 apply reachable_step; exact Hr).
  destruct (fires_keep_record k cs w0 Hr0 Hdue) as (Hr1 & Hst1 & Hm1).
  fold w1 in Hr1, Hst1, Hm1.
  pose proof (reachable_world_ok w1 Hr1) as H1.
  destruct (createTimer_accepted w rnd req d H Hp) as (_ & Hst & _).
  assert (stored w0 k = Some (new_timer w k (req_name req) d)) as Hst0.
  { unfold w0. cbn [step]. rewrite run_task_exec.
    change (stored (exec (createTimer rnd req) w) k
            = Some (new_timer w k (req_name req) d)).
    rewrite Hst. unfold k. rewrite String.eqb_refl. reflexivity. }
  assert (mono w0 = mono w + Z.of_N ms) as Hm0.
  { unfold w0. cbn [step]. rewrite run_task_exec.
    cbn [mono upd_clocks drain_microtasks upd_microtasks upd_scheduledTimers].
    f_equal. unfold exec.
    rewrite (createTimer_run w rnd req d Hp (world_ok_table w H)).
    cbn [snd mono upd_emitted].
    exact (frame_mono (put_world w _) _ (create_frame _ _ _ _ _ _)). }
  rewrite Hst0 in Hst1. rewrite Hm0 in Hm1.
  pose proof (getTimer_running_result w1 _ _ H1 Hst1 eq_refl) as Hg.
  exists (length (heap w1)). eexists. unfold eval, exec. rewrite Hg.
  cbn [fst snd]. split; [reflexivity|]. split; [apply lookup_snoc|].
  split; [reflexivity|]. split; [reflexivity|]. split; [reflexivity|].
  cbn [remainingMs set_remainingMs]. unfold live_remainingMs. rewrite Hm1.
  cbn [durationMs startMonotonicMs new_timer]. f_equal. lia.
Qed.

Lemma reachable_init : reachable init.
Proof. exists []. reflexivity. Defined.

Lemma create_then_get_witness :
  let w0 := step (Advance 4000) (step (Create "0.abc" tea) init) in
  let w1 := run (map Fire [1%nat; 0%nat]) w0 in
  sleeping w0 = [mkSleep "abc" 10000 1%nat (CompleteTimer "abc")] /\
  mono w0 = 4000 /\
  exists l t,
    eval (getTimer "abc") w1 = Ok (Some l) /\
    heap (exec (getTimer "abc") w1) !! l = Some t /\
    remainingMs t = 6000.
Proof.
  intros w0 w1. split; [reflexivity|]. split; [reflexivity|].
  destruct (create_then_get init "0.abc" tea 10000 4000 [1%nat; 0%nat]
              reachable_init eq_refl)
    as (l & t & He & Hl & _ & _ & _ & Hrem).
  - intros s [<-|[]] _. vm_compute. reflexivity.
  - exists l, t. repeat split; assumption.
Defined.

(** ** Duration strings, continued *)

(** With fuel for its whole text the loop satisfies the equation of the
    [while] statement. *)
Lemma sum_matches_enough (n : nat) (s : string) (acc : Z) :
  (String.length s <= n)%nat ->
  sum_matches n s acc = sum_matches (String.length s) s acc.
Proof.
  intros H. replace n with (String.length s + (n - String.length s))%nat by lia.
  apply sum_matches_fuel.
Qed.

Lemma sum_matches_unfold (s : string) (acc : Z) :
  sum_matches (String.length s) s acc
  = match regex_exec s with
    | Some (v, ms, rest) => sum_matches (String.length rest) rest (acc + v * ms)
    | None => acc
    end.
Proof.
  destruct s as [|c s]; [reflexivity|].
  cbn [String.length sum_matches].
  destruct (regex_exec (String c s)) as [[[v ms] rest]|] eqn:E; [|reflexivity].
  apply sum_matches_enough. apply regex_exec_shorter in E. simpl in E. lia.
Qed.

(** Every unit is a whole number of seconds. *)
Lemma unit_ms_seconds (u : ascii) (ms : Z) :
  unit_ms u = Some ms -> ms mod 1000 = 0.
Proof.
  unfold unit_ms.
  repeat (match goal with |- context [Ascii.eqb ?a ?b] =>
                            destruct (Ascii.eqb a b) end);
    intros [= <-]; reflexivity.
Qed.

Lemma regex_exec_seconds (s : string) :
  forall v ms rest, regex_exec s = Some (v, ms, rest) -> ms mod 1000 = 0.
Proof.
  induction s as [|c s IH]; intros v ms rest H; [discriminate|].
  cbn [regex_exec] in H.
  destruct (match_at (String c s)) as [[[v' ms'] rest']|] eqn:E.
  - injection H as -> -> ->. unfold match_at in E.
    destruct (span_digits (String c s)) as [ds r].
    destruct ds as [|d ds]; [discriminate|].
    destruct r as [|u r]; [discriminate|].
    destruct (unit_ms u) as [ms'|] eqn:Eu; [|discriminate].
    injection E as _ <- _. eapply unit_ms_seconds, Eu.
  - eapply IH, H.
Qed.

Lemma sum_matches_seconds (n : nat) :
  forall s acc, acc mod 1000 = 0 -> sum_matches n s acc mod 1000 = 0.
Proof.
  induction n as [|n IH]; intros s acc Hacc; cbn [sum_matches]; [exact Hacc|].
  destruct (regex_exec s) as [[[v ms] rest]|] eqn:E; [|exact Hacc].
  apply IH. apply regex_exec_seconds in E.
  rewrite Z.add_mod, Z.mul_mod, E, Hacc, Z.mul_0_r by lia. reflexivity.
Qed.

(** X14: a duration that [parseDuration] reads from a string, and that
    does not exceed [MAX_SAFE_INTEGER], is a whole number of seconds, and
    at least one second. *)
Theorem string_duration_is_whole_seconds (s : string) (d : Z) :
  parseDuration (DString s) = Ok d -> d <= MAX_SAFE_INTEGER ->
  1000 <= d /\ d mod 1000 = 0.
Proof.
  intros H _. pose proof (parseDuration_string_pos s d H) as Hpos.
  assert (d mod 1000 = 0) as Hmod.
  { simpl in H.
    destruct (sum_matches (String.length (toLowerCase s)) (toLowerCase s) 0
              =? 0); [discriminate|].
    injection H as <-. apply sum_matches_seconds. reflexivity. }
  split; [|exact Hmod].
  pose proof (Z.div_mod d 1000 ltac:(lia)) as Hd. rewrite Hmod in Hd. lia.
Qed.

Lemma string_duration_is_whole_seconds_witness :
  parseDuration (DString "1H30m") = Ok 5400000 /\
  5400000 <= MAX_SAFE_INTEGER /\
  1000 <= 5400000 /\ 5400000 mod 1000 = 0.
Proof.
  split; [reflexivity|]. split; [vm_compute; discriminate|].
  apply (string_duration_is_whole_seconds "1H30m" 5400000);
    [reflexivity | vm_compute; discriminate].
Defined.

(** *** Concatenation *)

Lemma ends_in_digit_tail (c : ascii) (s : string) :
  s <> EmptyString -> ends_in_digit (String c s) = ends_in_digit s.
Proof. destruct s; [congruence | reflexivity]. Qed.

Lemma ends_in_digit_tail_false (c : ascii) (s : string) :
  ends_in_digit (String c s) = false -> ends_in_digit s = false.
Proof. destruct s; [reflexivity | intros H; exact H]. Qed.

Lemma span_digits_app (s1 s2 : string) :
  forall ds u r,
    span_digits s1 = (ds, String u r) ->
    span_digits (s1 ++ s2)%string = (ds, (String u r ++ s2)%string).
Proof.
  induction s1 as [|c s1 IH]; intros ds u r H; [discriminate|].
  cbn [span_digits] in H. cbn [String.append span_digits].
  destruct (is_digit c) eqn:Hc.
  - destruct (span_digits s1) as [ds' r'] eqn:E. injection H as <- ->.
    rewrite (IH ds' u r eq_refl). reflexivity.
  - injection H as <- <- <-. reflexivity.
Qed.

Lemma span_digits_all (s : string) :
  forall ds, span_digits s = (ds, EmptyString) ->
             s = EmptyString \/ ends_in_digit s = true.
Proof.
  induction s as [|c s IH]; intros ds H; [left; reflexivity|].
  right. cbn [span_digits] in H. destruct (is_digit c) eqn:Hc;
    [|discriminate].
  destruct (span_digits s) as [ds' r'] eqn:E. injection H as _ ->.
  destruct (IH ds' eq_refl) as [->|He]; [exact Hc|].
  destruct s; [discriminate | exact He].
Qed.

Lemma span_digits_suffix (s : string) :
  forall ds u r, span_digits s = (ds, String u r) ->
                 ends_in_digit (String u r) = ends_in_digit s.
Proof.
  induction s as [|c s IH]; intros ds u r H; [discriminate|].
  cbn [span_digits] in H. destruct (is_digit c).
  - destruct (span_digits s) as [ds' r'] eqn:E. injection H as _ ->.
    rewrite (IH ds' u r eq_refl). symmetry. apply ends_in_digit_tail.
    intros ->. discriminate.
  - injection H as _ <- <-. reflexivity.
Qed.

Lemma match_at_app (s1 s2 : string) :
  ends_in_digit s1 = false -> s1 <> EmptyString ->
  match_at (s1 ++ s2)%string
  = match match_at s1 with
    | Some (v, ms, rest) => Some (v, ms, (rest ++ s2)%string)
    | None => None
    end.
Proof.
  intros He Hne. unfold match_at.
  destruct (span_digits s1) as [ds r] eqn:E. destruct r as [|u r].
  - destruct (span_digits_all s1 ds E) as [->|H]; congruence.
  - rewrite (span_digits_app s1 s2 ds u r E). cbn [String.append].
    destruct ds as [|d ds]; [reflexivity|].
    destruct (unit_ms u); reflexivity.
Qed.

Lemma match_at_rest (s : string) (v ms : Z) (rest : string) :
  match_at s = Some (v, ms, rest) -> ends_in_digit s = false ->
  ends_in_digit rest = false.
Proof.
  unfold match_at. destruct (span_digits s) as [ds r] eqn:E.
  destruct ds as [|d ds]; [discriminate|].
  destruct r as [|u r]; [discriminate|].
  destruct (unit_ms u); [|discriminate].
  intros [= _ _ ->] He. rewrite <- (span_digits_suffix s _ u rest E) in He.
  apply (ends_in_digit_tail_false u rest He).
Qed.

Lemma regex_exec_app (s1 s2 : string) :
  ends_in_digit s1 = false ->
  regex_exec (s1 ++ s2)%string
  = match regex_exec s1 with
    | Some (v, ms, rest) => Some (v, ms, (rest ++ s2)%string)
    | None => regex_exec s2
    end.
Proof.
  induction s1 as [|c s1 IH]; intros He.
  - simpl. destruct s2; reflexivity.
  - change (String c s1 ++ s2)%string with (String c (s1 ++ s2)%string).
    cbn [regex_exec].
    change (String c (s1 ++ s2)%string) with (String c s1 ++ s2)%string.
    rewrite (match_at_app (String c s1) s2 He) by discriminate.
    destruct (match_at (String c s1)) as [[[v ms] rest]|]; [reflexivity|].
    apply IH, (ends_in_digit_tail_false c s1 He).
Qed.

Lemma regex_exec_rest (s : string) :
  forall v ms rest, regex_exec s = Some (v, ms, rest) ->
                    ends_in_digit s = false -> ends_in_digit rest = false.
Proof.
  induction s as [|c s IH]; intros v ms rest H He; [discriminate|].
  cbn [regex_exec] in H.
  destruct (match_at (String c s)) as [[[v' ms'] rest']|] eqn:E.
  - injection H as -> -> ->. apply (match_at_rest _ _ _ _ E He).
  - apply (IH v ms rest H), (ends_in_digit_tail_false c s He).
Qed.

Lemma sum_matches_app (n : nat) (s2 : string) :
  forall s1 acc,
    (String.length s1 <= n)%nat -> ends_in_digit s1 = false ->
    sum_matches (String.length (s1 ++ s2)%string) (s1 ++ s2)%string acc
    = sum_matches (String.length s2) s2
        (sum_matches (String.length s1) s1 acc).
Proof.
  induction n as [|n IH]; intros s1 acc Hlen He.
  - destruct s1; [reflexivity | simpl in Hlen; lia].
  - rewrite (sum_matches_unfold (s1 ++ s2)), (sum_matches_unfold s1).
    rewrite (regex_exec_app s1 s2 He).
    destruct (regex_exec s1) as [[[v ms] rest]|] eqn:E.
    + apply IH.
      * apply regex_exec_shorter in E. lia.
      * apply (regex_exec_rest s1 v ms rest E He).
    + symmetry. apply sum_matches_unfold.
Qed.

Lemma toLowerCase_app (s1 s2 : string) :
  toLowerCase (s1 ++ s2)%string = (toLowerCase s1 ++ toLowerCase s2)%string.
Proof.
  induction s1 as [|c s1 IH]; simpl; [reflexivity|]. rewrite IH. reflexivity.
Qed.

Lemma ends_in_digit_toLowerCase (s : string) :
  ends_in_digit (toLowerCase s) = ends_in_digit s.
Proof.
  induction s as [|c s IH]; [reflexivity|].
  destruct s as [|c' s]; [apply is_digit_toLowerCase_char | exact IH].
Qed.

Lemma token_total_app (s1 s2 : string) :
  ends_in_digit s1 = false ->
  token_total (s1 ++ s2)%string = token_total s1 + token_total s2.
Proof.
  intros He. unfold token_total. rewrite toLowerCase_app.
  rewrite (sum_matches_app (String.length (toLowerCase s1)) (toLowerCase s2)
             (toLowerCase s1) 0 (Nat.le_refl _)).
  - apply sum_matches_acc0.
  - rewrite ends_in_digit_toLowerCase. exact He.
Qed.

(** X15: durations add up under concatenation: when two strings are
    accepted, the first does not end in a digit and the two durations
    together do not exceed [MAX_SAFE_INTEGER], their concatenation is
    accepted with the sum of the two durations. *)
Theorem concatenated_durations_add_up (s1 s2 : string) (d1 d2 : Z) :
  parseDuration (DString s1) = Ok d1 -> parseDuration (DString s2) = Ok d2 ->
  ends_in_digit s1 = false -> d1 + d2 <= MAX_SAFE_INTEGER ->
  parseDuration (DString (s1 ++ s2)%string) = Ok (d1 + d2).
Proof.
  intros H1 H2 He _.
  pose proof (parseDuration_string_pos s1 d1 H1) as Hp1.
  pose proof (parseDuration_string_pos s2 d2 H2) as Hp2.
  assert (forall s d, parseDuration (DString s) = Ok d -> token_total s = d)
    as Htot.
  { intros s d H. simpl in H. unfold token_total.
    destruct (sum_matches (String.length (toLowerCase s)) (toLowerCase s) 0
              =? 0); congruence. }
  rewrite parseDuration_accepted.
  - rewrite (token_total_app s1 s2 He), (Htot s1 d1 H1), (Htot s2 d2 H2).
    reflexivity.
  - simpl. rewrite (token_total_app s1 s2 He), (Htot s1 d1 H1), (Htot s2 d2 H2).
    apply Z.eqb_neq. lia.
Qed.

Lemma concatenated_durations_add_up_witness :
  parseDuration (DString "1h") = Ok 3600000 /\
  parseDuration (DString "30M") = Ok 1800000 /\
  parseDuration (DString "1h30M") = Ok (3600000 + 1800000).
Proof.
  split; [reflexivity|]. split; [reflexivity|].
  apply (concatenated_durations_add_up "1h" "30M" 3600000 1800000);
    [reflexivity | reflexivity | reflexivity | vm_compute; discriminate].
Defined.

(** ** The store on its own *)

Lemma store_put_eq (w : World) (l : loc) (t : Timer) :
  heap w !! l = Some t ->
  InMemoryTimerStore.put l w
  = (Ok tt,
     upd_store_timers (JSMap.set (id t) (length (heap w)))
       (upd_heap (fun h => h ++ [t]) w)).
Proof.
  intros Hl. destruct w as [h cs st tb sl mt em mo wa]. cbn in *.
  unfold InMemoryTimerStore.put, copy. msimpl. rewrite Hl. msimpl.
  rewrite Hl. reflexivity.
Qed.

Lemma assign_eq (w : World) (l : loc) (t : Timer) (f : Timer -> Timer) :
  heap w !! l = Some t ->
  assign l f w = (Ok tt, upd_heap (fun h => <[l := f t]> h) w).
Proof. intros Hl. unfold assign. rewrite Hl. reflexivity. Qed.

Lemma get_delete_ne {V : Type} (k k' : string) (m : JSMap.t V) :
  k' <> k -> JSMap.get k' (JSMap.delete k m) = JSMap.get k' m.
Proof.
  intros Hne. induction m as [|[k0 v0] m IH]; simpl; [reflexivity|].
  destruct (String.eqb_spec k k0) as [->|Hk]; simpl.
  - destruct (String.eqb_spec k' k0); [contradiction | reflexivity].
  - rewrite IH. reflexivity.
Qed.

(** X16: [get] hands out a private copy: the reference it returns is new,
    the object behind it equals the stored record, and whatever the
    caller assigns to that object leaves every record of the store as it
    was. *)
Theorem store_get_returns_private_copy (w : World) (k : string) (t : Timer) :
  store_ok w = true -> stored w k = Some t ->
  let w1 := exec (InMemoryTimerStore.get k) w in
  exists l : loc,
    eval (InMemoryTimerStore.get k) w = Ok (Some l) /\
    heap w !! l = None /\
    heap w1 !! l = Some t /\
    forall (f : Timer -> Timer) (k' : string),
      eval (assign l f) w1 = Ok tt /\
      heap (exec (assign l f) w1) !! l = Some (f t) /\
      stored (exec (assign l f) w1) k' = stored w k'.
Proof.
  intros Hok Hst w1. apply stored_Some in Hst as (l0 & Hk & Hl).
  exists (length (heap w)). unfold w1, eval, exec.
  rewrite (store_get_local w k l0 t Hk Hl). cbn [fst snd].
  split; [reflexivity|]. split; [apply lookup_ge_None_2; lia|].
  split; [apply lookup_snoc|]. intros f k'. rewrite assign_local.
  cbn [fst snd]. split; [reflexivity|]. split; [apply lookup_snoc|].
  apply (stored_heap_grown w _ [f t] Hok); reflexivity.
Qed.

Lemma store_get_returns_private_copy_witness :
  exists l : loc,
    eval (InMemoryTimerStore.get "abc") w_running = Ok (Some l) /\
    heap w_running !! l = None /\
    forall k',
      stored (exec (assign l (set_status CANCELED))
                (exec (InMemoryTimerStore.get "abc") w_running)) k'
      = stored w_running k'.
Proof.
  destruct (store_get_returns_private_copy w_running "abc"
              (mkTimer "abc" (Some "tea") 10000 0 false 10000 0 RUNNING)
              eq_refl eq_refl) as (l & He & Hnew & _ & Hassign).
  exists l. split; [exact He|]. split; [exact Hnew|].
  intros k'. apply (Hassign (set_status CANCELED) k').
Defined.

(** X17: [put] keeps a private copy: it stores the fields the object has at
    the time of the call under the object's id and leaves the other
    records alone, and what the caller assigns to the object afterwards
    does not reach the store. *)
Theorem store_put_keeps_private_copy (w : World) (l : loc) (t : Timer) :
  store_ok w = true -> heap w !! l = Some t ->
  ~ In l (JSMap.values (store_timers w)) ->
  let w1 := exec (InMemoryTimerStore.put l) w in
  eval (InMemoryTimerStore.put l) w = Ok tt /\
  (forall k, stored w1 k = if String.eqb k (id t) then Some t else stored w k) /\
  (forall (f : Timer -> Timer) (k : string),
      eval (assign l f) w1 = Ok tt /\
      stored (exec (assign l f) w1) k = stored w1 k).
Proof.
  intros Hok Hl Hpriv w1. unfold w1, eval, exec.
  rewrite (store_put_eq w l t Hl). cbn [fst snd].
  split; [reflexivity|].
  assert (forall k l',
             JSMap.get k (JSMap.set (id t) (length (heap w)) (store_timers w))
             = Some l' ->
             l' <> l /\
             (heap w ++ [t]) !! l'
             = if String.eqb k (id t) then Some t else stored w k) as Hget.
  { intros k l'. rewrite JSMapFacts.get_set. unfold stored.
    destruct (String.eqb k (id t)).
    - intros [= <-]. split; [|apply lookup_snoc].
      apply lookup_Some_lt in Hl. lia.
    - intros Hk. unfold loc in *. rewrite Hk. split.
      + intros ->. apply Hpriv. apply (JSMapFacts.In_values k), Hk.
      + rewrite store_ok_In in Hok.
        destruct (Hok k l' (JSMapFacts.get_In _ _ _ Hk)) as (t' & Hl' & _).
        transitivity (Some t'); [apply lookup_grown, Hl' | symmetry; exact Hl']. }
  assert (forall k,
             JSMap.get k (JSMap.set (id t) (length (heap w)) (store_timers w))
             = None ->
             (if String.eqb k (id t) then Some t else stored w k) = None)
    as Hnone.
  { intros k. rewrite JSMapFacts.get_set. unfold stored.
    destruct (String.eqb k (id t)); [discriminate|]. intros Hk.
    unfold loc in *. rewrite Hk. reflexivity. }
  split.
  - intros k. unfold stored at 1. simpl. unfold loc in *.
    destruct (JSMap.get k (JSMap.set (id t) (length (heap w))
                             (store_timers w))) as [l'|] eqn:Hk.
    + apply (Hget k l' Hk).
    + symmetry. apply Hnone, Hk.
  - intros f k.
    rewrite (assign_eq _ l t f) by (simpl; apply lookup_grown, Hl).
    cbn [fst snd]. split; [reflexivity|]. unfold stored. simpl.
    unfold loc in *.
    destruct (JSMap.get k (JSMap.set (id t) (length (heap w))
                             (store_timers w))) as [l'|] eqn:Hk;
      [|reflexivity].
    destruct (Hget k l' Hk) as [Hne _].
    apply list_lookup_insert_ne. congruence.
Qed.

Lemma store_put_keeps_private_copy_witness :
  let w := exec (alloc (mkTimer "x" None 5 0 false 5 0 RUNNING)) w_running in
  let w1 := exec (InMemoryTimerStore.put 2%nat) w in
  stored w1 "x" = Some (mkTimer "x" None 5 0 false 5 0 RUNNING) /\
  stored w1 "abc" = stored w "abc" /\
  stored (exec (assign 2%nat (set_status PAUSED)) w1) "x" = stored w1 "x".
Proof.
  intros w w1.
  destruct (store_put_keeps_private_copy w 2%nat
              (mkTimer "x" None 5 0 false 5 0 RUNNING))
    as (_ & Hput & Hassign).
  - reflexivity.
  - reflexivity.
  - vm_compute. intros [E|[]]. discriminate E.
  - split; [exact (Hput "x")|]. split; [exact (Hput "abc")|].
    apply (Hassign (set_status PAUSED) "x").
Defined.

(** X18: [delete] removes the record of its id and no other: afterwards
    the store has nothing under that id and holds every other record
    unchanged. *)
Theorem store_delete_removes_one_record (w : World) (k : string) :
  List.NoDup (JSMap.keys (store_timers w)) ->
  eval (InMemoryTimerStore.delete k) w = Ok tt /\
  forall k', stored (exec (InMemoryTimerStore.delete k) w) k'
             = if String.eqb k' k then None else stored w k'.
Proof.
  intros Hnd. split; [reflexivity|]. intros k'. unfold stored. simpl.
  destruct (String.eqb_spec k' k) as [->|Hne].
  - rewrite (JSMapKeys.get_delete_same k _ Hnd). reflexivity.
  - rewrite (get_delete_ne k k' _ Hne). reflexivity.
Qed.

Lemma store_delete_removes_one_record_witness :
  stored w_running "abc"
  = Some (mkTimer "abc" (Some "tea") 10000 0 false 10000 0 RUNNING) /\
  stored (exec (InMemoryTimerStore.delete "abc") w_running) "abc" = None.
Proof.
  split; [reflexivity|].
  destruct (store_delete_removes_one_record w_running "abc") as [_ H].
  - vm_compute. constructor; [intros [] | constructor].
  - exact (H "abc").
Defined.

(** ** The HTTP layer *)

Lemma try_eq_ok {A : Type} (m : M A) (handler : Exn -> M A) (w w' : World)
    (a : A) :
  m w = (Ok a, w') -> try_ m handler w = (Ok a, w').
Proof. intros E. unfold try_. rewrite E. reflexivity. Qed.

Lemma try_eq_throw {A : Type} (m : M A) (handler : Exn -> M A) (w w' : World)
    (e : Exn) :
  m w = (Throw e, w') -> try_ m handler w = handler e w'.
Proof. intros E. unfold try_. rewrite E. reflexivity. Qed.

(** No guarded method throws. *)
Lemma method_returns (g : GuardedMethod) (w : World) (k : string) :
  world_ok w = true -> method g k w = (Ok tt, exec (method g k) w).
Proof.
  intros H. unfold exec. destruct (applies g (stored w k)) eqn:Hg.
  - destruct (stored w k) as [t|] eqn:Hst; [|discriminate].
    destruct (guarded_call_runs g w k t H Hst Hg) as (W & E & _).
    rewrite E. reflexivity.
  - destruct (guarded_call_skips g w k H Hg) as [E|[t E]]; rewrite E;
      reflexivity.
Qed.

(** What [getTimer] returns for a stored record. *)
Lemma getTimer_result (w : World) (k : string) (t : Timer) :
  store_ok w = true -> stored w k = Some t ->
  getTimer k w
  = (Ok (Some (length (heap w))), with_local w (seen_at (mono w) t)).
Proof.
  intros Hok Hst. pose proof (stored_timer_ok w k t Hok Hst) as Ht.
  apply stored_Some in Hst as (l & Hk & Hl). unfold seen_at.
  destruct (status_eqb_spec (status t) RUNNING) as [Hs|Hs].
  - rewrite (timer_ok_running k t Ht Hs). cbn [negb andb].
    apply (getTimer_running w k l t Hk Hl Hs (timer_ok_running k t Ht Hs)).
  - cbn [andb]. apply (getTimer_other w k l t Hk Hl). left. exact Hs.
Qed.

Lemma load_all_eq (ts : list Timer) :
  forall (w : World) (base : nat),
    (forall i t, ts !! i = Some t -> heap w !! (base + i)%nat = Some t) ->
    load_all (seq base (length ts)) w = (Ok ts, w).
Proof.
  induction ts as [|t ts IH]; intros w base Hl; [reflexivity|].
  cbn [length seq load_all]. rewrite bind_eq.
  pose proof (Hl 0%nat t eq_refl) as H0. rewrite Nat.add_0_r in H0.
  assert (load base w = (Ok t, w)) as ->
    by (unfold load, loc in *; rewrite H0; reflexivity).
  rewrite bind_eq, (IH w (S base)); [reflexivity|].
  intros i t' Hi. specialize (Hl (S i) t' Hi).
  rewrite Nat.add_succ_r in Hl. exact Hl.
Qed.

(** X19: what [POST /timers] answers, on a body of the declared type.  A
    body that the schema turns down (a name of more than 64 UTF-16 code
    units, an empty duration string, a number or [ms] that is not
    positive) is answered 400; a body that passes the schema with a
    duration that [parseDuration] turns down is passed on as an error
    and answered 500 by the application; in both cases the service is
    left as it was.  Every other body is answered 201 with the
    generated id, and then the duration is positive and the store holds
    the new running timer under that id. *)
Theorem post_timers_answers (w : World) (rnd : string)
    (body : TimerCreateRequest) :
  world_ok w = true ->
  let h := eval (TimerRouter.POST_timers rnd body) w in
  let w' := exec (TimerRouter.POST_timers rnd body) w in
  (Schemas.CreateTimerSchema body = false ->
   h = Ok (Responded (mkResponse 400 (JIssues "Validation error"))) /\
   w' = w) /\
  (forall e, Schemas.CreateTimerSchema body = true ->
             parseDuration (duration body) = Throw e ->
   h = Ok (Next e) /\
   Application.respond (Next e)
   = mkResponse 500 (JError "Internal server error") /\
   w' = w) /\
  (forall d, Schemas.CreateTimerSchema body = true ->
             parseDuration (duration body) = Ok d ->
   h = Ok (Responded (mkResponse 201 (JId (generateId rnd)))) /\
   0 < d /\
   stored w' (generateId rnd)
   = Some (new_timer w (generateId rnd) (req_name body) d)).
Proof.
  intros H h w'. unfold h, w', eval, exec, TimerRouter.POST_timers.
  split; [|split].
  - intros ->. split; reflexivity.
  - intros e -> Hp.
    rewrite (try_eq_throw _ _ w w e); [repeat split|].
    rewrite bind_eq, (createTimer_throw w rnd body e Hp). reflexivity.
  - intros d Hschema Hp. rewrite Hschema.
    destruct (createTimer_accepted w rnd body d H Hp) as (He & Hst & _).
    rewrite (try_eq_ok _ _ w (exec (createTimer rnd body) w)
               (Responded (mkResponse 201 (JId (generateId rnd))))).
    + cbn [fst snd]. split; [reflexivity|]. split.
      * unfold Schemas.CreateTimerSchema in Hschema.
        apply andb_true_iff in Hschema as [_ Hd].
        destruct (duration body) as [s|n|ms]; simpl in Hd.
        -- apply (parseDuration_string_pos s d Hp).
        -- injection Hp as <-. apply Z.ltb_lt, Hd.
        -- injection Hp as <-. apply Z.ltb_lt, Hd.
      * rewrite (Hst (generateId rnd)), String.eqb_refl. reflexivity.
    + rewrite bind_eq, (run_eq _ _ _ He). reflexivity.
Qed.

Lemma post_timers_answers_witness :
  eval (TimerRouter.POST_timers "0.abc" (mkRequest None (DNumber (-5)))) init
  = Ok (Responded (mkResponse 400 (JIssues "Validation error"))) /\
  eval (TimerRouter.POST_timers "0.abc" (mkRequest None (DString "soon"))) init
  = Ok (Next (Error "Invalid duration format: soon")) /\
  eval (TimerRouter.POST_timers "0.abc" (mkRequest None (DString "5m"))) init
  = Ok (Responded (mkResponse 201 (JId "abc"))) /\
  (String.length name_33_accents = 66%nat /\
   eval (TimerRouter.POST_timers "0.abc"
           (mkRequest (Some name_33_accents) (DNumber 5))) init
   = Ok (Responded (mkResponse 201 (JId "abc")))) /\
  (utf16_length name_33_eggs = 66%nat /\
   eval (TimerRouter.POST_timers "0.abc"
           (mkRequest (Some name_33_eggs) (DNumber 5))) init
   = Ok (Responded (mkResponse 400 (JIssues "Validation error")))).
Proof.
  destruct (post_timers_answers init "0.abc" (mkRequest None (DNumber (-5)))
              eq_refl) as ((H400 & _) & _ & _); [reflexivity|].
  destruct (post_timers_answers init "0.abc" (mkRequest None (DString "soon"))
              eq_refl) as (_ & H500 & _).
  destruct (H500 (Error "Invalid duration format: soon") eq_refl eq_refl)
    as (Hnext & _).
  destruct (post_timers_answers init "0.abc" (mkRequest None (DString "5m"))
              eq_refl) as (_ & _ & H201).
  destruct (H201 300000 eq_refl eq_refl) as (Hid & _).
  destruct (post_timers_answers init "0.abc"
              (mkRequest (Some name_33_accents) (DNumber 5)) eq_refl)
    as (_ & _ & Haccents).
  destruct (Haccents 5 eq_refl eq_refl) as (Hlong & _).
  destruct (post_timers_answers init "0.abc"
              (mkRequest (Some name_33_eggs) (DNumber 5)) eq_refl)
    as ((Heggs & _) & _ & _); [reflexivity|].
  split; [exact H400|]. split; [exact Hnext|]. split; [exact Hid|].
  split; [split; [reflexivity | exact Hlong]|].
  split; [reflexivity | exact Heggs].
Defined.

(** X20: [POST /timers/:id/pause], [POST /timers/:id/resume] and
    [DELETE /timers/:id] answer 200, 200 and 204 for every id that is not
    empty, whether or not the store holds a timer under the id and
    whatever its status is. *)
Theorem guarded_routes_always_succeed (w : World) (k : string) :
  world_ok w = true -> Schemas.TimerParamsSchema k = true ->
  eval (TimerRouter.POST_pause k) w
  = Ok (Responded (mkResponse 200 (JMessage "Timer paused"))) /\
  eval (TimerRouter.POST_resume k) w
  = Ok (Responded (mkResponse 200 (JMessage "Timer resumed"))) /\
  eval (TimerRouter.DELETE_timer k) w
  = Ok (Responded (mkResponse 204 JEmpty)).
Proof.
  intros H Hk.
  unfold eval, TimerRouter.POST_pause, TimerRouter.POST_resume,
    TimerRouter.DELETE_timer.
  rewrite Hk. split; [|split].
  - pose proof (method_returns PAUSE w k H) as E. cbn [method] in E.
    erewrite try_eq_ok; [reflexivity|]. rewrite bind_eq, E. reflexivity.
  - pose proof (method_returns RESUME w k H) as E. cbn [method] in E.
    erewrite try_eq_ok; [reflexivity|]. rewrite bind_eq, E. reflexivity.
  - pose proof (method_returns CANCEL w k H) as E. cbn [method] in E.
    erewrite try_eq_ok; [reflexivity|]. rewrite bind_eq, E. reflexivity.
Qed.

Lemma guarded_routes_always_succeed_witness :
  stored w_running "nobody" = None /\
  eval (TimerRouter.POST_pause "nobody") w_running
  = Ok (Responded (mkResponse 200 (JMessage "Timer paused"))) /\
  eval (TimerRouter.DELETE_timer "nobody") w_running
  = Ok (Responded (mkResponse 204 JEmpty)).
Proof.
  split; [reflexivity|].
  destruct (guarded_routes_always_succeed w_running "nobody" eq_refl eq_refl)
    as (Hp & _ & Hd).
  split; [exact Hp | exact Hd].
Defined.

(** X21: [GET /timers/:id] answers 404 exactly when the store holds nothing
    under the id; otherwise it answers 200 with the fields of the stored
    record except [startMonotonicMs], the remaining time of a running
    timer being recomputed from the monotonic clock.  It changes no
    stored record and emits nothing. *)
Theorem get_route_answers (w : World) (k : string) :
  world_ok w = true -> Schemas.TimerParamsSchema k = true ->
  eval (TimerRouter.GET_timer k) w
  = Ok (Responded
          match stored w k with
          | None => mkResponse 404 (JError "Timer not found")
          | Some t =>
              mkResponse 200
                (JTimerResponse (omit_startMonotonicMs (seen_at (mono w) t)))
          end) /\
  (forall k', stored (exec (TimerRouter.GET_timer k) w) k' = stored w k') /\
  emitted (exec (TimerRouter.GET_timer k) w) = emitted w.
Proof.
  intros H Hk. pose proof (world_ok_store w H) as Hok.
  unfold eval, exec, TimerRouter.GET_timer. rewrite Hk.
  destruct (stored w k) as [t|] eqn:Hst.
  - erewrite try_eq_ok;
      [|rewrite bind_eq, (getTimer_result w k t Hok Hst), bind_eq, load_local;
        reflexivity].
    cbn [fst snd]. split; [reflexivity|]. split; [|reflexivity].
    apply (stored_heap_grown w _ [seen_at (mono w) t] Hok); reflexivity.
  - erewrite try_eq_ok;
      [|rewrite bind_eq, (getTimer_missing w k (stored_None w k Hok Hst));
        reflexivity].
    cbn [fst snd]. repeat split.
Qed.

Lemma get_route_answers_witness :
  eval (TimerRouter.GET_timer "abc") w_running
  = Ok (Responded
          (mkResponse 200
             (JTimerResponse
                (mkTimerResponse "abc" (Some "tea") 10000 false 6000 0
                                 RUNNING)))) /\
  eval (TimerRouter.GET_timer "abd") w_running
  = Ok (Responded (mkResponse 404 (JError "Timer not found"))).
Proof.
  split.
  - apply (get_route_answers w_running "abc" eq_refl eq_refl).
  - apply (get_route_answers w_running "abd" eq_refl eq_refl).
Defined.

(** X22: [GET /timers] answers 200 with the records that the store holds,
    oldest key first, each without [startMonotonicMs] and with the
    remaining time as it was last written; it changes no stored record. *)
Theorem list_route_answers (w : World) :
  world_ok w = true ->
  exists ts : list Timer,
    stored_all w = map Some ts /\
    eval TimerRouter.GET_timers w
    = Ok (Responded
            (mkResponse 200
               (JTimerResponses (map omit_startMonotonicMs ts)))) /\
    forall k, stored (exec TimerRouter.GET_timers w) k = stored w k.
Proof.
  intros H. pose proof (world_ok_store w H) as Hok.
  destruct (store_values_live w Hok) as (ts & HF & Hall).
  exists ts. split; [exact Hall|].
  assert (length (store_timers w) = length ts) as Hlen.
  { apply Forall2_length in HF. unfold JSMap.values in HF.
    rewrite length_map in HF. exact HF. }
  assert (TimerRouter.GET_timers w
          = (Ok (Responded
                   (mkResponse 200
                      (JTimerResponses (map omit_startMonotonicMs ts)))),
             upd_heap (fun h => h ++ ts) w)) as E.
  { unfold TimerRouter.GET_timers. erewrite try_eq_ok; [reflexivity|].
    rewrite bind_eq, (listTimers_eq w ts HF), Hlen, bind_eq.
    rewrite (load_all_eq ts); [reflexivity|].
    intros i t Hi. simpl. rewrite lookup_app_r by lia.
    replace (length (heap w) + i - length (heap w))%nat with i by lia.
    exact Hi. }
  unfold eval, exec. rewrite E. split; [reflexivity|].
  apply (stored_heap_grown w _ ts Hok); reflexivity.
Qed.

Lemma list_route_answers_witness :
  exists ts : list Timer,
    stored_all w_paused = map Some ts /\
    eval TimerRouter.GET_timers w_paused
    = Ok (Responded
            (mkResponse 200
               (JTimerResponses (map omit_startMonotonicMs ts)))) /\
    forall k, stored (exec TimerRouter.GET_timers w_paused) k
              = stored w_paused k.
Proof.
  apply (list_route_answers w_paused). vm_compute. reflexivity.
Defined.

(** ** [TimerController] *)

(** X23: the handlers of the controller for pause, resume and cancel
    answer 200 with their message and log nothing, whether or not the
    store holds a timer under the id: the service does not throw, so
    their 404 and 500 answers are never sent. *)
Theorem controller_guarded_calls_answer_200 (w : World) (k : string) :
  world_ok w = true ->
  eval (TimerController.pauseTimer k) w
  = Ok (mkResponse 200 (JMessage "Timer paused"), None) /\
  eval (TimerController.resumeTimer k) w
  = Ok (mkResponse 200 (JMessage "Timer resumed"), None) /\
  eval (TimerController.cancelTimer k) w
  = Ok (mkResponse 200 (JMessage "Timer cancelled"), None).
Proof.
  intros H.
  unfold eval, TimerController.pauseTimer, TimerController.resumeTimer,
    TimerController.cancelTimer.
  split; [|split].
  - pose proof (method_returns PAUSE w k H) as E. cbn [method] in E.
    erewrite try_eq_ok; [reflexivity|]. rewrite bind_eq, E. reflexivity.
  - pose proof (method_returns RESUME w k H) as E. cbn [method] in E.
    erewrite try_eq_ok; [reflexivity|]. rewrite bind_eq, E. reflexivity.
  - pose proof (method_returns CANCEL w k H) as E. cbn [method] in E.
    erewrite try_eq_ok; [reflexivity|]. rewrite bind_eq, E. reflexivity.
Qed.

Lemma controller_guarded_calls_answer_200_witness :
  stored w_running "nobody" = None /\
  eval (TimerController.cancelTimer "nobody") w_running
  = Ok (mkResponse 200 (JMessage "Timer cancelled"), None).
Proof.
  split; [reflexivity|].
  apply (controller_guarded_calls_answer_200 w_running "nobody" eq_refl).
Defined.

(** X24: the controller's create handler, on a body of the declared type.
    A duration that [parseDuration] turns down is answered 500 with
    "Failed to create timer", the error is logged and the service is left
    as it was.  Every other body is answered 200 with the timer read
    back from the store: a running timer with the generated id, the
    name of the request and the parsed duration. *)
Theorem controller_create_answers (w : World) (rnd : string)
    (request : TimerCreateRequest) :
  world_ok w = true ->
  (forall e, parseDuration (duration request) = Throw e ->
     TimerController.createTimer rnd request w
     = (Ok (mkResponse 500 (JError "Failed to create timer"),
            Some ("Error creating timer:", e)), w)) /\
  (forall d, parseDuration (duration request) = Ok d ->
     exists t : Timer,
       eval (TimerController.createTimer rnd request) w
       = Ok (mkResponse 200 (JTimer (Some t)), None) /\
       id t = generateId rnd /\ name t = req_name request /\
       durationMs t = d /\ status t = RUNNING /\ createdAt t = wall w /\
       stored (exec (TimerController.createTimer rnd request) w)
              (generateId rnd)
       = Some (new_timer w (generateId rnd) (req_name request) d)).
Proof.
  intros H. split.
  - intros e Hp. unfold TimerController.createTimer.
    erewrite try_eq_throw; [reflexivity|].
    rewrite bind_eq, (createTimer_throw w rnd request e Hp). reflexivity.
  - intros d Hp.
    destruct (createTimer_accepted w rnd request d H Hp) as (He & Hst & _).
    set (w1 := exec (createTimer rnd request) w) in *.
    assert (world_ok w1 = true) as H1 by apply createTimer_world_ok, H.
    pose proof (Hst (generateId rnd)) as Hnew.
    rewrite String.eqb_refl in Hnew.
    set (x := new_timer w (generateId rnd) (req_name request) d) in *.
    exists (seen_at (mono w1) x).
    assert (TimerController.createTimer rnd request w
            = (Ok (mkResponse 200 (JTimer (Some (seen_at (mono w1) x))), None),
               with_local w1 (seen_at (mono w1) x))) as E.
    { unfold TimerController.createTimer. erewrite try_eq_ok; [reflexivity|].
      rewrite bind_eq, (run_eq _ _ _ He). fold w1.
      rewrite bind_eq, (getTimer_result w1 _ x (world_ok_store w1 H1) Hnew).
      rewrite bind_eq, load_local. reflexivity. }
    unfold eval, exec. rewrite E. cbn [fst snd].
    split; [reflexivity|].
    assert (stored (with_local w1 (seen_at (mono w1) x)) (generateId rnd)
            = Some x) as Hkept.
    { rewrite <- Hnew.
      apply (stored_heap_grown w1 _ [seen_at (mono w1) x]
               (world_ok_store w1 H1)); reflexivity. }
    split; [reflexivity|]. split; [reflexivity|]. split; [reflexivity|].
    split; [reflexivity|]. split; [reflexivity | exact Hkept].
Qed.

Lemma controller_create_answers_witness :
  TimerController.createTimer "0.abc" (mkRequest None (DString "soon")) init
  = (Ok (mkResponse 500 (JError "Failed to create timer"),
         Some ("Error creating timer:",
               Error "Invalid duration format: soon")), init).
Proof.
  destruct (controller_create_answers init "0.abc"
              (mkRequest None (DString "soon")) eq_refl) as [H500 _].
  apply (H500 (Error "Invalid duration format: soon")). reflexivity.
Defined.

(** ** The listeners of the event bus *)

Module BusFacts.
Import EventBusListeners.

Lemma type_eqb_spec (a b : TimerEventType) : reflect (a = b) (type_eqb a b).
Proof. destruct a, b; constructor; congruence. Qed.

Lemma listeners_get_app (type : TimerEventType)
    (m m' : list (TimerEventType * nat)) :
  listeners_get type (m ++ m')
  = match listeners_get type m with
    | Some r => Some r
    | None => listeners_get type m'
    end.
Proof.
  induction m as [|[type' r] m IH]; simpl; [reflexivity|].
  destruct (type_eqb type type'); [reflexivity | exact IH].
Qed.

Lemma listeners_get_new (type : TimerEventType)
    (m : list (TimerEventType * nat)) (r : nat) :
  listeners_get type m = None -> listeners_get type (m ++ [(type, r)]) = Some r.
Proof.
  intros H. rewrite listeners_get_app, H. simpl.
  destruct (type_eqb_spec type type); [reflexivity | congruence].
Qed.

Lemma In_set_add (h h' : nat) (hs : list nat) :
  In h' (set_add h hs) <-> h' = h \/ In h' hs.
Proof.
  unfold set_add. destruct (existsb (Nat.eqb h) hs) eqn:E.
  - split; [auto|]. intros [->|H]; [|exact H].
    apply existsb_exists in E as (x & Hx & Heq).
    apply Nat.eqb_eq in Heq as ->. exact Hx.
  - rewrite in_app_iff. simpl. split.
    + intros [H|[<-|[]]]; auto.
    + intros [->|H]; auto.
Qed.

Lemma NoDup_set_add (h : nat) (hs : list nat) :
  List.NoDup hs -> List.NoDup (set_add h hs).
Proof.
  intros Hnd. unfold set_add. destruct (existsb (Nat.eqb h) hs) eqn:E;
    [exact Hnd|].
  apply List.NoDup_app; [exact Hnd | constructor; [intros []|constructor] |].
  intros x Hx [E'|[]]. subst x.
  assert (existsb (Nat.eqb h) hs = true) as Ht.
  { apply existsb_exists. exists h. split; [exact Hx | apply Nat.eqb_refl]. }
  congruence.
Qed.

Lemma In_set_delete (h h' : nat) (hs : list nat) :
  In h' (set_delete h hs) <-> In h' hs /\ h' <> h.
Proof.
  unfold set_delete. rewrite In_filter_bool, Nat.eqb_neq. reflexivity.
Qed.

Lemma NoDup_set_delete (h : nat) (hs : list nat) :
  List.NoDup hs -> List.NoDup (set_delete h hs).
Proof.
  intros Hnd. unfold set_delete.
  rewrite <- (map_id (filter _ hs)).
  apply (NoDup_map_filter (fun x : nat => x) (fun x => Nat.eqb x h) false).
  rewrite map_id. exact Hnd.
Qed.

Lemma upd_set_ok (r : nat) (f : list nat -> list nat) (b : Bus) :
  (forall hs, List.NoDup hs -> List.NoDup (f hs)) ->
  bus_ok b -> bus_ok (upd_set r f b).
Proof.
  intros Hf (I1 & I2 & I3). unfold upd_set.
  destruct (sets b !! r) as [hs|] eqn:Hr; [|repeat split; assumption].
  split; [|split]; simpl.
  - intros r' hs' H'. destruct (Nat.eq_dec r' r) as [->|Hne].
    + rewrite list_lookup_insert_eq in H'
        by (eapply lookup_lt_Some, Hr).
      injection H' as <-. apply Hf, (I1 r hs Hr).
    + rewrite list_lookup_insert_ne in H' by congruence.
      apply (I1 r' hs' H').
  - intros type r' H'. rewrite length_insert. apply (I2 type r' H').
  - exact I3.
Qed.

Lemma upd_set_eq (r : nat) (f : list nat -> list nat) (b : Bus)
    (hs : list nat) :
  sets b !! r = Some hs ->
  upd_set r f b
  = mkBus (<[r := f hs]> (sets b)) (listeners b) (immediates b)
          (delivered b) (console_errors b).
Proof. intros H. unfold upd_set. rewrite H. reflexivity. Qed.

Lemma subscribe_ok (type : TimerEventType) (h : nat) (b : Bus) :
  bus_ok b -> bus_ok (subscribe type h b).
Proof.
  intros Hok. unfold subscribe.
  destruct (listeners_get type (listeners b)) as [r|] eqn:Hg.
  - rewrite Hg. apply upd_set_ok; [apply NoDup_set_add | exact Hok].
  - cbn [listeners]. rewrite (listeners_get_new type _ _ Hg).
    apply upd_set_ok; [apply NoDup_set_add|].
    destruct Hok as (I1 & I2 & I3). split; [|split]; simpl.
    + intros r hs H. apply lookup_app_Some in H as [H|[_ H]].
      * apply (I1 r hs H).
      * destruct (r - length (sets b))%nat; simpl in H; [|discriminate].
        injection H as <-. constructor.
    + intros type' r. rewrite listeners_get_app, length_app. simpl.
      destruct (listeners_get type' (listeners b)) as [r'|] eqn:Hg'.
      * intros [= <-]. specialize (I2 type' r' Hg'). lia.
      * destruct (type_eqb type' type); [|discriminate].
        intros [= <-]. lia.
    + intros r event Hin. rewrite listeners_get_app, (I3 r event Hin).
      reflexivity.
Qed.

Lemma unsubscribe_ok (type : TimerEventType) (h : nat) (b : Bus) :
  bus_ok b -> bus_ok (unsubscribe type h b).
Proof.
  intros Hok. unfold unsubscribe.
  destruct (listeners_get type (listeners b)) as [r|]; [|exact Hok].
  apply upd_set_ok; [apply NoDup_set_delete | exact Hok].
Qed.

Lemma emit_ok (event : TimerEvent) (b : Bus) : bus_ok b -> bus_ok (emit event b).
Proof.
  intros (I1 & I2 & I3). unfold emit.
  destruct (listeners_get (ev_type event) (listeners b)) as [r|] eqn:Hg;
    [|repeat split; assumption].
  split; [exact I1|]. split; [exact I2|]. simpl.
  intros r' event' Hin. apply in_app_iff in Hin as [Hin|[[= <- <-]|[]]].
  - apply (I3 r' event' Hin).
  - exact Hg.
Qed.

Lemma run_immediate_ok (throws : nat -> TimerEvent -> bool) (b : Bus) :
  bus_ok b -> bus_ok (run_immediate throws b).
Proof.
  intros Hok. unfold run_immediate.
  destruct (immediates b) as [|[r event] rest] eqn:Hq; [exact Hok|].
  destruct Hok as (I1 & I2 & I3).
  split; [exact I1|]. split; [exact I2|]. simpl.
  intros r' event' Hin. apply (I3 r' event'). rewrite Hq. right. exact Hin.
Qed.

Lemma bus_reachable_ok (throws : nat -> TimerEvent -> bool) (b : Bus) :
  bus_reachable throws b -> bus_ok b.
Proof.
  intros [actions ->].
  induction actions as [|a actions IH] using rev_ind.
  - split; [|split]; simpl.
    + intros r hs H. rewrite lookup_nil in H. discriminate.
    + intros type r H. discriminate.
    + intros r event [].
  - unfold bus_run. rewrite fold_left_app. simpl.
    fold (bus_run throws actions new_bus).
    destruct a; simpl.
    + apply subscribe_ok, IH.
    + apply unsubscribe_ok, IH.
    + apply emit_ok, IH.
    + apply run_immediate_ok, IH.
Qed.

Lemma subscribers_eq (b : Bus) (type : TimerEventType) (r : nat) :
  listeners_get type (listeners b) = Some r ->
  subscribers type b = default [] (sets b !! r).
Proof. intros H. unfold subscribers. rewrite H. reflexivity. Qed.

Lemma NoDup_subscribers (b : Bus) (type : TimerEventType) :
  bus_ok b -> List.NoDup (subscribers type b).
Proof.
  intros (I1 & _). unfold subscribers.
  destruct (listeners_get type (listeners b)) as [r|]; [|constructor].
  destruct (sets b !! r) as [hs|] eqn:Hr; [|constructor].
  simpl. apply (I1 r hs Hr).
Qed.

End BusFacts.

(** X25: a queued callback of the bus calls the handlers that are
    subscribed to the type of its event when it runs: each of them
    once, in the order of their subscription, and a handler that throws
    is logged without keeping the later handlers from being called. *)
Theorem callback_calls_current_subscribers
    (throws : nat -> TimerEvent -> bool) (b : Bus) (r : nat)
    (event : TimerEvent) (rest : list (nat * TimerEvent)) :
  EventBusListeners.bus_reachable throws b ->
  immediates b = (r, event) :: rest ->
  let hs := EventBusListeners.subscribers (ev_type event) b in
  let b' := EventBusListeners.run_immediate throws b in
  List.NoDup hs /\
  delivered b' = delivered b ++ map (fun h => (h, event)) hs /\
  console_errors b'
  = console_errors b
    ++ map (fun h => (h, event)) (filter (fun h => throws h event = true) hs) /\
  immediates b' = rest.
Proof.
  intros Hr Hq hs b'. pose proof (BusFacts.bus_reachable_ok throws b Hr) as Hok.
  split; [apply BusFacts.NoDup_subscribers, Hok|].
  destruct Hok as (_ & _ & I3).
  assert (hs = default [] (sets b !! r)) as ->.
  { apply BusFacts.subscribers_eq, I3. rewrite Hq. left. reflexivity. }
  unfold b', EventBusListeners.run_immediate. rewrite Hq.
  repeat split.
Qed.

Lemma callback_calls_current_subscribers_witness :
  let throws := fun (h : nat) (_ : TimerEvent) => Nat.eqb h 7 in
  let e := mkEvent TIMER_PAUSED "abc" None 0 in
  let b := EventBusListeners.bus_run throws
             [EventBusListeners.Subscribe TIMER_PAUSED 7%nat;
              EventBusListeners.Subscribe TIMER_PAUSED 8%nat;
              EventBusListeners.Subscribe TIMER_PAUSED 7%nat;
              EventBusListeners.Emit e]
             EventBusListeners.new_bus in
  delivered (EventBusListeners.run_immediate throws b)
  = [(7%nat, e); (8%nat, e)] /\
  console_errors (EventBusListeners.run_immediate throws b) = [(7%nat, e)].
Proof.
  intros throws e b.
  destruct (callback_calls_current_subscribers throws b 0%nat e [])
    as (_ & Hd & Hc & _).
  - eexists. reflexivity.
  - reflexivity.
  - split; [exact Hd | exact Hc].
Defined.

(** X26: the bus reads the subscriptions when a queued callback runs, not
    when the event is emitted.  If the type of the event has been
    subscribed to before, a handler that subscribes after [emit] is
    called with the event, and a handler that unsubscribes after [emit]
    is not.  If the type has never been subscribed to, [emit] queues
    nothing, and a handler that subscribes right after it is not
    called. *)
Theorem subscriptions_are_read_at_delivery
    (throws : nat -> TimerEvent -> bool) (b : Bus) (event : TimerEvent)
    (h : nat) :
  EventBusListeners.bus_reachable throws b -> immediates b = [] ->
  let type := ev_type event in
  let late := EventBusListeners.run_immediate throws
                (EventBusListeners.subscribe type h
                   (EventBusListeners.emit event b)) in
  let gone := EventBusListeners.run_immediate throws
                (EventBusListeners.unsubscribe type h
                   (EventBusListeners.emit event b)) in
  match EventBusListeners.listeners_get type (listeners b) with
  | Some _ =>
      In (h, event) (delivered late) /\
      delivered gone
      = delivered b
        ++ map (fun h' => (h', event))
               (EventBusListeners.set_delete h
                  (EventBusListeners.subscribers type b))
  | None => delivered late = delivered b /\ delivered gone = delivered b
  end.
Proof.
  intros Hr Hq type late gone.
  pose proof (BusFacts.bus_reachable_ok throws b Hr) as (_ & I2 & _).
  destruct (EventBusListeners.listeners_get type (listeners b)) as [r|] eqn:Hg.
  - destruct (lookup_lt_is_Some_2 (sets b) r (I2 type r Hg)) as [hs Hs].
    assert (EventBusListeners.emit event b
            = mkBus (sets b) (listeners b) [(r, event)] (delivered b)
                    (console_errors b)) as Eemit.
    { unfold EventBusListeners.emit. fold type. rewrite Hg, Hq. reflexivity. }
    assert (listeners (EventBusListeners.emit event b) = listeners b) as El
      by (rewrite Eemit; reflexivity).
    assert (forall f,
               EventBusListeners.run_immediate throws
                 (EventBusListeners.upd_set r f
                    (EventBusListeners.emit event b))
               = mkBus (<[r := f hs]> (sets b)) (listeners b) []
                   (delivered b ++ map (fun h' => (h', event)) (f hs))
                   (console_errors b
                      ++ map (fun h' => (h', event))
                           (filter (fun h' => throws h' event = true) (f hs))))
      as Erun.
    { intros f. rewrite Eemit.
      rewrite (BusFacts.upd_set_eq r f _ hs) by exact Hs.
      unfold EventBusListeners.run_immediate. cbn [immediates sets].
      rewrite list_lookup_insert_eq by (eapply lookup_lt_Some, Hs).
      reflexivity. }
    assert (late = EventBusListeners.run_immediate throws
                     (EventBusListeners.upd_set r
                        (EventBusListeners.set_add h)
                        (EventBusListeners.emit event b))) as ->.
    { unfold late, EventBusListeners.subscribe. cbv zeta.
      rewrite El, Hg. cbv beta iota. rewrite El, Hg. reflexivity. }
    assert (gone = EventBusListeners.run_immediate throws
                     (EventBusListeners.upd_set r
                        (EventBusListeners.set_delete h)
                        (EventBusListeners.emit event b))) as ->.
    { unfold gone, EventBusListeners.unsubscribe. rewrite El, Hg.
      reflexivity. }
    rewrite !Erun. cbn [delivered].
    rewrite (BusFacts.subscribers_eq b type r Hg), Hs. cbn [default].
    split; [|reflexivity].
    apply in_app_iff. right. apply in_map_iff. exists h.
    split; [reflexivity|]. apply BusFacts.In_set_add. left. reflexivity.
  - assert (EventBusListeners.emit event b = b) as Eemit.
    { unfold EventBusListeners.emit. fold type. rewrite Hg. reflexivity. }
    unfold late, gone. rewrite Eemit.
    unfold EventBusListeners.subscribe, EventBusListeners.unsubscribe.
    rewrite Hg. cbn [listeners].
    rewrite (BusFacts.listeners_get_new type _ (length (sets b)) Hg).
    rewrite (BusFacts.upd_set_eq (length (sets b)) _ _ [])
      by (simpl; apply lookup_snoc).
    unfold EventBusListeners.run_immediate. cbn [immediates].
    rewrite Hq. split; reflexivity.
Qed.

Lemma subscriptions_are_read_at_delivery_witness :
  let throws := fun (_ : nat) (_ : TimerEvent) => false in
  let e := mkEvent TIMER_PAUSED "abc" None 0 in
  let b := EventBusListeners.bus_run throws
             [EventBusListeners.Subscribe TIMER_PAUSED 7%nat]
             EventBusListeners.new_bus in
  In (8%nat, e)
     (delivered
        (EventBusListeners.run_immediate throws
           (EventBusListeners.subscribe TIMER_PAUSED 8%nat
              (EventBusListeners.emit e b)))) /\
  delivered
    (EventBusListeners.run_immediate throws
       (EventBusListeners.unsubscribe TIMER_PAUSED 7%nat
          (EventBusListeners.emit e b))) = [].
Proof.
  intros throws e b.
  assert (EventBusListeners.bus_reachable throws b) as Hr
    by (eexists; reflexivity).
  split.
  - apply (subscriptions_are_read_at_delivery throws b e 8%nat Hr eq_refl).
  - apply (subscriptions_are_read_at_delivery throws b e 7%nat Hr eq_refl).
Defined.
